(** * ToDo: the trip-text parser, the resolver dialog and the storage wrappers

    A shallow embedding of the parts of the application that carry logic:
    - the trip parser: [classifyPurpose], [normalizeDate],
      [normalizeDateRange], [parseTripText];
    - the dialog [TripHomonymResolverDialog]: the confirmation gate;
    - the storage module and [lib/indexeddb-storage]: the one-time migration
      [initializeIndexedDBStorage] and the CRUD wrappers for categories,
      tasks, quick links and notes.

    JavaScript strings are sequences of UTF-16 code units; they are modelled
    as [list N].  Objects used as dictionaries, [Map]s and the two browser
    stores are [gmap]s; a [Set] is a [gset], or a list without repetition
    where its insertion order is read.  What the code takes from its
    environment (random identifiers, the clock, [JSON.parse]) is a parameter
    of the model. *)

From Stdlib Require Import ZArith NArith Lia Decimal DecimalZ Ascii String.
From stdpp Require Import gmap strings list fin_maps.

Local Open Scope N_scope.

(** ** JavaScript strings *)

Abbreviation jsstring := (list N).

Module JsString.

(** *** String literals

    Source literals are written as UTF-8 text and decoded to UTF-16 code
    units ([js]).  Only the one-, two- and three-byte forms occur in the
    program's literals (ASCII and Hangul syllables). *)

Definition byteN (a : ascii) : N := N_of_ascii a.

Fixpoint decodeUtf8 (fuel : nat) (bs : list N) : jsstring :=
  match fuel with
  | O => []
  | S fuel' =>
      match bs with
      | [] => []
      | b0 :: r0 =>
          if b0 <? 0x80 then b0 :: decodeUtf8 fuel' r0
          else if b0 <? 0xE0 then
            match r0 with
            | b1 :: r1 =>
                ((b0 - 0xC0) * 64 + (b1 - 0x80)) :: decodeUtf8 fuel' r1
            | [] => [b0]
            end
          else
            match r0 with
            | b1 :: b2 :: r2 =>
                ((b0 - 0xE0) * 4096 + (b1 - 0x80) * 64 + (b2 - 0x80))
                  :: decodeUtf8 fuel' r2
            | _ => b0 :: r0
            end
      end
  end.

Definition js (s : string) : jsstring :=
  let bs := byteN <$> String.list_ascii_of_string s in
  decodeUtf8 (length bs) bs.

(** *** Character classes of the regular expressions *)

(** [\d] *)
Definition isDigit (c : N) : bool := (48 <=? c) && (c <=? 57).

(** [\s], which is also the set that [String.prototype.trim] strips:
    TAB, LF, VT, FF, CR, SP, NBSP, U+1680, U+2000..U+200A, LS, PS,
    U+202F, U+205F, U+3000 and the BOM. *)
Definition isWhiteSpace (c : N) : bool :=
  ((9 <=? c) && (c <=? 13)) || (c =? 32) || (c =? 0xA0) || (c =? 0x1680)
  || ((0x2000 <=? c) && (c <=? 0x200A)) || (c =? 0x2028) || (c =? 0x2029)
  || (c =? 0x202F) || (c =? 0x205F) || (c =? 0x3000) || (c =? 0xFEFF).

Definition LF : N := 10.
Definition HYPHEN : N := 45.
Definition DOT : N := 46.
Definition ZERO : N := 48.
Definition BAR : N := 124.
Definition TILDE : N := 126.

(** *** [trim], [split], [includes], [padStart] *)

Fixpoint trimStart (s : jsstring) : jsstring :=
  match s with
  | [] => []
  | c :: s' => if isWhiteSpace c then trimStart s' else s
  end.

Definition trimEnd (s : jsstring) : jsstring := rev (trimStart (rev s)).

Definition trim (s : jsstring) : jsstring := trimEnd (trimStart s).

(** [s.split(sep)] for a one-unit separator. The empty string splits into
    one empty piece. *)
Fixpoint split (sep : N) (s : jsstring) : list jsstring :=
  match s with
  | [] => [[]]
  | c :: s' =>
      if c =? sep then [] :: split sep s'
      else match split sep s' with
           | piece :: pieces => (c :: piece) :: pieces
           | [] => [[c]]
           end
  end.

Fixpoint startsWith (p s : jsstring) : bool :=
  match p, s with
  | [], _ => true
  | _ :: _, [] => false
  | a :: p', b :: s' => (a =? b) && startsWith p' s'
  end.

(** [s.includes(sub)]; also [/sub/.test(s)] for a literal pattern. *)
Fixpoint includes (sub s : jsstring) : bool :=
  startsWith sub s ||
  match s with
  | [] => false
  | _ :: s' => includes sub s'
  end.

(** [s.padStart(target, fill)] for a one-unit [fill]. *)
Definition padStart (target : nat) (fill : N) (s : jsstring) : jsstring :=
  replicate (target - length s) fill ++ s.

(** *** Numbers

    The parser only handles integers and [NaN]. *)

Inductive number := NaN | Num (z : Z).

Definition digitVal (c : N) : Z := Z.of_N (c - 48).

Fixpoint digitsPrefix (s : jsstring) : jsstring :=
  match s with
  | c :: s' => if isDigit c then c :: digitsPrefix s' else []
  | [] => []
  end.

Definition digitsValue (ds : jsstring) : Z :=
  foldl (fun acc c => (10 * acc + digitVal c)%Z) 0%Z ds.

(** [parseInt(s, 10)]: leading white space is skipped, a sign is
    accepted, the longest prefix of decimal digits is read and the rest is
    ignored; without a digit the result is [NaN].  The program calls it on
    strings of at most four digits, where the result is exact. *)
Definition parseInt10 (s : jsstring) : number :=
  let t := trimStart s in
  let '(neg, u) :=
    match t with
    | c :: t' => if c =? 45 then (true, t')
                 else if c =? 43 then (false, t') else (false, t)
    | [] => (false, t)
    end in
  match digitsPrefix u with
  | [] => NaN
  | ds => Num (if neg : bool then - digitsValue ds else digitsValue ds)%Z
  end.

Fixpoint uintUnits (d : Decimal.uint) : jsstring :=
  match d with
  | Nil => []
  | D0 d' => 48 :: uintUnits d'
  | D1 d' => 49 :: uintUnits d'
  | D2 d' => 50 :: uintUnits d'
  | D3 d' => 51 :: uintUnits d'
  | D4 d' => 52 :: uintUnits d'
  | D5 d' => 53 :: uintUnits d'
  | D6 d' => 54 :: uintUnits d'
  | D7 d' => 55 :: uintUnits d'
  | D8 d' => 56 :: uintUnits d'
  | D9 d' => 57 :: uintUnits d'
  end.

Definition intToString (z : Z) : jsstring :=
  match Z.to_int z with
  | Pos d => uintUnits d
  | Neg d => 45 :: uintUnits d
  end.

(** [String(n)] and [`${n}`]. *)
Definition numberToString (n : number) : jsstring :=
  match n with
  | NaN => [78; 97; 78]
  | Num z => intToString z
  end.

(** [a > b] on numbers: false as soon as one side is [NaN]. *)
Definition gtNumber (a b : number) : bool :=
  match a, b with
  | Num x, Num y => (y <? x)%Z
  | _, _ => false
  end.

End JsString.

Import JsString.

(** ** Completions

    A JavaScript call either returns or throws.  The modelled code can raise
    two exceptions by itself: the [TypeError] of a member access on
    [undefined], and the rejection of an IndexedDB request.  [Unfinished] is
    the answer of a loop whose iteration budget ran out; the theorems show
    that the budgets handed out suffice. *)

Inductive exn := TypeError | RequestError.

Inductive completion (A : Type) : Type :=
| Normal (a : A)
| Throw (e : exn)
| Unfinished.

Arguments Normal {A} a.
Arguments Throw {A} e.
Arguments Unfinished {A}.

Definition cbind {A B} (c : completion A) (k : A -> completion B) : completion B :=
  match c with
  | Normal a => k a
  | Throw e => Throw e
  | Unfinished => Unfinished
  end.

(** [o.member] where [o] may be [undefined]. *)
Definition deref {A} (o : option A) : completion A :=
  match o with
  | Some a => Normal a
  | None => Throw TypeError
  end.

#[global] Instance completion_bind : MBind completion :=
  fun A B k c => cbind c k.
#[global] Instance completion_ret : MRet completion := @Normal.

(** ** Records of [lib/types] *)

(** Modelled from the spec: [lib/types.ts] is not among the sources; a roster
    entry carries the fields that the parser and the dialog read.  [knoxId]
    is optional (the dialog writes [c.knoxId!]). *)
Module TeamMember.
Record t := mk {
  id : jsstring;
  name : jsstring;
  knoxId : option jsstring;
  department : jsstring;
}.
End TeamMember.

(** Modelled from the spec: [TripCategory] of [lib/types.ts], from the four
    literals that [classifyPurpose] returns. *)
Module TripCategory.
Inductive t := vacation | education | others | trip.
End TripCategory.

(** Modelled from the spec: [BusinessTrip] of [lib/types.ts], from the object
    literal that [parseTripText] pushes. *)
Module BusinessTrip.
Record t := mk {
  id : jsstring;
  knoxId : option jsstring;
  name : jsstring;
  startDate : jsstring;
  endDate : jsstring;
  location : jsstring;
  purpose : jsstring;
  category : TripCategory.t;
  status : jsstring;
  createdAt : jsstring;
  updatedAt : jsstring;
}.
End BusinessTrip.

(** An entry of [ambiguousTrips]: [{ trip, candidates }]. *)
Module Ambiguous.
Record t := mk {
  trip : BusinessTrip.t;
  candidates : list TeamMember.t;
}.
End Ambiguous.

(** ** The trip parser *)

Module TripParser.

(** The text whose lines are [ls], joined by line feeds; sample texts are
    written with it. *)
Definition unlines (ls : list jsstring) : jsstring :=
  match ls with
  | [] => []
  | l :: ls' => l ++ concat ((fun x => LF :: x) <$> ls')
  end.

(** [classifyPurpose(purpose)] *)
Definition classifyPurpose (purpose : jsstring) : TripCategory.t :=
  let p := trim purpose in
  if includes (js "연차") p || includes (js "휴가") p then TripCategory.vacation
  else if includes (js "교육") p then TripCategory.education
  else if includes (js "협력사") p || includes (js "검진") p then TripCategory.others
  else TripCategory.trip.

(** [/^\d{1,2}[-.]\d{1,2}$/.test(s)] *)
Definition shortDateRe (s : jsstring) : bool :=
  match s with
  | a :: r =>
      isDigit a &&
      let r' := match r with
                | b :: r2 => if isDigit b then r2 else r
                | [] => r
                end in
      match r' with
      | sep :: r3 =>
          ((sep =? HYPHEN) || (sep =? DOT)) &&
          match r3 with
          | [c] => isDigit c
          | [c; d] => isDigit c && isDigit d
          | _ => false
          end
      | [] => false
      end
  | [] => false
  end.

(** [parseInt(x, 10)] where [x] may be [undefined]: ["undefined"] has no
    digit. *)
Definition parseIntOpt (x : option jsstring) : number :=
  match x with
  | Some s => parseInt10 s
  | None => NaN
  end.

(** [`${y}-${String(m).padStart(2, '0')}-${String(d).padStart(2, '0')}`] *)
Definition formatDate (y : Z) (m d : number) : jsstring :=
  intToString y ++ [HYPHEN] ++ padStart 2 ZERO (numberToString m)
    ++ [HYPHEN] ++ padStart 2 ZERO (numberToString d).

(** [clean.includes('-') ? clean.split('-') : clean.split('.')] *)
Definition dateParts (clean : jsstring) : list jsstring :=
  if includes [HYPHEN] clean then split HYPHEN clean else split DOT clean.

(** [normalizeDate(dateStr, baseDate)]; [currentYear] is
    [baseDate.getFullYear()]. *)
Definition normalizeDate (dateStr : jsstring) (currentYear : Z) : jsstring :=
  let cleanStr := trim dateStr in
  if shortDateRe cleanStr then
    let parts := dateParts cleanStr in
    let m := parseIntOpt (parts !! 0%nat) in
    let d := parseIntOpt (parts !! 1%nat) in
    formatDate currentYear m d
  else cleanStr.

Record MonthDay := { month : number; day : number }.

Definition parseMonthDay (s : jsstring) : MonthDay :=
  let clean := trim s in
  let parts := dateParts clean in
  {| month := parseIntOpt (parts !! 0%nat); day := parseIntOpt (parts !! 1%nat) |}.

Definition isShortDate (s : jsstring) : bool := shortDateRe (trim s).

Record DateRange := { startDate : jsstring; endDate : jsstring }.

(** [normalizeDateRange(startStr, endStr, baseDate)] *)
Definition normalizeDateRange (startStr endStr : jsstring) (currentYear : Z)
  : DateRange :=
  if isShortDate startStr && isShortDate endStr then
    let start := parseMonthDay startStr in
    let end_ := parseMonthDay endStr in
    let startYear :=
      if gtNumber (month start) (month end_) then (currentYear - 1)%Z
      else currentYear in
    let endYear := currentYear in
    {| startDate := formatDate startYear (month start) (day start);
       endDate := formatDate endYear (month end_) (day end_) |}
  else
    {| startDate := normalizeDate startStr currentYear;
       endDate := normalizeDate endStr currentYear |}.

(** The prefix [\d{2}-\d{2}] of a string, with what follows it. *)
Definition mmdd (s : jsstring) : option (jsstring * jsstring) :=
  match s with
  | a :: b :: c :: d :: e :: rest =>
      if isDigit a && isDigit b && (c =? HYPHEN) && isDigit d && isDigit e
      then Some ([a; b; c; d; e], rest)
      else None
  | _ => None
  end.

(** [line.match(/^(\d{2}-\d{2})(?:\s*~\s*(\d{2}-\d{2}))?$/)]: the two
    capture groups, the second one [undefined] when the range part is
    absent. *)
Definition dateMatch (line : jsstring) : option (jsstring * option jsstring) :=
  match mmdd line with
  | None => None
  | Some (g1, []) => Some (g1, None)
  | Some (g1, rest) =>
      match trimStart rest with
      | c :: rest' =>
          if c =? TILDE then
            match mmdd (trimStart rest') with
            | Some (g2, []) => Some (g1, Some g2)
            | _ => None
            end
          else None
      | [] => None
      end
  end.

(** The pattern [(\d{4})-\d{2}-\d{2}] at the head of a string: group 1. *)
Definition isoPrefix (s : jsstring) : option jsstring :=
  match s with
  | y1 :: y2 :: y3 :: y4 :: h1 :: m1 :: m2 :: h2 :: d1 :: d2 :: _ =>
      if isDigit y1 && isDigit y2 && isDigit y3 && isDigit y4
         && (h1 =? HYPHEN) && isDigit m1 && isDigit m2
         && (h2 =? HYPHEN) && isDigit d1 && isDigit d2
      then Some [y1; y2; y3; y4]
      else None
  | _ => None
  end.

(** [line.match(/(\d{4})-\d{2}-\d{2}/)]: group 1 of the leftmost match. *)
Fixpoint yearMatch (line : jsstring) : option jsstring :=
  match isoPrefix line with
  | Some g => Some g
  | None =>
      match line with
      | [] => None
      | _ :: line' => yearMatch line'
      end
  end.

(** [!/^\d/.test(name) && name !== '종일' && name !== '반일'] *)
Definition isName (name : jsstring) : bool :=
  negb (match name with c :: _ => isDigit c | [] => false end)
  && negb (bool_decide (name = js "종일"))
  && negb (bool_decide (name = js "반일")).

(** [text.split('\n').map(l => l.trim()).filter(l => l)] *)
Definition textLines (text : jsstring) : list jsstring :=
  filter (fun l => l <> []) (trim <$> split LF text).

(** The member lookup map: one step of the loop over the roster. *)
Definition addMember (memberMap : gmap jsstring (list TeamMember.t))
    (m : TeamMember.t) : completion (gmap jsstring (list TeamMember.t)) :=
  let key := trim (TeamMember.name m) in
  let memberMap1 :=
    if bool_decide (is_Some (memberMap !! key)) then memberMap
    else <[key := []]> memberMap in
  bucket ← deref (memberMap1 !! key);
  Normal (<[key := bucket ++ [m]]> memberMap1).

Fixpoint buildMemberMap (members : list TeamMember.t)
    (memberMap : gmap jsstring (list TeamMember.t))
  : completion (gmap jsstring (list TeamMember.t)) :=
  match members with
  | [] => Normal memberMap
  | m :: members' =>
      memberMap' ← addMember memberMap m;
      buildMemberMap members' memberMap'
  end.

(** The base year: the year of the first line that holds a full date, else
    the year of the clock. *)
Fixpoint baseYear (clockYear : Z) (lines : list jsstring) : Z :=
  match lines with
  | [] => clockYear
  | line :: lines' =>
      match yearMatch line with
      | Some g =>
          match parseInt10 g with
          | Num y => y
          | NaN => clockYear
          end
      | None => baseYear clockYear lines'
      end
  end.

(** A [Set<string>] with its insertion order, as [Array.from] sees it. *)
Definition setAdd (x : jsstring) (s : list jsstring) : list jsstring :=
  if bool_decide (x ∈ s) then s else s ++ [x].

Record ScanState := {
  scanTrips : list BusinessTrip.t;
  scanUnknown : list jsstring;
}.

Record ParseResult := {
  trips : list BusinessTrip.t;
  unknownNames : list jsstring;
  ambiguousTrips : list Ambiguous.t;
}.

Record DedupState := {
  uniqueTrips : list BusinessTrip.t;
  seen : gset jsstring;
  uniqueAmbiguousTrips : list Ambiguous.t;
}.

(** [`${trip.name}|${trip.startDate}|${trip.endDate}`] *)
Definition tripKey (t : BusinessTrip.t) : jsstring :=
  BusinessTrip.name t ++ [BAR] ++ BusinessTrip.startDate t ++ [BAR]
    ++ BusinessTrip.endDate t.

Section Parse.

(** The environment: the successive answers of [crypto.randomUUID()] and the
    answer of [new Date().toISOString()]. *)
Variable randomUUID : nat -> jsstring.
Variable now : jsstring.

Variable memberMap : gmap jsstring (list TeamMember.t).
Variable lines : list jsstring.
Variable currentYear : Z.

(** The trip pushed for the block that starts at a date line. *)
Definition makeTrip (nth : nat) (g1 : jsstring) (g2 : option jsstring)
    (name purpose : jsstring) (knoxId : option jsstring) : BusinessTrip.t :=
  let startDateStr := g1 in
  let endDateStr :=
    match g2 with
    | Some (c :: e) => c :: e
    | _ => g1
    end in
  let r := normalizeDateRange startDateStr endDateStr currentYear in
  BusinessTrip.mk (randomUUID nth) knoxId name (startDate r) (endDate r)
    (js "해외") purpose (classifyPurpose purpose) (js "planned") now now.

(** One iteration of [for (let i = 0; i < lines.length; i++)]: the state
    after the body and the value of [i] before the [i++] of the loop
    header. *)
Definition scanStep (i : nat) (st : ScanState) : completion (nat * ScanState) :=
  line ← deref (lines !! i);
  match dateMatch line with
  | Some (g1, g2) =>
      if bool_decide (i + 2 < length lines)%nat then
        l1 ← deref (lines !! (i + 1)%nat);
        l2 ← deref (lines !! (i + 2)%nat);
        let name := trim l1 in
        let purpose := trim l2 in
        if isName name then
          let candidates := memberMap !! name in
          res ← match candidates with
                 | Some cs =>
                     if bool_decide (length cs = 1%nat) then
                       c ← deref (cs !! 0%nat);
                       Normal (TeamMember.knoxId c, scanUnknown st)
                     else Normal (None, scanUnknown st)
                 | None => Normal (None, setAdd name (scanUnknown st))
                 end;
          let '(knoxId, unknown) := res in
          let t := makeTrip (length (scanTrips st)) g1 g2 name purpose knoxId in
          Normal ((i + 2)%nat,
                  {| scanTrips := scanTrips st ++ [t]; scanUnknown := unknown |})
        else Normal (i, st)
      else Normal (i, st)
  | None => Normal (i, st)
  end.

Fixpoint scanLines (budget : nat) (i : nat) (st : ScanState)
  : completion ScanState :=
  if bool_decide (i < length lines)%nat then
    match budget with
    | O => Unfinished
    | S budget' =>
        r ← scanStep i st;
        scanLines budget' (S (fst r)) (snd r)
    end
  else Normal st.

(** One iteration of [for (const trip of trips)]. *)
Definition dedupStep (d : DedupState) (t : BusinessTrip.t) : DedupState :=
  let key := tripKey t in
  if bool_decide (key ∈ seen d) then d
  else
    {| uniqueTrips := uniqueTrips d ++ [t];
       seen := {[key]} ∪ seen d;
       uniqueAmbiguousTrips :=
         match BusinessTrip.knoxId t with
         | None =>
             match memberMap !! BusinessTrip.name t with
             | Some cs =>
                 if bool_decide (1 < length cs)%nat
                 then uniqueAmbiguousTrips d ++ [Ambiguous.mk t cs]
                 else uniqueAmbiguousTrips d
             | None => uniqueAmbiguousTrips d
             end
         | Some _ => uniqueAmbiguousTrips d
         end |}.

Definition dedup (ts : list BusinessTrip.t) : DedupState :=
  foldl dedupStep
    {| uniqueTrips := []; seen := ∅; uniqueAmbiguousTrips := [] |} ts.

End Parse.

(** The first half of [parseTripText]: the roster map, the base year and the
    loop over the lines; the answer holds [memberMap], and [trips] and
    [unknownNames] as they are before the deduplication. *)
Definition scanText (randomUUID : nat -> jsstring) (now : jsstring)
    (clockYear : Z) (text : jsstring) (existingMembers : list TeamMember.t)
  : completion (gmap jsstring (list TeamMember.t) * ScanState) :=
  let lines := textLines text in
  memberMap ← buildMemberMap existingMembers ∅;
  let currentYear := baseYear clockYear lines in
  st ← scanLines randomUUID now memberMap lines currentYear (length lines) 0
         {| scanTrips := []; scanUnknown := [] |};
  Normal (memberMap, st).

(** [parseTripText(text, existingMembers)]; [clockYear] is the year of
    [new Date()]. *)
Definition parseTripText (randomUUID : nat -> jsstring) (now : jsstring)
    (clockYear : Z) (text : jsstring) (existingMembers : list TeamMember.t)
  : completion ParseResult :=
  scanned ← scanText randomUUID now clockYear text existingMembers;
  let memberMap := fst scanned in
  let st := snd scanned in
  let d := dedup memberMap (scanTrips st) in
  Normal {| trips := uniqueTrips d;
            unknownNames := scanUnknown st;
            ambiguousTrips := uniqueAmbiguousTrips d |}.

End TripParser.

(** ** The dialog [TripHomonymResolverDialog] *)

Module ResolverDialog.

(** [resolutions : Record<string, string>], a plain object made by [{}] and
    by object literals with a spread: these are its own properties.  A
    candidate without [knoxId] makes [handleSelect] store [undefined] under
    the trip's id, so a key maps to an optional value. *)
Abbreviation Resolutions := (gmap jsstring (option jsstring)).

(** The names of the members that every plain object inherits from
    [Object.prototype]. *)
Definition objectPrototypeNames : list jsstring :=
  [js "constructor"; js "hasOwnProperty"; js "isPrototypeOf";
   js "propertyIsEnumerable"; js "toLocaleString"; js "toString";
   js "valueOf"; js "__proto__"; js "__defineGetter__";
   js "__defineSetter__"; js "__lookupGetter__"; js "__lookupSetter__"].

(** What the read of a property gives: [undefined], a string, or a member
    of [Object.prototype], which is a function or, for [__proto__], the
    prototype itself, and in no case [undefined]. *)
Inductive value :=
| Undefined
| Str (s : jsstring)
| Inherited (name : jsstring).

#[global] Instance value_eq_dec : EqDecision value.
Proof. solve_decision. Defined.

(** The value of an own property. *)
Definition ownValue (v : option jsstring) : value :=
  match v with
  | Some s => Str s
  | None => Undefined
  end.

(** [resolutions[key]]: the own property of that name, also when it holds
    [undefined]; without one, the member that the prototype has under that
    name. *)
Definition prop (resolutions : Resolutions) (key : jsstring) : value :=
  match resolutions !! key with
  | Some v => ownValue v
  | None =>
      if bool_decide (key ∈ objectPrototypeNames) then Inherited key
      else Undefined
  end.

(** [setResolutions(prev => ({ ...prev, [tripId]: knoxId }))] *)
Definition handleSelect (tripId : jsstring) (knoxId : option jsstring)
    (prev : Resolutions) : Resolutions :=
  <[tripId := knoxId]> prev.

(** [ambiguousTrips.every(t => resolutions[t.trip.id] !== undefined)] *)
Definition isAllResolved (ambiguousTrips : list Ambiguous.t)
    (resolutions : Resolutions) : bool :=
  forallb
    (fun t => bool_decide
       (prop resolutions (BusinessTrip.id (Ambiguous.trip t)) <> Undefined))
    ambiguousTrips.

(** The [disabled] attribute of the confirm button. *)
Definition confirmDisabled (ambiguousTrips : list Ambiguous.t)
    (resolutions : Resolutions) : bool :=
  negb (isAllResolved ambiguousTrips resolutions).

(** The calls that the dialog makes on its two callback props. *)
Inductive Callback :=
| onResolve (resolutions : Resolutions)
| onOpenChange (open : bool).

Inductive Click :=
| ClickCandidate (tripId : jsstring) (knoxId : option jsstring)
| ClickConfirm
| ClickCancel.

(** [useEffect(() => { if (open) setResolutions({}) }, [open])] *)
Definition openEffect (open : bool) (resolutions : Resolutions) : Resolutions :=
  if open then ∅ else resolutions.

(** A click: the next state and the callbacks fired.  A disabled button does
    not run its [onClick]. *)
Definition click (ambiguousTrips : list Ambiguous.t) (resolutions : Resolutions)
    (e : Click) : Resolutions * list Callback :=
  match e with
  | ClickCandidate tripId knoxId => (handleSelect tripId knoxId resolutions, [])
  | ClickConfirm =>
      if confirmDisabled ambiguousTrips resolutions then (resolutions, [])
      else (resolutions, [onResolve resolutions])
  | ClickCancel => (resolutions, [onOpenChange false])
  end.

(** The candidate buttons that the dialog renders: one per entry and
    candidate, wired to [handleSelect(trip.id, c.knoxId)]. *)
Definition rendered (ambiguousTrips : list Ambiguous.t)
    (tripId : jsstring) (knoxId : option jsstring) : Prop :=
  exists t c, t ∈ ambiguousTrips /\ c ∈ Ambiguous.candidates t /\
    tripId = BusinessTrip.id (Ambiguous.trip t) /\ knoxId = TeamMember.knoxId c.

(** The states that clicks on rendered buttons reach after the dialog was
    opened. *)
Inductive reachable (ambiguousTrips : list Ambiguous.t) : Resolutions -> Prop :=
| reach_open r : reachable ambiguousTrips (openEffect true r)
| reach_select r tripId knoxId :
    reachable ambiguousTrips r ->
    rendered ambiguousTrips tripId knoxId ->
    reachable ambiguousTrips
      (fst (click ambiguousTrips r (ClickCandidate tripId knoxId)))
| reach_other r e :
    reachable ambiguousTrips r ->
    (e = ClickConfirm \/ e = ClickCancel) ->
    reachable ambiguousTrips (fst (click ambiguousTrips r e)).

End ResolverDialog.

(** ** Storage: the migration from localStorage to IndexedDB *)

Module Migration.

Definition STORAGE_KEY : jsstring := js "local-tasks-data".
Definition IDB_MIGRATION_KEY : jsstring := js "local-tasks-idb-migrated-v1".

Definition IDB_SYNC_KEYS : list jsstring :=
  [ js "local-tasks-data";
    js "local-tasks-quick-links";
    js "local-tasks-notes";
    js "local-tasks-labels";
    js "local-tasks-theme";
    js "local-tasks-layout";
    js "local-tasks-layout-state";
    js "local-tasks-layout-presets";
    js "local-tasks-team-members";
    js "local-tasks-business-trips";
    js "local-tasks-trip-records";
    js "tripNameResolutions";
    js "tripDestinationMappings";
    js "calendar-settings";
    js "calendar-collapsed-weeks";
    js "search-history";
    js "sidebar_calendar_expanded";
    js "sidebar_quicklinks_expanded";
    js "sidebar_pinnedmemos_expanded";
    js "team-member-custom-columns";
    js "team-member-visible-columns";
    js "tripViewMode";
    js "tripCategoryColors";
    js "ganttViewPrefs";
    js "tripRecordColumns";
    js "tripRecordHeaders";
    js "local-tasks-current-view";
    js "local-tasks-current-month";
    js "local-tasks-selected-date";
    js "local-tasks-selected-category-ids";
    IDB_MIGRATION_KEY ].

Definition heavyKeys : list jsstring :=
  [ js "local-tasks-data"; js "local-tasks-quick-links"; js "local-tasks-notes";
    js "local-tasks-labels"; js "local-tasks-team-members";
    js "local-tasks-business-trips"; js "local-tasks-trip-records";
    js "tripNameResolutions" ].

Definition shouldSyncKey (key : jsstring) : bool :=
  bool_decide (key ∈ IDB_SYNC_KEYS).

Section Browser.

(** The values that the object store holds, with the two ways the migration
    makes one: [JSON.parse] (which throws on text that is not JSON) and a
    plain string. *)
Variable JsValue : Type.
Variable JSON_parse : jsstring -> option JsValue.
Variable ofString : jsstring -> JsValue.

(** Whether the object store completes the request [put(value, key)]; a
    request that fails rejects the promise of [idbSet]. *)
Variable idbAccepts : jsstring -> JsValue -> bool.

(** [window] tells whether [typeof window !== 'undefined']. *)
Record Browser := {
  window : bool;
  localStorage : gmap jsstring jsstring;
  idb : gmap jsstring JsValue;
}.

Definition withLocalStorage (b : Browser) (ls : gmap jsstring jsstring) : Browser :=
  {| window := window b; localStorage := ls; idb := idb b |}.

Definition withIdb (b : Browser) (store : gmap jsstring JsValue) : Browser :=
  {| window := window b; localStorage := localStorage b; idb := store |}.

Definition getStorageItem (key : jsstring) (b : Browser) : option jsstring :=
  if window b then localStorage b !! key else None.

(** [idbSet(key, value)] of lib/indexeddb-storage *)
Definition idbSet (key : jsstring) (value : JsValue) (b : Browser)
  : completion unit * Browser :=
  if window b then
    if idbAccepts key value then (Normal (), withIdb b (<[key := value]> (idb b)))
    else (Throw RequestError, b)
  else (Normal (), b).

(** [setStorageItem(key, value)]: the write to IndexedDB is not awaited and
    its rejection is swallowed. *)
Definition setStorageItem (key value : jsstring) (b : Browser) : Browser :=
  if window b then
    let b1 := withLocalStorage b (<[key := value]> (localStorage b)) in
    if shouldSyncKey key then snd (idbSet key (ofString value) b1) else b1
  else b.

(** What the migration stores for a string of localStorage: the parsed
    value when the string is JSON, the string itself otherwise. *)
Definition migratedValue (valueStr : jsstring) : JsValue :=
  match JSON_parse valueStr with
  | Some value => value
  | None => ofString valueStr
  end.

(** The object store after the loop over [keys], when every request
    completes. *)
Definition copied (ls : gmap jsstring jsstring) (keys : list jsstring)
    (store : gmap jsstring JsValue) : gmap jsstring JsValue :=
  foldl (fun m key =>
           match ls !! key with
           | Some valueStr => <[key := migratedValue valueStr]> m
           | None => m
           end) store keys.

(** The body of the loop over [IDB_SYNC_KEYS]:
    [try { await idbSet(key, JSON.parse(valueStr)) }
     catch { await idbSet(key, valueStr) }]. *)
Definition migrateKey (key : jsstring) (b : Browser) : completion unit * Browser :=
  match getStorageItem key b with
  | Some valueStr =>
      match JSON_parse valueStr with
      | Some value =>
          match idbSet key value b with
          | (Normal _, b1) => (Normal (), b1)
          | (_, b1) => idbSet key (ofString valueStr) b1
          end
      | None => idbSet key (ofString valueStr) b
      end
  | None => (Normal (), b)
  end.

Fixpoint migrateKeys (keys : list jsstring) (b : Browser)
  : completion unit * Browser :=
  match keys with
  | [] => (Normal (), b)
  | key :: keys' =>
      match migrateKey key b with
      | (Normal _, b1) => migrateKeys keys' b1
      | (c, b1) => (c, b1)
      end
  end.

(** [heavyKeys.forEach(k => localStorage.removeItem(k))] *)
Definition removeHeavy (b : Browser) : Browser :=
  withLocalStorage b (foldl (fun ls k => delete k ls) (localStorage b) heavyKeys).

(** [initializeIndexedDBStorage()]; the outer [catch] only logs. *)
Definition initializeIndexedDBStorage (b : Browser) : Browser :=
  if window b then
    if bool_decide (getStorageItem IDB_MIGRATION_KEY b = Some (js "2")) then b
    else
      match migrateKeys IDB_SYNC_KEYS b with
      | (Normal _, b1) =>
          let b2 := setStorageItem IDB_MIGRATION_KEY (js "2") b1 in
          match idbSet IDB_MIGRATION_KEY (ofString (js "2")) b2 with
          | (Normal _, b3) => removeHeavy b3
          | (_, b3) => b3
          end
      | (_, b1) => b1
      end
  else b.

End Browser.

Arguments window {JsValue} b.
Arguments localStorage {JsValue} b.
Arguments idb {JsValue} b.

End Migration.

(** ** Storage: the CRUD wrappers *)

(** Modelled from the spec: [Category] of [lib/types.ts], from the object
    literal of [getAppData]; [patch] is [Partial<Category>]. *)
Module Category.
Record t := mk {
  id : jsstring;
  name : jsstring;
  color : jsstring;
  order : Z;
  createdAt : jsstring;
}.
Record patch := mkPatch {
  id' : option jsstring;
  name' : option jsstring;
  color' : option jsstring;
  order' : option Z;
  createdAt' : option jsstring;
}.
(** [{ ...c, ...updates }] *)
Definition spread (c : t) (updates : patch) : t :=
  {| id := default (id c) (id' updates);
     name := default (name c) (name' updates);
     color := default (color c) (color' updates);
     order := default (order c) (order' updates);
     createdAt := default (createdAt c) (createdAt' updates) |}.
End Category.

(** Modelled from the spec: [Task] of [lib/types.ts], from the object literal
    of [addTask]; [patch] is [Partial<Task>]. *)
Module Task.
Record t := mk {
  id : jsstring;
  categoryId : jsstring;
  title : jsstring;
  assignee : jsstring;
  resourceUrl : jsstring;
  notes : jsstring;
  dueDate : option jsstring;
  dueTime : option jsstring;
  tags : list jsstring;
  completed : bool;
  completedAt : option jsstring;
  isPinned : bool;
  order : Z;
  createdAt : jsstring;
}.
Record patch := mkPatch {
  id' : option jsstring;
  categoryId' : option jsstring;
  title' : option jsstring;
  assignee' : option jsstring;
  resourceUrl' : option jsstring;
  notes' : option jsstring;
  dueDate' : option (option jsstring);
  dueTime' : option (option jsstring);
  tags' : option (list jsstring);
  completed' : option bool;
  completedAt' : option (option jsstring);
  isPinned' : option bool;
  order' : option Z;
  createdAt' : option jsstring;
}.
(** [{ ...t, ...updates }] *)
Definition spread (x : t) (updates : patch) : t :=
  {| id := default (id x) (id' updates);
     categoryId := default (categoryId x) (categoryId' updates);
     title := default (title x) (title' updates);
     assignee := default (assignee x) (assignee' updates);
     resourceUrl := default (resourceUrl x) (resourceUrl' updates);
     notes := default (notes x) (notes' updates);
     dueDate := default (dueDate x) (dueDate' updates);
     dueTime := default (dueTime x) (dueTime' updates);
     tags := default (tags x) (tags' updates);
     completed := default (completed x) (completed' updates);
     completedAt := default (completedAt x) (completedAt' updates);
     isPinned := default (isPinned x) (isPinned' updates);
     order := default (order x) (order' updates);
     createdAt := default (createdAt x) (createdAt' updates) |}.
(** [t.completed = c; t.completedAt = at] *)
Definition setCompleted (x : t) (c : bool) (at_ : option jsstring) : t :=
  {| id := id x; categoryId := categoryId x; title := title x;
     assignee := assignee x; resourceUrl := resourceUrl x; notes := notes x;
     dueDate := dueDate x; dueTime := dueTime x; tags := tags x;
     completed := c; completedAt := at_; isPinned := isPinned x;
     order := order x; createdAt := createdAt x |}.
End Task.

(** Modelled from the spec: [QuickLink] of [lib/types.ts], from the object
    literal of [addQuickLink]; [patch] is [Partial<QuickLink>]. *)
Module QuickLink.
Record t := mk {
  id : jsstring;
  name : jsstring;
  url : jsstring;
  order : Z;
}.
Record patch := mkPatch {
  id' : option jsstring;
  name' : option jsstring;
  url' : option jsstring;
  order' : option Z;
}.
Definition spread (l : t) (updates : patch) : t :=
  {| id := default (id l) (id' updates);
     name := default (name l) (name' updates);
     url := default (url l) (url' updates);
     order := default (order l) (order' updates) |}.
End QuickLink.

(** Modelled from the spec: [Note] of [lib/types.ts], from the object literal
    of [addNote]; [patch] is [Partial<Note>]. *)
Module Note.
Record t := mk {
  id : jsstring;
  title : jsstring;
  content : jsstring;
  color : jsstring;
  isPinned : bool;
  isArchived : bool;
  order : Z;
  createdAt : jsstring;
}.
Record patch := mkPatch {
  id' : option jsstring;
  title' : option jsstring;
  content' : option jsstring;
  color' : option jsstring;
  isPinned' : option bool;
  isArchived' : option bool;
  order' : option Z;
  createdAt' : option jsstring;
}.
Definition spread (n : t) (updates : patch) : t :=
  {| id := default (id n) (id' updates);
     title := default (title n) (title' updates);
     content := default (content n) (content' updates);
     color := default (color n) (color' updates);
     isPinned := default (isPinned n) (isPinned' updates);
     isArchived := default (isArchived n) (isArchived' updates);
     order := default (order n) (order' updates);
     createdAt := default (createdAt n) (createdAt' updates) |}.
End Note.

Module Storage.

Record AppData := {
  categories : list Category.t;
  tasks : list Task.t;
}.

(** The object store as the wrappers read it: the values under
    ['local-tasks-data'], ['local-tasks-quick-links'] and
    ['local-tasks-notes'], each absent or of the type that [idbGet<T>] is
    called at.  Requests are taken to complete: a rejected request rejects
    the wrapper's promise before it returns anything.  [window] tells
    whether [typeof window !== 'undefined']. *)
Record Db := {
  window : bool;
  appData : option AppData;
  quickLinks : option (list QuickLink.t);
  notes : option (list Note.t);
}.

(** Asynchronous functions over the store. *)
Definition io (A : Type) : Type := Db -> A * Db.

#[global] Instance io_ret : MRet io := fun A a db => (a, db).
#[global] Instance io_bind : MBind io :=
  fun A B k c db => let '(a, db') := c db in k a db'.

(** [arr.sort(cmp)]: a stable sort. *)
Fixpoint insertBy {A} (cmp : A -> A -> Z) (x : A) (l : list A) : list A :=
  match l with
  | [] => [x]
  | y :: l' => if (cmp x y <=? 0)%Z then x :: l else y :: insertBy cmp x l'
  end.

Fixpoint sortBy {A} (cmp : A -> A -> Z) (l : list A) : list A :=
  match l with
  | [] => []
  | x :: l' => insertBy cmp x (sortBy cmp l')
  end.

(** [arr.findIndex(p)]; [None] stands for [-1]. *)
Definition findIndex {A} (p : A -> bool) (l : list A) : option nat :=
  fst <$> list_find (fun x => p x = true) l.

Definition eqb_id (a b : jsstring) : bool := bool_decide (a = b).

Section Wrappers.

(** The environment: the answer of [generateId()], of
    [new Date().toISOString()], and [CATEGORY_COLORS[0].value]. *)
Variable generateId : jsstring.
Variable now : jsstring.
Variable defaultColor : jsstring.

(** [saveAppData(data)] *)
Definition saveAppData (data : AppData) : io unit :=
  fun db =>
    if window db then
      ((), {| window := window db; appData := Some data;
              quickLinks := quickLinks db; notes := notes db |})
    else ((), db).

(** [getAppData()]: a store without data is initialised with the default
    category. *)
Definition getAppData : io AppData :=
  fun db =>
    if window db then
      match appData db with
      | Some data => (data, db)
      | None =>
          let defaultData :=
            {| categories :=
                 [Category.mk generateId (js "내할일") defaultColor 0 now];
               tasks := [] |} in
          (_ ← saveAppData defaultData; mret defaultData) db
      end
    else ({| categories := []; tasks := [] |}, db).

Definition updateCategory (id : jsstring) (updates : Category.patch)
  : io (option Category.t) :=
  data ← getAppData;
  match findIndex (fun c => eqb_id (Category.id c) id) (categories data) with
  | None => mret None
  | Some index =>
      let categories' :=
        alter (fun c => Category.spread c updates) index (categories data) in
      let data' := {| categories := categories'; tasks := tasks data |} in
      _ ← saveAppData data';
      mret (categories' !! index)
  end.

Definition deleteCategory (id : jsstring) : io bool :=
  data ← getAppData;
  match findIndex (fun c => eqb_id (Category.id c) id) (categories data) with
  | None => mret false
  | Some index =>
      let tasks' :=
        filter (fun t => Task.categoryId t <> id) (tasks data) in
      let categories' := delete index (categories data) in
      _ ← saveAppData {| categories := categories'; tasks := tasks' |};
      mret true
  end.

Definition updateTask (id : jsstring) (updates : Task.patch)
  : io (option Task.t) :=
  data ← getAppData;
  match findIndex (fun t => eqb_id (Task.id t) id) (tasks data) with
  | None => mret None
  | Some index =>
      let tasks' := alter (fun t => Task.spread t updates) index (tasks data) in
      _ ← saveAppData {| categories := categories data; tasks := tasks' |};
      mret (tasks' !! index)
  end.

Definition deleteTask (id : jsstring) : io bool :=
  data ← getAppData;
  match findIndex (fun t => eqb_id (Task.id t) id) (tasks data) with
  | None => mret false
  | Some index =>
      _ ← saveAppData {| categories := categories data;
                         tasks := delete index (tasks data) |};
      mret true
  end.

Definition toggleTaskComplete (id : jsstring) : io (option Task.t) :=
  data ← getAppData;
  match findIndex (fun t => eqb_id (Task.id t) id) (tasks data) with
  | None => mret None
  | Some index =>
      let tasks' :=
        alter (fun t =>
                 let newCompleted := negb (Task.completed t) in
                 Task.setCompleted t newCompleted
                   (if newCompleted then Some now else None))
              index (tasks data) in
      _ ← saveAppData {| categories := categories data; tasks := tasks' |};
      mret (tasks' !! index)
  end.

(** [getQuickLinks()] *)
Definition getQuickLinks : io (list QuickLink.t) :=
  fun db =>
    if window db then
      match quickLinks db with
      | Some data =>
          (sortBy (fun a b => QuickLink.order a - QuickLink.order b)%Z data, db)
      | None => ([], db)
      end
    else ([], db).

Definition saveQuickLinks (links : list QuickLink.t) : io unit :=
  fun db =>
    if window db then
      ((), {| window := window db; appData := appData db;
              quickLinks := Some links; notes := notes db |})
    else ((), db).

Definition updateQuickLink (id : jsstring) (updates : QuickLink.patch)
  : io (option QuickLink.t) :=
  links ← getQuickLinks;
  match findIndex (fun l => eqb_id (QuickLink.id l) id) links with
  | None => mret None
  | Some index =>
      let links' := alter (fun l => QuickLink.spread l updates) index links in
      _ ← saveQuickLinks links';
      mret (links' !! index)
  end.

Definition deleteQuickLink (id : jsstring) : io bool :=
  links ← getQuickLinks;
  match findIndex (fun l => eqb_id (QuickLink.id l) id) links with
  | None => mret false
  | Some index =>
      _ ← saveQuickLinks (delete index links);
      mret true
  end.

(** The comparator of [getNotes]: pinned notes first, then by order. *)
Definition compareNotes (a b : Note.t) : Z :=
  if bool_decide (Note.isPinned a <> Note.isPinned b)
  then (if Note.isPinned a then -1 else 1)%Z
  else (Note.order a - Note.order b)%Z.

Definition getNotes : io (list Note.t) :=
  fun db =>
    if window db then
      match notes db with
      | Some data => (sortBy compareNotes data, db)
      | None => ([], db)
      end
    else ([], db).

Definition saveNotes (ns : list Note.t) : io unit :=
  fun db =>
    if window db then
      ((), {| window := window db; appData := appData db;
              quickLinks := quickLinks db; notes := Some ns |})
    else ((), db).

Definition updateNote (id : jsstring) (updates : Note.patch)
  : io (option Note.t) :=
  ns ← getNotes;
  match findIndex (fun n => eqb_id (Note.id n) id) ns with
  | None => mret None
  | Some index =>
      let ns' := alter (fun n => Note.spread n updates) index ns in
      _ ← saveNotes ns';
      mret (ns' !! index)
  end.

Definition deleteNote (id : jsstring) : io bool :=
  ns ← getNotes;
  match findIndex (fun n => eqb_id (Note.id n) id) ns with
  | None => mret false
  | Some index =>
      _ ← saveNotes (delete index ns);
      mret true
  end.

End Wrappers.

End Storage.

(** ** Notions used to state the properties *)

Module TripSpec.
Import TripParser.

(** [sub] occurs in [s]. *)
Definition occursIn (sub s : jsstring) : Prop :=
  exists pre post, s = pre ++ sub ++ post.

(** A string of one or two decimal digits, and its value. *)
Definition digits12 (a : jsstring) : Prop :=
  Forall (fun c => isDigit c = true) a /\ (1 <= length a <= 2)%nat.

(** [s], once trimmed, is a short date: one or two digits, ['-'] or ['.'],
    one or two digits; [m] and [d] are the numbers that the two groups of
    digits denote. *)
Definition ShortForm (s : jsstring) (m d : Z) : Prop :=
  exists a sep b,
    trim s = a ++ [sep] ++ b /\ digits12 a /\ digits12 b /\
    (sep = HYPHEN \/ sep = DOT) /\
    m = digitsValue a /\ d = digitsValue b.

(** A number below 100 on two digits. *)
Definition twoDigits (n : Z) : jsstring :=
  [Z.to_N (48 + n / 10); Z.to_N (48 + n mod 10)].

(** The year in plain decimal, then the month and the day on two digits. *)
Definition dashed (y m d : Z) : jsstring :=
  intToString y ++ [HYPHEN] ++ twoDigits m ++ [HYPHEN] ++ twoDigits d.

(** The shape [YYYY-MM-DD]: four digits, two digits, two digits. *)
Definition isoShape (s : jsstring) : bool :=
  match s with
  | [y1; y2; y3; y4; h1; m1; m2; h2; d1; d2] =>
      isDigit y1 && isDigit y2 && isDigit y3 && isDigit y4
      && (h1 =? HYPHEN) && isDigit m1 && isDigit m2
      && (h2 =? HYPHEN) && isDigit d1 && isDigit d2
  | _ => false
  end.

(** The roster members whose trimmed name is [name], in roster order. *)
Definition matching (roster : list TeamMember.t) (name : jsstring)
  : list TeamMember.t :=
  filter (fun m => trim (TeamMember.name m) = name) roster.

(** Line [i] opens a block: it is a date line, two more lines follow it and
    the next line passes for a name. *)
Definition startsBlock (lines : list jsstring) (i : nat) : bool :=
  match lines !! i, lines !! (i + 1)%nat with
  | Some l, Some n =>
      bool_decide (is_Some (dateMatch l))
      && bool_decide (i + 2 < length lines)%nat
      && isName (trim n)
  | _, _ => false
  end.

(** The lines that the scan looks at when it starts at line [i]: a block
    takes three lines, any other line one. *)
Inductive visits (lines : list jsstring) : nat -> nat -> Prop :=
| visits_here i : visits lines i i
| visits_skip i j :
    startsBlock lines i = false -> visits lines (S i) j -> visits lines i j
| visits_block i j :
    startsBlock lines i = true -> visits lines (i + 3) j -> visits lines i j.

(** The [knoxId] that the roster map gives to a name: the one of the only
    member of that name, if there is exactly one. *)
Definition knoxOf (memberMap : gmap jsstring (list TeamMember.t))
    (name : jsstring) : option jsstring :=
  match memberMap !! name with
  | Some [c] => TeamMember.knoxId c
  | _ => None
  end.

(** The names without an entry in the roster map are collected. *)
Definition noteUnknown (memberMap : gmap jsstring (list TeamMember.t))
    (name : jsstring) (unknown : list jsstring) : list jsstring :=
  match memberMap !! name with
  | Some _ => unknown
  | None => setAdd name unknown
  end.

(** The trip that the block opened by line [i] yields when it is the
    [nth] one. *)
Definition blockTrip (randomUUID : nat -> jsstring) (now : jsstring)
    (memberMap : gmap jsstring (list TeamMember.t)) (lines : list jsstring)
    (currentYear : Z) (nth i : nat) : option BusinessTrip.t :=
  match lines !! i, lines !! (i + 1)%nat, lines !! (i + 2)%nat with
  | Some l, Some n, Some p =>
      match dateMatch l with
      | Some (g1, g2) =>
          Some (makeTrip randomUUID now currentYear nth g1 g2 (trim n) (trim p)
                  (knoxOf memberMap (trim n)))
      | None => None
      end
  | _, _, _ => None
  end.

(** The state of the scan after the block opened by line [i]. *)
Definition pushBlock (randomUUID : nat -> jsstring) (now : jsstring)
    (memberMap : gmap jsstring (list TeamMember.t)) (lines : list jsstring)
    (currentYear : Z) (i : nat) (st : ScanState) : ScanState :=
  match blockTrip randomUUID now memberMap lines currentYear
          (length (scanTrips st)) i with
  | Some t =>
      {| scanTrips := scanTrips st ++ [t];
         scanUnknown := noteUnknown memberMap (BusinessTrip.name t) (scanUnknown st) |}
  | None => st
  end.

(** The state of the scan: every trip comes from a block and carries the
    [knoxId] that the roster map gives to its name; the unknown names are
    the names of trips without an entry in the map, each once. *)
Definition scanInvariant (randomUUID : nat -> jsstring) (now : jsstring)
    (memberMap : gmap jsstring (list TeamMember.t)) (lines : list jsstring)
    (currentYear : Z) (st : ScanState) : Prop :=
  (forall t, t ∈ scanTrips st ->
     exists k i, startsBlock lines i = true /\
       blockTrip randomUUID now memberMap lines currentYear k i = Some t) /\
  (forall t, t ∈ scanTrips st ->
     memberMap !! BusinessTrip.name t = None ->
     BusinessTrip.name t ∈ scanUnknown st) /\
  NoDup (scanUnknown st) /\
  (forall x, x ∈ scanUnknown st -> memberMap !! x = None).

(** The entries of [ambiguousTrips] that a list of trips gives rise to. *)
Definition ambiguousOf (memberMap : gmap jsstring (list TeamMember.t))
    (ts : list BusinessTrip.t) : list Ambiguous.t :=
  flat_map
    (fun t =>
       match BusinessTrip.knoxId t, memberMap !! BusinessTrip.name t with
       | None, Some cs =>
           if bool_decide (1 < length cs)%nat then [Ambiguous.mk t cs] else []
       | _, _ => []
       end) ts.

(** The identity that the deduplication compares. *)
Definition triple (t : BusinessTrip.t) : jsstring * jsstring * jsstring :=
  (BusinessTrip.name t, BusinessTrip.startDate t, BusinessTrip.endDate t).

(** The dates of a trip hold no ['|']. *)
Definition barFree (t : BusinessTrip.t) : Prop :=
  (BAR ∉ BusinessTrip.startDate t) /\ (BAR ∉ BusinessTrip.endDate t).

(** The elements of [ts] whose triple occurs neither in [earlier] nor before
    them in [ts]. *)
Fixpoint firstOccurrences (earlier : list (jsstring * jsstring * jsstring))
    (ts : list BusinessTrip.t) : list BusinessTrip.t :=
  match ts with
  | [] => []
  | t :: ts' =>
      if bool_decide (triple t ∈ earlier) then firstOccurrences earlier ts'
      else t :: firstOccurrences (triple t :: earlier) ts'
  end.

End TripSpec.

(** ** Storage: the remaining wrappers over the application data *)

Module StorageOps.

Import Storage.

(** [Math.max(...orders, -1)].  The orders are the integers that the
    wrappers write (an index or the result of [plusOne]); [Math.max] returns
    one of its arguments, so no rounding takes place. *)
Definition maxOrder (orders : list Z) : Z := foldr Z.max (-1)%Z orders.

(** [maxOrder + 1] on a number that holds an integer.  The sum of two
    doubles is the double nearest to the exact sum, a tie going to the even
    significand: the sum is exact below [2^53]; from there to [2^54] the
    doubles are the even integers, and [x + 1] lies half way between [x] and
    [x + 2]; from [2^54] on the doubles are at least 4 apart and the sum is
    [x] again. *)
Definition plusOne (x : Z) : Z :=
  if (x <? 2 ^ 53)%Z then (x + 1)%Z
  else if (x <? 2 ^ 54)%Z then (if Z.even (x / 2) then x else (x + 2)%Z)
  else x.

(** [x.order = index] on the entries that are reordered *)
Definition setTaskOrder (x : Task.t) (o : Z) : Task.t :=
  {| Task.id := Task.id x; Task.categoryId := Task.categoryId x;
     Task.title := Task.title x; Task.assignee := Task.assignee x;
     Task.resourceUrl := Task.resourceUrl x; Task.notes := Task.notes x;
     Task.dueDate := Task.dueDate x; Task.dueTime := Task.dueTime x;
     Task.tags := Task.tags x; Task.completed := Task.completed x;
     Task.completedAt := Task.completedAt x; Task.isPinned := Task.isPinned x;
     Task.order := o; Task.createdAt := Task.createdAt x |}.

Definition setLinkOrder (l : QuickLink.t) (o : Z) : QuickLink.t :=
  {| QuickLink.id := QuickLink.id l; QuickLink.name := QuickLink.name l;
     QuickLink.url := QuickLink.url l; QuickLink.order := o |}.

(** The body of the loops of [reorderTasks] and [reorderQuickLinks]:
    [const i = arr.findIndex(x => x.id === id);
     if (i !== -1) arr[i].order = index]. *)
Definition reorderStep {A} (getId : A -> jsstring) (setOrder : A -> Z -> A)
    (arr : list A) (index : nat) (id : jsstring) : list A :=
  match findIndex (fun x => eqb_id (getId x) id) arr with
  | Some i => alter (fun x => setOrder x (Z.of_nat index)) i arr
  | None => arr
  end.

(** [ids.forEach((id, index) => ...)], with the index of the first entry
    of [ids]. *)
Fixpoint reorderFrom {A} (getId : A -> jsstring) (setOrder : A -> Z -> A)
    (index : nat) (ids : list jsstring) (arr : list A) : list A :=
  match ids with
  | [] => arr
  | id :: ids' =>
      reorderFrom getId setOrder (S index) ids'
        (reorderStep getId setOrder arr index id)
  end.

Section Wrappers.

(** The environment of [Storage], and for the functions that make an entry:
    [newId], the answer of the call of [generateId()] that names it, and the
    table [CATEGORY_COLORS], which is not empty, as its length and the value
    at each index. *)
Variable generateId : jsstring.
Variable now : jsstring.
Variable defaultColor : jsstring.
Variable newId : jsstring.
Variable colorCount : nat.
Variable categoryColor : nat -> jsstring.

Local Abbreviation getAppData := (getAppData generateId now defaultColor).

(** [getCategories()] *)
Definition getCategories : io (list Category.t) :=
  data ← getAppData;
  mret (sortBy (fun a b => Category.order a - Category.order b)%Z
          (categories data)).

(** [addCategory(name)] *)
Definition addCategory (name : jsstring) : io Category.t :=
  data ← getAppData;
  let maxOrder := maxOrder (Category.order <$> categories data) in
  let colorIndex := (length (categories data) mod colorCount)%nat in
  let newCategory :=
    Category.mk newId name (categoryColor colorIndex) (plusOne maxOrder) now in
  _ ← saveAppData {| categories := categories data ++ [newCategory];
                     tasks := tasks data |};
  mret newCategory.

(** [getTasks(categoryId?)]: [if (categoryId)] is false for an absent and
    for an empty identifier. *)
Definition getTasks (categoryId : option jsstring) : io (list Task.t) :=
  data ← getAppData;
  let tasks :=
    match categoryId with
    | Some (c :: s) =>
        filter (fun t => Task.categoryId t = c :: s) (tasks data)
    | _ => tasks data
    end in
  mret (sortBy (fun a b => Task.order a - Task.order b)%Z tasks).

(** [restoreTask(task)] *)
Definition restoreTask (task : Task.t) : io unit :=
  data ← getAppData;
  saveAppData {| categories := categories data;
                 tasks := tasks data ++ [task] |}.

(** [reorderTasks(categoryId, taskIds)] *)
Definition reorderTasks (categoryId : jsstring) (taskIds : list jsstring)
  : io unit :=
  data ← getAppData;
  saveAppData {| categories := categories data;
                 tasks := reorderFrom Task.id setTaskOrder 0 taskIds
                            (tasks data) |}.

(** [reorderQuickLinks(linkIds)] *)
Definition reorderQuickLinks (linkIds : list jsstring) : io unit :=
  links ← getQuickLinks;
  saveQuickLinks (reorderFrom QuickLink.id setLinkOrder 0 linkIds links).

(** [addNote(title, content, color)] *)
Definition addNote (title content color : jsstring) : io Note.t :=
  ns ← getNotes;
  let maxOrder := maxOrder (Note.order <$> ns) in
  let newNote :=
    Note.mk newId title content color false false (plusOne maxOrder) now in
  _ ← saveNotes (ns ++ [newNote]);
  mret newNote.

End Wrappers.

(** The position of the last occurrence of [id] in a list of identifiers. *)
Fixpoint lastIndex (id : jsstring) (ids : list jsstring) : option nat :=
  match ids with
  | [] => None
  | y :: ids' =>
      match lastIndex id ids' with
      | Some j => Some (S j)
      | None => if eqb_id y id then Some 0%nat else None
      end
  end.

(** What a reordering does to one entry: an entry whose identifier is
    listed takes the position of the last occurrence, counted from
    [index]. *)
Definition reordered {A} (getId : A -> jsstring) (setOrder : A -> Z -> A)
    (index : nat) (ids : list jsstring) (x : A) : A :=
  match lastIndex (getId x) ids with
  | Some j => setOrder x (Z.of_nat (index + j))
  | None => x
  end.

End StorageOps.

(** ** Storage: the store of business trips *)

Module TripStorage.

(** The value under ['business-trips'], absent or a list of trips; requests
    are taken to complete. *)
Record Db := {
  window : bool;
  businessTrips : option (list BusinessTrip.t);
}.

Definition io (A : Type) : Type := Db -> A * Db.

(** [{ ...trip, id, createdAt: now, updatedAt: now }] *)
Definition stamp (trip : BusinessTrip.t) (id now : jsstring) : BusinessTrip.t :=
  {| BusinessTrip.id := id;
     BusinessTrip.knoxId := BusinessTrip.knoxId trip;
     BusinessTrip.name := BusinessTrip.name trip;
     BusinessTrip.startDate := BusinessTrip.startDate trip;
     BusinessTrip.endDate := BusinessTrip.endDate trip;
     BusinessTrip.location := BusinessTrip.location trip;
     BusinessTrip.purpose := BusinessTrip.purpose trip;
     BusinessTrip.status := BusinessTrip.status trip;
     BusinessTrip.category := BusinessTrip.category trip;
     BusinessTrip.createdAt := now;
     BusinessTrip.updatedAt := now |}.

(** [getBusinessTrips()] *)
Definition getBusinessTrips : io (list BusinessTrip.t) :=
  fun db =>
    if window db then (default [] (businessTrips db), db) else ([], db).

(** [saveBusinessTrips(trips)] *)
Definition saveBusinessTrips (trips : list BusinessTrip.t) : io unit :=
  fun db =>
    if window db then ((), {| window := window db; businessTrips := Some trips |})
    else ((), db).

(** [addBusinessTrip(trip)]; [generateId] and [now] are the answers of
    [generateId()] and [new Date().toISOString()]. *)
Definition addBusinessTrip (generateId now : jsstring) (trip : BusinessTrip.t)
  : io BusinessTrip.t :=
  fun db =>
    let '(trips, db1) := getBusinessTrips db in
    let newTrip := stamp trip generateId now in
    let '(_, db2) := saveBusinessTrips (trips ++ [newTrip]) db1 in
    (newTrip, db2).

(** [deleteBusinessTrip(id)] *)
Definition deleteBusinessTrip (id : jsstring) : io unit :=
  fun db =>
    let '(trips, db1) := getBusinessTrips db in
    saveBusinessTrips (filter (fun t => BusinessTrip.id t <> id) trips) db1.

End TripStorage.

(** ** Storage: items of localStorage and the theme *)

Module StorageItems.

Import Migration.

Definition THEME_KEY : jsstring := js "local-tasks-theme".

Section Browser.

Variable JsValue : Type.
Variable ofString : jsstring -> JsValue.

(** Whether the object store completes the requests [put(value, key)] and
    [delete(key)]. *)
Variable idbAccepts : jsstring -> JsValue -> bool.
Variable idbDeletes : jsstring -> bool.

Local Abbreviation Browser := (Browser JsValue).

(** [idbDelete(key)] of lib/indexeddb-storage *)
Definition idbDelete (key : jsstring) (b : Browser) : completion unit * Browser :=
  if window b then
    if idbDeletes key then (Normal (), withIdb JsValue b (delete key (idb b)))
    else (Throw RequestError, b)
  else (Normal (), b).

(** [removeStorageItem(key)]: the request to IndexedDB is not awaited and
    its rejection is swallowed. *)
Definition removeStorageItem (key : jsstring) (b : Browser) : Browser :=
  if window b then
    let b1 := withLocalStorage JsValue b (delete key (localStorage b)) in
    if shouldSyncKey key then snd (idbDelete key b1) else b1
  else b.

(** [getTheme()]: [||] replaces an absent and an empty item by ['light']. *)
Definition getTheme (b : Browser) : jsstring :=
  if window b then
    match getStorageItem JsValue THEME_KEY b with
    | Some (c :: s) => c :: s
    | _ => js "light"
    end
  else js "light".

(** [setTheme(theme)] *)
Definition setTheme (theme : jsstring) (b : Browser) : Browser :=
  if window b then setStorageItem JsValue ofString idbAccepts THEME_KEY theme b
  else b.

End Browser.

End StorageItems.

(** ** The data provider: the React state beside the store *)

Module Provider.

Import Storage StorageOps.

(** The lists that the provider holds in React state and hands to the
    views. *)
Record Mirror := {
  categories : list Category.t;
  tasks : list Task.t;
}.

Definition State : Type := Mirror * Db.

Section Actions.

Variable generateId : jsstring.
Variable now : jsstring.
Variable defaultColor : jsstring.
Variable newId : jsstring.
Variable colorCount : nat.
Variable categoryColor : nat -> jsstring.

(** [addCategory]: [setCategories(prev => [...prev, newCat])] *)
Definition addCategory (name : jsstring) (s : State) : Category.t * State :=
  let '(newCat, db) :=
    StorageOps.addCategory generateId now defaultColor newId colorCount
      categoryColor name (snd s) in
  (newCat, ({| categories := categories (fst s) ++ [newCat];
               tasks := tasks (fst s) |}, db)).

(** [updateCategory]:
    [if (updated) setCategories(prev => prev.map(c => c.id === id ? updated : c))] *)
Definition updateCategory (id : jsstring) (updates : Category.patch) (s : State)
  : option Category.t * State :=
  let '(updated, db) :=
    Storage.updateCategory generateId now defaultColor id updates (snd s) in
  match updated with
  | Some u =>
      (updated,
       ({| categories :=
             (fun c => if eqb_id (Category.id c) id then u else c)
               <$> categories (fst s);
           tasks := tasks (fst s) |}, db))
  | None => (updated, (fst s, db))
  end.

(** [deleteCategory]: on success both lists are filtered. *)
Definition deleteCategory (id : jsstring) (s : State) : bool * State :=
  let '(success, db) :=
    Storage.deleteCategory generateId now defaultColor id (snd s) in
  if success then
    (success,
     ({| categories :=
           filter (fun c => Category.id c <> id) (categories (fst s));
         tasks := filter (fun t => Task.categoryId t <> id) (tasks (fst s)) |},
      db))
  else (success, (fst s, db)).

(** [updateTask]:
    [if (updated) setTasks(prev => prev.map(t => t.id === id ? updated : t))] *)
Definition updateTask (id : jsstring) (updates : Task.patch) (s : State)
  : option Task.t * State :=
  let '(updated, db) :=
    Storage.updateTask generateId now defaultColor id updates (snd s) in
  match updated with
  | Some u =>
      (updated,
       ({| categories := categories (fst s);
           tasks := (fun t => if eqb_id (Task.id t) id then u else t)
                      <$> tasks (fst s) |}, db))
  | None => (updated, (fst s, db))
  end.

(** [deleteTask]: [if (success) setTasks(prev => prev.filter(t => t.id !== id))] *)
Definition deleteTask (id : jsstring) (s : State) : bool * State :=
  let '(success, db) :=
    Storage.deleteTask generateId now defaultColor id (snd s) in
  if success then
    (success,
     ({| categories := categories (fst s);
         tasks := filter (fun t => Task.id t <> id) (tasks (fst s)) |}, db))
  else (success, (fst s, db)).

(** [toggleTaskComplete] *)
Definition toggleTaskComplete (id : jsstring) (s : State)
  : option Task.t * State :=
  let '(updated, db) :=
    Storage.toggleTaskComplete generateId now defaultColor id (snd s) in
  match updated with
  | Some u =>
      (updated,
       ({| categories := categories (fst s);
           tasks := (fun t => if eqb_id (Task.id t) id then u else t)
                      <$> tasks (fst s) |}, db))
  | None => (updated, (fst s, db))
  end.

(** [reorderTasks]: the same loop runs on a copy of the state, then on the
    store. *)
Definition reorderTasks (categoryId : jsstring) (taskIds : list jsstring)
    (s : State) : State :=
  let next := reorderFrom Task.id setTaskOrder 0 taskIds (tasks (fst s)) in
  let '(_, db) :=
    StorageOps.reorderTasks generateId now defaultColor categoryId taskIds
      (snd s) in
  ({| categories := categories (fst s); tasks := next |}, db).

(** The calls that a view makes on the provider, one after the other. *)
Inductive Action :=
| AddCategory (name : jsstring)
| UpdateCategory (id : jsstring) (updates : Category.patch)
| DeleteCategory (id : jsstring)
| UpdateTask (id : jsstring) (updates : Task.patch)
| DeleteTask (id : jsstring)
| ToggleTaskComplete (id : jsstring)
| ReorderTasks (categoryId : jsstring) (taskIds : list jsstring).

Definition step (a : Action) (s : State) : State :=
  match a with
  | AddCategory name => snd (addCategory name s)
  | UpdateCategory id updates => snd (updateCategory id updates s)
  | DeleteCategory id => snd (deleteCategory id s)
  | UpdateTask id updates => snd (updateTask id updates s)
  | DeleteTask id => snd (deleteTask id s)
  | ToggleTaskComplete id => snd (toggleTaskComplete id s)
  | ReorderTasks categoryId taskIds => reorderTasks categoryId taskIds s
  end.

(** The actions that keep identifiers unique: an added category gets a new
    identifier, and an update does not set [id]. *)
Definition keepsIds (a : Action) (s : State) : Prop :=
  match a with
  | AddCategory _ =>
      forall data, appData (snd s) = Some data ->
        newId ∉ Category.id <$> Storage.categories data
  | UpdateCategory _ updates => Category.id' updates = None
  | UpdateTask _ updates => Task.id' updates = None
  | _ => True
  end.

End Actions.

(** The state shows the stored data: the same categories and the same tasks,
    in some order, each identifier once. *)
Definition coherent (s : State) : Prop :=
  exists data,
    window (snd s) = true /\
    appData (snd s) = Some data /\
    categories (fst s) ≡ₚ Storage.categories data /\
    tasks (fst s) ≡ₚ Storage.tasks data /\
    NoDup (Category.id <$> Storage.categories data) /\
    NoDup (Task.id <$> Storage.tasks data).

End Provider.

(** ** The view of favourites: the tasks shown for a range of dates *)

Module FavoritesView.

(** [a < b] on strings: the order of the code units. *)
Fixpoint ltString (a b : jsstring) : bool :=
  match a, b with
  | _, [] => false
  | [], _ :: _ => true
  | x :: a', y :: b' =>
      if x <? y then true else if y <? x then false else ltString a' b'
  end.

Definition geString (a b : jsstring) : bool := negb (ltString a b).
Definition leString (a b : jsstring) : bool := negb (ltString b a).

Section View.

Variable categories : list Category.t.
Variable startDate endDate : jsstring.
Variable favoriteTasks : list Task.t.

(** [categories.find(c => c.name === '팀 일정')] *)
Definition scheduleCategory : option Category.t :=
  snd <$> list_find (fun c => Category.name c = js "팀 일정") categories.

(** [filterByDate(task)] *)
Definition filterByDate (task : Task.t) : bool :=
  match Task.dueDate task with
  | Some (c :: s) => geString (c :: s) startDate && leString (c :: s) endDate
  | _ => false
  end.

(** [t.categoryId === scheduleCategory?.id] *)
Definition inSchedule (t : Task.t) : bool :=
  match scheduleCategory with
  | Some c => bool_decide (Task.categoryId t = Category.id c)
  | None => false
  end.

Definition scheduleTasks : list Task.t :=
  filter (fun t => filterByDate t = true)
    (filter (fun t => inSchedule t = true) favoriteTasks).

Definition regularTasks : list Task.t :=
  filter (fun t => filterByDate t = true)
    (filter (fun t => inSchedule t <> true) favoriteTasks).

End View.

End FavoritesView.

(** ** Notions for the statements about the remaining code *)

Module MoreSpec.

(** A trip without its [knoxId]. *)
Definition stripKnox (t : BusinessTrip.t) : BusinessTrip.t :=
  {| BusinessTrip.id := BusinessTrip.id t;
     BusinessTrip.knoxId := None;
     BusinessTrip.name := BusinessTrip.name t;
     BusinessTrip.startDate := BusinessTrip.startDate t;
     BusinessTrip.endDate := BusinessTrip.endDate t;
     BusinessTrip.location := BusinessTrip.location t;
     BusinessTrip.purpose := BusinessTrip.purpose t;
     BusinessTrip.status := BusinessTrip.status t;
     BusinessTrip.category := BusinessTrip.category t;
     BusinessTrip.createdAt := BusinessTrip.createdAt t;
     BusinessTrip.updatedAt := BusinessTrip.updatedAt t |}.

(** The line holds a full date [YYYY-MM-DD]. *)
Definition hasFullDate (l : jsstring) : Prop :=
  exists pre d post, l = pre ++ d ++ post /\ TripSpec.isoShape d = true.

(** The identifiers of the scanned trips are the first answers of
    [randomUUID], in order. *)
Definition idsInOrder (randomUUID : nat -> jsstring)
    (st : TripParser.ScanState) : Prop :=
  BusinessTrip.id <$> TripParser.scanTrips st =
  randomUUID <$> seq 0 (length (TripParser.scanTrips st)).

(** Every unknown name is the name of a scanned trip. *)
Definition unknownFromTrips (st : TripParser.ScanState) : Prop :=
  forall x, x ∈ TripParser.scanUnknown st ->
    exists t, t ∈ TripParser.scanTrips st /\ BusinessTrip.name t = x.

(** [Object.keys(resolutions).length], the count that the confirm button
    shows beside [ambiguousTrips.length]. *)
Definition resolvedCount (resolutions : ResolverDialog.Resolutions) : nat :=
  size resolutions.

(** The identifiers of the trips that the dialog lists. *)
Definition tripIds (ambiguousTrips : list Ambiguous.t) : list jsstring :=
  (fun t => BusinessTrip.id (Ambiguous.trip t)) <$> ambiguousTrips.

(** A list in which every entry is related to all later ones. *)
Definition sortedBy {A} (R : A -> A -> Prop) (l : list A) : Prop :=
  forall i j a b, (i < j)%nat -> l !! i = Some a -> l !! j = Some b -> R a b.

(** [x] is the first entry of [l] with its identifier, at index [i]. *)
Definition firstAt {A} (getId : A -> jsstring) (l : list A) (i : nat) (x : A)
  : Prop :=
  l !! i = Some x /\
  forall j y, (j < i)%nat -> l !! j = Some y -> getId y <> getId x.

(** The task after [toggleTaskComplete] at the time [now]: the flag is
    flipped, and [completedAt] is the time when it is set and [null] when it
    is cleared. *)
Definition toggled (now : jsstring) (t : Task.t) : Task.t :=
  Task.setCompleted t (negb (Task.completed t))
    (if negb (Task.completed t) then Some now else None).

(** A sequence of clicks on candidate buttons: each pair is a trip's
    identifier and the chosen [knoxId]. *)
Definition selectAll (choices : list (jsstring * option jsstring))
    (r : ResolverDialog.Resolutions) : ResolverDialog.Resolutions :=
  foldl (fun r c => ResolverDialog.handleSelect (fst c) (snd c) r) r choices.

End MoreSpec.


Example js_vacation : js "연차" = [0xC5F0; 0xCC28].
Proof. reflexivity. Qed.

Example js_ascii : js "12-29 ~ 02-12" =
  [49; 50; 45; 50; 57; 32; 126; 32; 48; 50; 45; 49; 50].
Proof. reflexivity. Qed.

Example split_lines :
  split LF (js "a" ++ [LF] ++ js "b" ++ [LF; LF] ++ js "c") = [js "a"; js "b"; []; js "c"].
Proof. reflexivity. Qed.

Example trim_ex : trim (js "  a b 	") = js "a b".
Proof. reflexivity. Qed.

Example parseInt_ex : parseInt10 (js "08") = Num 8 /\ parseInt10 (js "x") = NaN.
Proof. split; reflexivity. Qed.

Example intToString_ex :
  intToString 2026 = js "2026" /\ intToString (-1) = js "-1" /\ intToString 0 = js "0".
Proof. repeat split; reflexivity. Qed.

(** ** Facts about strings *)

Section StringFacts.
Import TripSpec.

Lemma isDigit_bounds c : isDigit c = true <-> 48 <= c <= 57.
Proof.
  unfold isDigit. rewrite andb_true_iff, !N.leb_le. reflexivity.
Qed.

Lemma isDigit_not_ws c : isDigit c = true -> isWhiteSpace c = false.
Proof.
  intros H%isDigit_bounds. unfold isWhiteSpace.
  repeat match goal with
         | |- context [?a =? ?b] => destruct (N.eqb_spec a b); [lia|]
         | |- context [?a <=? ?b] => destruct (N.leb_spec a b); try lia
         end; reflexivity.
Qed.

Lemma startsWith_spec p s :
  startsWith p s = true <-> exists post, s = p ++ post.
Proof.
  revert s. induction p as [|a p IH]; intros s; simpl.
  - split; [eauto | done].
  - destruct s as [|b s].
    + split; [done | intros [post H]; discriminate].
    + rewrite andb_true_iff, N.eqb_eq, IH. split.
      * intros [-> [post ->]]. eauto.
      * intros [post [= -> ->]]. eauto.
Qed.

Lemma includes_spec sub s : includes sub s = true <-> occursIn sub s.
Proof.
  unfold occursIn. induction s as [|c s IH]; simpl.
  - rewrite orb_false_r, startsWith_spec. split.
    + intros [post H]. exists [], post. done.
    + intros (pre & post & H). destruct pre; [eauto | discriminate].
  - rewrite orb_true_iff, startsWith_spec, IH. split.
    + intros [[post H] | (pre & post & ->)].
      * exists [], post. done.
      * exists (c :: pre), post. done.
    + intros (pre & post & H). destruct pre as [|c' pre].
      * left. eauto.
      * right. injection H as -> ->. eauto.
Qed.

Lemma occursIn_rev sub s : occursIn (rev sub) (rev s) <-> occursIn sub s.
Proof.
  assert (forall a b : jsstring, occursIn a b -> occursIn (rev a) (rev b)) as Hfwd.
  { intros a b (pre & post & ->). exists (rev post), (rev pre).
    by rewrite !rev_app_distr, app_assoc. }
  split; [|apply Hfwd].
  intros H%Hfwd. by rewrite !rev_involutive in H.
Qed.

Lemma includes_rev sub s : includes (rev sub) (rev s) = includes sub s.
Proof.
  apply eq_true_iff_eq. rewrite !includes_spec. apply occursIn_rev.
Qed.

Lemma includes_trimStart c sub s :
  isWhiteSpace c = false ->
  includes (c :: sub) (trimStart s) = includes (c :: sub) s.
Proof.
  intros Hc. induction s as [|b s IH]; [done|].
  cbn [trimStart]. destruct (isWhiteSpace b) eqn:Hb; [|done].
  rewrite IH. cbn [includes startsWith].
  destruct (N.eqb_spec c b) as [->|]; [congruence | done].
Qed.

(** A keyword that neither begins nor ends with white space occurs in a
    string exactly when it occurs in the trimmed string. *)
Lemma includes_trim sub s c t d r :
  sub = c :: t -> rev sub = d :: r ->
  isWhiteSpace c = false -> isWhiteSpace d = false ->
  includes sub (trim s) = includes sub s.
Proof.
  intros -> Hrev Hc Hd. unfold trim, trimEnd.
  rewrite <- (rev_involutive (c :: t)) at 1.
  rewrite includes_rev, Hrev, (includes_trimStart d) by done.
  rewrite <- Hrev, includes_rev. by apply includes_trimStart.
Qed.

Lemma trimStart_head c s : isWhiteSpace c = false -> trimStart (c :: s) = c :: s.
Proof. intros H. simpl. by rewrite H. Qed.

Lemma trimStart_idemp s : trimStart (trimStart s) = trimStart s.
Proof.
  induction s as [|c s IH]; [done|]. simpl.
  destruct (isWhiteSpace c) eqn:Hc; [done|]. simpl. by rewrite Hc.
Qed.

(** [trimStart] drops a prefix of white space and stops at the first other
    unit. *)
Lemma trimStart_split s :
  exists ws, s = ws ++ trimStart s /\ Forall (fun c => isWhiteSpace c = true) ws.
Proof.
  induction s as [|c s (ws & Hs & Hws)]; [by exists []|]. simpl.
  destruct (isWhiteSpace c) eqn:Hc.
  - exists (c :: ws). split; [simpl; by f_equal | by constructor].
  - by exists [].
Qed.

Lemma trimStart_app_keep s c t :
  isWhiteSpace c = false -> trimStart (s ++ c :: t) = trimStart (s ++ [c]) ++ t.
Proof.
  intros Hc. induction s as [|b s IH]; simpl.
  - by rewrite Hc.
  - destruct (isWhiteSpace b); [done|]. simpl. by rewrite <- app_assoc.
Qed.

Lemma trimStart_last s c :
  isWhiteSpace c = false -> exists u, trimStart (s ++ [c]) = u ++ [c].
Proof.
  intros Hc. induction s as [|b s IH]; simpl.
  - rewrite Hc. by exists [].
  - destruct (isWhiteSpace b); [done|]. by exists (b :: s).
Qed.

(** A string whose first and last units are not white space is its own
    trim. *)
Lemma trim_fixed c s d :
  isWhiteSpace c = false -> isWhiteSpace d = false ->
  trim (c :: s ++ [d]) = c :: s ++ [d].
Proof.
  intros Hc Hd. unfold trim, trimEnd. rewrite trimStart_head by done.
  change (c :: s ++ [d]) with ((c :: s) ++ [d]).
  rewrite rev_unit, trimStart_head by done.
  by rewrite <- rev_unit, rev_involutive.
Qed.

Lemma trim_single c : isWhiteSpace c = false -> trim [c] = [c].
Proof. intros Hc. unfold trim, trimEnd. simpl. by rewrite Hc; simpl; rewrite Hc. Qed.

(** The trimmed string is empty, or begins and ends with a unit that is not
    white space. *)
Lemma trim_shape s :
  trim s = [] \/
  (exists c, trim s = [c] /\ isWhiteSpace c = false) \/
  (exists c u d, trim s = c :: u ++ [d] /\
                 isWhiteSpace c = false /\ isWhiteSpace d = false).
Proof.
  unfold trim, trimEnd.
  assert (forall t, t = [] \/ exists c t', trimStart t = [] \/
            (trimStart t = c :: t' /\ isWhiteSpace c = false)) as Hhead.
  { induction t as [|b t IH]; [by left|]. right. simpl.
    destruct (isWhiteSpace b) eqn:Hb.
    - destruct IH as [->|(c & t' & IH)]; [exists b, []; by left|].
      exists c, t'. done.
    - exists b, t. right. done. }
  destruct (Hhead s) as [->|(c & t & [->|[Hs Hc]])]; [by left | by left |].
  rewrite Hs. destruct (Hhead (rev (c :: t))) as [Hr|(d & r & [Hr|[Hr Hd]])].
  - simpl in Hr. by destruct (rev t).
  - exfalso. simpl in Hr.
    destruct (trimStart_last (rev t) c Hc) as [u Hu].
    rewrite Hu in Hr. by destruct u.
  - rewrite Hr. simpl in Hr.
    destruct (trimStart_last (rev t) c Hc) as [u Hu].
    rewrite Hu in Hr. destruct u as [|d' u]; simpl in Hr.
    + injection Hr as <- <-. right; left. exists c. done.
    + injection Hr as <- <-. right; right. exists c, (rev u), d'.
      simpl. rewrite rev_app_distr. simpl. done.
Qed.

Lemma trim_idemp s : trim (trim s) = trim s.
Proof.
  destruct (trim_shape s) as [->|[(c & -> & Hc)|(c & u & d & -> & Hc & Hd)]].
  - done.
  - by apply trim_single.
  - by apply trim_fixed.
Qed.

End StringFacts.

(** ** [classifyPurpose] *)

Section Classify.
Import TripParser TripSpec.

Lemma includes_keyword_trim kw purpose c t d r :
  js kw = c :: t -> rev (js kw) = d :: r ->
  isWhiteSpace c = false -> isWhiteSpace d = false ->
  includes (js kw) (trim purpose) = true <-> occursIn (js kw) purpose.
Proof.
  intros H1 H2 Hc Hd. rewrite (includes_trim _ _ _ _ _ _ H1 H2 Hc Hd).
  apply includes_spec.
Qed.

End Classify.

(** C9. [classifyPurpose] tries its keyword rules in a fixed order: a
    purpose in which '연차' or '휴가' occurs is a vacation, also when '교육'
    occurs in it; otherwise one in which '교육' occurs is an education;
    otherwise one in which '협력사' or '검진' occurs falls under others;
    every other purpose is a trip. *)
Theorem classifyPurpose_priority (purpose : jsstring) :
  let has kw := TripSpec.occursIn (js kw) purpose in
  (has "연차" \/ has "휴가" ->
   TripParser.classifyPurpose purpose = TripCategory.vacation) /\
  (~ has "연차" -> ~ has "휴가" -> has "교육" ->
   TripParser.classifyPurpose purpose = TripCategory.education) /\
  (~ has "연차" -> ~ has "휴가" -> ~ has "교육" ->
   has "협력사" \/ has "검진" ->
   TripParser.classifyPurpose purpose = TripCategory.others) /\
  (~ has "연차" -> ~ has "휴가" -> ~ has "교육" ->
   ~ has "협력사" -> ~ has "검진" ->
   TripParser.classifyPurpose purpose = TripCategory.trip).
Proof.
  intros has. unfold has, TripParser.classifyPurpose.
  pose proof (includes_keyword_trim "연차" purpose _ _ _ _
                eq_refl eq_refl eq_refl eq_refl) as H1.
  pose proof (includes_keyword_trim "휴가" purpose _ _ _ _
                eq_refl eq_refl eq_refl eq_refl) as H2.
  pose proof (includes_keyword_trim "교육" purpose _ _ _ _
                eq_refl eq_refl eq_refl eq_refl) as H3.
  pose proof (includes_keyword_trim "협력사" purpose _ _ _ _
                eq_refl eq_refl eq_refl eq_refl) as H4.
  pose proof (includes_keyword_trim "검진" purpose _ _ _ _
                eq_refl eq_refl eq_refl eq_refl) as H5.
  destruct (includes (js "연차") (trim purpose));
    destruct (includes (js "휴가") (trim purpose));
    destruct (includes (js "교육") (trim purpose));
    destruct (includes (js "협력사") (trim purpose));
    destruct (includes (js "검진") (trim purpose));
    cbn [orb]; intuition congruence.
Qed.

(** A purpose in which both '교육' and '연차' occur is a vacation. *)
Lemma classifyPurpose_priority_witness :
  TripSpec.occursIn (js "교육") (js "사외교육 후 연차") /\
  TripParser.classifyPurpose (js "사외교육 후 연차") = TripCategory.vacation.
Proof.
  split.
  - exists (js "사외"), (js " 후 연차"). reflexivity.
  - apply (classifyPurpose_priority (js "사외교육 후 연차")).
    left. exists (js "사외교육 후 "), []. reflexivity.
Defined.

(** ** [normalizeDate] and [normalizeDateRange] *)

Section Dates.
Import TripParser TripSpec.

Ltac digit_facts :=
  repeat match goal with
         | H : isDigit ?c = true |- _ =>
             let Hb := fresh "Hb" in
             pose proof (proj1 (isDigit_bounds c) H) as Hb;
             let Hw := fresh "Hw" in
             pose proof (isDigit_not_ws c H) as Hw;
             revert H
         end; intros.

Ltac decide_units :=
  repeat match goal with
         | |- context [N.eqb ?a ?b] =>
             destruct (N.eqb_spec a b);
             [try (exfalso; unfold HYPHEN, DOT, TILDE, BAR in *; lia)
             |try (exfalso; unfold HYPHEN, DOT, TILDE, BAR in *; lia)]
         end.

Lemma digits12_cases a :
  digits12 a ->
  (exists c, a = [c] /\ isDigit c = true) \/
  (exists c d, a = [c; d] /\ isDigit c = true /\ isDigit d = true).
Proof.
  intros [Hd Hlen]. destruct a as [|c [|d [|e a]]]; simpl in Hlen; try lia.
  - left. exists c. by inversion Hd.
  - right. exists c, d. inversion Hd as [|? ? ? Hd']. by inversion Hd'.
Qed.

Lemma digitVal_range c : isDigit c = true -> (0 <= digitVal c <= 9)%Z.
Proof. intros H%isDigit_bounds. unfold digitVal. lia. Qed.

Lemma digitsValue_range a : digits12 a -> (0 <= digitsValue a < 100)%Z.
Proof.
  intros [(c & -> & Hc)|(c & d & -> & Hc & Hd)]%digits12_cases;
    unfold digitsValue; simpl.
  - pose proof (digitVal_range c Hc). lia.
  - pose proof (digitVal_range c Hc). pose proof (digitVal_range d Hd). lia.
Qed.

Lemma shortDateRe_short a sep b :
  digits12 a -> digits12 b -> sep = HYPHEN \/ sep = DOT ->
  shortDateRe (a ++ [sep] ++ b) = true.
Proof.
  intros [(c & -> & Hc)|(c & d & -> & Hc & Hd)]%digits12_cases
         [(e & -> & He)|(e & f & -> & He & Hf)]%digits12_cases [->| ->];
    unfold shortDateRe; cbn [app]; rewrite ?Hc, ?Hd; cbn;
    rewrite ?He, ?Hf; reflexivity.
Qed.

Lemma dateParts_short a sep b :
  digits12 a -> digits12 b -> sep = HYPHEN \/ sep = DOT ->
  dateParts (a ++ [sep] ++ b) = [a; b].
Proof.
  intros [(c & -> & Hc)|(c & d & -> & Hc & Hd)]%digits12_cases
         [(e & -> & He)|(e & f & -> & He & Hf)]%digits12_cases Hsep;
    digit_facts; unfold dateParts;
    destruct Hsep as [->| ->];
    cbn [includes startsWith split app orb andb];
    decide_units; reflexivity.
Qed.

Lemma parseInt10_digits a :
  digits12 a -> parseInt10 a = Num (digitsValue a).
Proof.
  intros [(c & -> & Hc)|(c & d & -> & Hc & Hd)]%digits12_cases;
    digit_facts; unfold parseInt10; rewrite trimStart_head by done;
    decide_units; cbn [digitsPrefix]; rewrite ?Hc, ?Hd; reflexivity.
Qed.

Lemma pad2_twoDigits z :
  (0 <= z < 100)%Z -> padStart 2 ZERO (intToString z) = twoDigits z.
Proof.
  intros Hz. rewrite <- (Z2Nat.id z) by lia.
  assert (Z.to_nat z < 100)%nat as Hn by lia.
  generalize dependent (Z.to_nat z). clear. intros n Hn.
  do 100 (destruct n as [|n]; [reflexivity|]). lia.
Qed.

Lemma twoDigits_digits z :
  (0 <= z < 100)%Z ->
  exists c d, twoDigits z = [c; d] /\ isDigit c = true /\ isDigit d = true.
Proof.
  intros Hz. eexists _, _. split; [reflexivity|].
  rewrite !isDigit_bounds. Z.div_mod_to_equations. lia.
Qed.

Lemma year_four_digits y :
  (1000 <= y <= 9999)%Z ->
  exists a b c d, intToString y = [a; b; c; d] /\
    isDigit a = true /\ isDigit b = true /\ isDigit c = true /\ isDigit d = true.
Proof.
  intros Hy.
  assert (forallb (fun n =>
            match intToString (1000 + Z.of_nat n) with
            | [a; b; c; d] => isDigit a && isDigit b && isDigit c && isDigit d
            | _ => false
            end) (seq 0 (90 * 100)) = true) as Hall by (vm_compute; reflexivity).
  rewrite forallb_forall in Hall.
  specialize (Hall (Z.to_nat (y - 1000))).
  replace (1000 + Z.of_nat (Z.to_nat (y - 1000)))%Z with y in Hall by lia.
  assert (In (Z.to_nat (y - 1000)) (seq 0 (90 * 100))) as Hin by (apply in_seq; lia).
  specialize (Hall Hin). clear Hin.
  destruct (intToString y) as [|a [|b [|c [|d [|e r]]]]]; try discriminate Hall.
  exists a, b, c, d. split; [done|].
  by rewrite <- !andb_true_iff, !andb_assoc.
Qed.

Lemma isoShape_dashed y m d :
  (1000 <= y <= 9999)%Z -> (0 <= m < 100)%Z -> (0 <= d < 100)%Z ->
  isoShape (dashed y m d) = true.
Proof.
  intros (y1 & y2 & y3 & y4 & Hy & H1 & H2 & H3 & H4)%year_four_digits
         (m1 & m2 & Hm & Hm1 & Hm2)%twoDigits_digits
         (d1 & d2 & Hd & Hd1 & Hd2)%twoDigits_digits.
  unfold dashed. rewrite Hy, Hm, Hd. cbn.
  by rewrite H1, H2, H3, H4, Hm1, Hm2, Hd1, Hd2.
Qed.

Lemma parseMonthDay_short s m d :
  ShortForm s m d ->
  isShortDate s = true /\ parseMonthDay s = {| month := Num m; day := Num d |}.
Proof.
  intros (a & sep & b & Hs & Ha & Hb & Hsep & -> & ->).
  unfold isShortDate, parseMonthDay. rewrite Hs.
  rewrite shortDateRe_short, dateParts_short by done.
  cbn [lookup list_lookup parseIntOpt].
  by rewrite !parseInt10_digits.
Qed.

Lemma formatDate_dashed y m d :
  (0 <= m < 100)%Z -> (0 <= d < 100)%Z ->
  formatDate y (Num m) (Num d) = dashed y m d.
Proof.
  intros Hm Hd. unfold formatDate, dashed. cbn [numberToString].
  by rewrite !pad2_twoDigits.
Qed.

Lemma ShortForm_range s m d :
  ShortForm s m d -> (0 <= m < 100)%Z /\ (0 <= d < 100)%Z.
Proof.
  intros (a & sep & b & Hs & Ha & Hb & Hsep & -> & ->).
  split; by apply digitsValue_range.
Qed.

Lemma normalizeDateRange_short s e y ms ds me de :
  ShortForm s ms ds -> ShortForm e me de ->
  normalizeDateRange s e y =
    {| startDate := dashed (if (me <? ms)%Z then y - 1 else y)%Z ms ds;
       endDate := dashed y me de |}.
Proof.
  intros Hs He.
  destruct (ShortForm_range _ _ _ Hs), (ShortForm_range _ _ _ He).
  destruct (parseMonthDay_short _ _ _ Hs) as [Hs1 Hs2].
  destruct (parseMonthDay_short _ _ _ He) as [He1 He2].
  unfold normalizeDateRange. rewrite Hs1, He1, Hs2, He2. cbn.
  by rewrite !formatDate_dashed.
Qed.

End Dates.

(** ** The patterns on sample lines *)

Example dateMatch_range :
  TripParser.dateMatch (js "12-29 ~ 02-12") = Some (js "12-29", Some (js "02-12")).
Proof. reflexivity. Qed.

Example dateMatch_range_tight :
  TripParser.dateMatch (js "12-29~02-12") = Some (js "12-29", Some (js "02-12")).
Proof. reflexivity. Qed.

Example dateMatch_single :
  TripParser.dateMatch (js "02-03") = Some (js "02-03", None).
Proof. reflexivity. Qed.

Example dateMatch_rejects :
  TripParser.dateMatch (js "2-3") = None /\
  TripParser.dateMatch (js "02.03") = None /\
  TripParser.dateMatch (js "02-03 ~") = None /\
  TripParser.dateMatch (js "02-03 ~ 02-04 x") = None /\
  TripParser.dateMatch (js "2026-02-03") = None /\
  TripParser.dateMatch (js "Kim") = None.
Proof. repeat split; reflexivity. Qed.

Example yearMatch_first :
  TripParser.yearMatch (js " 2026-02-01 ~ 2027-02-07 ") = Some (js "2026") /\
  TripParser.yearMatch (js "12026-02-01") = Some (js "2026") /\
  TripParser.yearMatch (js "02-03") = None.
Proof. repeat split; reflexivity. Qed.

Example baseYear_of_text :
  TripParser.baseYear 2026 [js "주간"; js "2025-02-01 ~ 2025-02-07"; js "02-03"] = 2025%Z /\
  TripParser.baseYear 2026 [js "02-03"; js "Kim"] = 2026%Z.
Proof. split; reflexivity. Qed.

Example isName_samples :
  TripParser.isName (js "Kim") = true /\
  TripParser.isName (js "종일") = false /\
  TripParser.isName (js "반일") = false /\
  TripParser.isName (js "02-03") = false /\
  TripParser.isName (js "종일 ") = true.
Proof. repeat split; reflexivity. Qed.

Example normalizeDate_samples :
  TripParser.normalizeDate (js " 2-3 ") 2026 = js "2026-02-03" /\
  TripParser.normalizeDate (js "12.29") 2026 = js "2026-12-29" /\
  TripParser.normalizeDate (js "2025-12-29") 2026 = js "2025-12-29" /\
  TripParser.normalizeDate (js "2025.12.29") 2026 = js "2025.12.29".
Proof. repeat split; reflexivity. Qed.

Example classifyPurpose_samples :
  TripParser.classifyPurpose (js "시간연차") = TripCategory.vacation /\
  TripParser.classifyPurpose (js "사외교육참석") = TripCategory.education /\
  TripParser.classifyPurpose (js "건강검진") = TripCategory.others /\
  TripParser.classifyPurpose (js "고객사 방문") = TripCategory.trip.
Proof. repeat split; reflexivity. Qed.

(** The short-date pattern accepts exactly one or two digits, ['-'] or
    ['.'], one or two digits. *)
Lemma shortDateRe_spec s :
  TripParser.shortDateRe s = true <->
  exists a sep b,
    s = a ++ [sep] ++ b /\ TripSpec.digits12 a /\ TripSpec.digits12 b /\
    (sep = HYPHEN \/ sep = DOT).
Proof.
  split.
  - unfold TripParser.shortDateRe.
    destruct s as [|a r]; [done|]. intros [Ha H]%andb_true_iff.
    assert (forall x y t, (x =? HYPHEN) || (x =? DOT) = true ->
              match t with
              | [c] => isDigit c
              | [c; d] => isDigit c && isDigit d
              | _ => false
              end = true ->
              Forall (fun c => isDigit c = true) y -> (1 <= length y <= 2)%nat ->
              exists a' sep b, y ++ x :: t = a' ++ [sep] ++ b /\
                TripSpec.digits12 a' /\ TripSpec.digits12 b /\
                (sep = HYPHEN \/ sep = DOT)) as Hshape.
    { intros x y t Hx Ht Hy Hlen. exists y, x, t. split; [done|].
      split; [done|]. split.
      - destruct t as [|c [|d [|e t]]]; try done.
        + split; [by repeat constructor | cbn; lia].
        + apply andb_true_iff in Ht as [? ?].
          split; [by repeat constructor | cbn; lia].
      - apply orb_true_iff in Hx as [Hx%N.eqb_eq|Hx%N.eqb_eq]; auto. }
    destruct r as [|b r]; [done|].
    destruct (isDigit b) eqn:Hb.
    + destruct r as [|x t]; [done|]. apply andb_true_iff in H as [Hx Ht].
      apply (Hshape x [a; b] t); try done; [by repeat constructor | cbn; lia].
    + apply andb_true_iff in H as [Hx Ht].
      apply (Hshape b [a] r); try done; [by repeat constructor | cbn; lia].
  - intros (a & sep & b & -> & Ha & Hb & Hsep). by apply shortDateRe_short.
Qed.
(** The year rule of [normalizeDateRange].  When both ends of a range
    are short dates, the end date gets the base year, and the start date the
    year before exactly when the start month is greater than the end month,
    the base year otherwise.  Month and day are written on two digits; the
    year is written in plain decimal, so that both dates have the shape
    YYYY-MM-DD when the base year lies between 1001 and 9999. *)
Lemma normalizeDateRange_year_boundary (s e : jsstring) (y ms ds me de : Z) :
  TripSpec.ShortForm s ms ds -> TripSpec.ShortForm e me de ->
  let r := TripParser.normalizeDateRange s e y in
  TripParser.endDate r = TripSpec.dashed y me de /\
  TripParser.startDate r =
    TripSpec.dashed (if (me <? ms)%Z then y - 1 else y)%Z ms ds /\
  ((1000 < y <= 9999)%Z ->
   TripSpec.isoShape (TripParser.startDate r) = true /\
   TripSpec.isoShape (TripParser.endDate r) = true).
Proof.
  intros Hs He r. subst r.
  rewrite (normalizeDateRange_short s e y ms ds me de Hs He). cbn.
  destruct (ShortForm_range _ _ _ Hs), (ShortForm_range _ _ _ He).
  split; [done|]. split; [done|].
  intros Hy. split; apply isoShape_dashed; try done; try lia.
  destruct (me <? ms)%Z; lia.
Qed.

(** The range "12-29 ~ 02-12" read in 2026 starts in 2025. *)
Lemma normalizeDateRange_year_boundary_witness :
  let r := TripParser.normalizeDateRange (js "12-29") (js " 02.12 ") 2026 in
  TripParser.startDate r = js "2025-12-29" /\
  TripParser.endDate r = js "2026-02-12" /\
  TripSpec.isoShape (TripParser.startDate r) = true.
Proof.
  assert (TripSpec.ShortForm (js "12-29") 12 29) as Hs.
  { exists (js "12"), HYPHEN, (js "29").
    repeat split; try reflexivity; try (repeat constructor); cbn; lia. }
  assert (TripSpec.ShortForm (js " 02.12 ") 2 12) as He.
  { exists (js "02"), DOT, (js "12").
    repeat split; try reflexivity; try (repeat constructor); try (by right);
      cbn; lia. }
  destruct (normalizeDateRange_year_boundary _ _ 2026 _ _ _ _ Hs He)
    as (Hend & Hstart & Hiso).
  split; [rewrite Hstart; reflexivity|].
  split; [rewrite Hend; reflexivity|].
  apply Hiso. lia.
Defined.

(** C2. A year below 1000 is not padded.  The pasted text
    "0999-01-01 / 01-02 / Kim / 출장" holds a full date, whose year 0999 the
    parser takes as the base year 999; the block "01-02 / Kim / 출장" then
    goes through [normalizeDateRange] with two short ends, and the trip that
    [parseTripText] returns starts and ends on "999-01-02", which has three
    digits of year and so is not of the shape YYYY-MM-DD. *)
Theorem parseTripText_year_unpadded :
  let text :=
    TripParser.unlines [js "0999-01-01"; js "01-02"; js "Kim"; js "출장"] in
  TripParser.baseYear 2026 (TripParser.textLines text) = 999%Z /\
  TripParser.dateMatch (js "01-02") = Some (js "01-02", None) /\
  TripSpec.ShortForm (js "01-02") 1 2 /\
  TripParser.startDate
    (TripParser.normalizeDateRange (js "01-02") (js "01-02") 999)
    = js "999-01-02" /\
  TripParser.endDate
    (TripParser.normalizeDateRange (js "01-02") (js "01-02") 999)
    = js "999-01-02" /\
  TripSpec.isoShape (js "999-01-02") = false /\
  exists r t,
    TripParser.parseTripText (fun k => intToString (Z.of_nat k)) (js "2026-11-03")
      2026 text [] = Normal r /\
    TripParser.trips r = [t] /\
    BusinessTrip.name t = js "Kim" /\
    BusinessTrip.startDate t = js "999-01-02" /\
    BusinessTrip.endDate t = js "999-01-02".
Proof.
  cbv zeta. split; [reflexivity|]. split; [reflexivity|]. split.
  { exists (js "01"), HYPHEN, (js "02").
    repeat split; try reflexivity; try (repeat constructor); try (by left);
      cbn; lia. }
  split; [reflexivity|]. split; [reflexivity|]. split; [reflexivity|].
  eexists. eexists. split; [vm_compute; reflexivity|].
  split; [reflexivity|]. split; [reflexivity|]. split; reflexivity.
Qed.

(** ** The roster map *)

Section RosterMap.
Import TripParser TripSpec.

Lemma addMember_normal mm m :
  let key := trim (TeamMember.name m) in
  addMember mm m = Normal (<[key := default [] (mm !! key) ++ [m]]> mm).
Proof.
  intros key. unfold addMember. fold key.
  destruct (mm !! key) as [bucket|] eqn:Hk.
  - rewrite bool_decide_eq_true_2 by eauto. by rewrite Hk.
  - rewrite bool_decide_eq_false_2 by (intros [? ?]; congruence).
    rewrite lookup_insert_eq. cbn. by rewrite insert_insert_eq.
Qed.

Lemma buildMemberMap_lookup members : forall mm,
  exists mm', buildMemberMap members mm = Normal mm' /\
    forall k, mm' !! k =
      match matching members k with
      | [] => mm !! k
      | cs => Some (default [] (mm !! k) ++ cs)
      end.
Proof.
  induction members as [|m members IH]; intros mm.
  - exists mm. done.
  - cbn [buildMemberMap]. rewrite addMember_normal.
    cbn [mbind completion_bind cbind].
    destruct (IH (<[trim (TeamMember.name m) :=
                    default [] (mm !! trim (TeamMember.name m)) ++ [m]]> mm))
      as (mm' & -> & Hmm').
    exists mm'. split; [done|]. intros k. rewrite Hmm'.
    unfold matching. rewrite filter_cons.
    destruct (decide (trim (TeamMember.name m) = k)) as [->|Hne].
    + rewrite lookup_insert_eq. cbn.
      destruct (filter _ members); [done|]. by rewrite <- app_assoc.
    + by rewrite lookup_insert_ne.
Qed.

(** The roster map sends a name to the members of that name, in roster
    order, and has no entry for the other names. *)
Lemma buildMemberMap_empty members :
  exists mm, buildMemberMap members ∅ = Normal mm /\
    forall k, mm !! k =
      match matching members k with
      | [] => None
      | cs => Some cs
      end.
Proof.
  destruct (buildMemberMap_lookup members ∅) as (mm & Hmm & Hk).
  exists mm. split; [done|]. intros k. rewrite Hk, lookup_empty. done.
Qed.

End RosterMap.

(** ** The loop over the lines *)

Section Scan.
Import TripParser TripSpec.

Variable randomUUID : nat -> jsstring.
Variable now : jsstring.
Variable memberMap : gmap jsstring (list TeamMember.t).
Variable lines : list jsstring.
Variable currentYear : Z.

Local Abbreviation scanStep := (scanStep randomUUID now memberMap lines currentYear).
Local Abbreviation scanLines := (scanLines randomUUID now memberMap lines currentYear).
Local Abbreviation pushBlock := (pushBlock randomUUID now memberMap lines currentYear).
Local Abbreviation blockTrip := (blockTrip randomUUID now memberMap lines currentYear).

Lemma startsBlock_inv i :
  startsBlock lines i = true ->
  exists l g1 g2 n p,
    lines !! i = Some l /\ dateMatch l = Some (g1, g2) /\
    lines !! (i + 1)%nat = Some n /\ lines !! (i + 2)%nat = Some p /\
    isName (trim n) = true /\ (i + 2 < length lines)%nat.
Proof.
  unfold startsBlock. intros H.
  destruct (lines !! i) as [l|] eqn:Hl; [|done].
  destruct (lines !! (i + 1)%nat) as [n|] eqn:Hn; [|done].
  apply andb_true_iff in H as [[Hd%bool_decide_eq_true Hlen%bool_decide_eq_true]%andb_true_iff Hname].
  destruct Hd as [[g1 g2] Hd].
  destruct (lookup_lt_is_Some_2 lines (i + 2)%nat Hlen) as [p Hp].
  exists l, g1, g2, n, p. done.
Qed.

Lemma scanStep_block i st :
  startsBlock lines i = true ->
  scanStep i st = Normal ((i + 2)%nat, pushBlock i st).
Proof.
  intros (l & g1 & g2 & n & p & Hl & Hd & Hn & Hp & Hname & Hlen)%startsBlock_inv.
  unfold TripParser.scanStep, TripSpec.pushBlock, TripSpec.blockTrip.
  rewrite Hl, Hn, Hp. cbn. rewrite Hd.
  rewrite bool_decide_eq_true_2 by done. rewrite Hname.
  unfold knoxOf, noteUnknown. cbn.
  destruct (memberMap !! trim n) as [[|c [|c' cs]]|]; cbn;
    try case_bool_decide; try done; cbn in *; lia.
Qed.

Lemma scanStep_skip i st :
  (i < length lines)%nat -> startsBlock lines i = false ->
  scanStep i st = Normal (i, st).
Proof.
  intros Hi Hb. unfold TripParser.scanStep.
  destruct (lookup_lt_is_Some_2 lines i Hi) as [l Hl]. rewrite Hl. cbn.
  destruct (dateMatch l) as [[g1 g2]|] eqn:Hd; [|done].
  case_bool_decide as Hlen; [|done].
  destruct (lookup_lt_is_Some_2 lines (i + 1)%nat ltac:(lia)) as [n Hn].
  destruct (lookup_lt_is_Some_2 lines (i + 2)%nat ltac:(lia)) as [p Hp].
  rewrite Hn, Hp. cbn.
  unfold startsBlock in Hb. rewrite Hl, Hn, Hd in Hb.
  rewrite bool_decide_eq_true_2 in Hb by eauto.
  rewrite bool_decide_eq_true_2 in Hb by done. cbn in Hb. by rewrite Hb.
Qed.

Lemma scanLines_done budget i st :
  (length lines <= i)%nat -> scanLines budget i st = Normal st.
Proof.
  intros Hi. destruct budget; cbn; by rewrite bool_decide_eq_false_2 by lia.
Qed.

Lemma scanLines_block budget i st :
  startsBlock lines i = true ->
  scanLines (S budget) i st = scanLines budget (i + 3) (pushBlock i st).
Proof.
  intros Hb. pose proof (startsBlock_inv i Hb) as (? & ? & ? & ? & ? & ? & ? & ? & ? & ? & Hlen).
  cbn [TripParser.scanLines]. rewrite bool_decide_eq_true_2 by lia.
  rewrite scanStep_block by done. cbn.
  by replace (S (i + 2)) with (i + 3)%nat by lia.
Qed.

Lemma scanLines_skip budget i st :
  (i < length lines)%nat -> startsBlock lines i = false ->
  scanLines (S budget) i st = scanLines budget (S i) st.
Proof.
  intros Hi Hb. cbn [TripParser.scanLines].
  rewrite bool_decide_eq_true_2 by lia. by rewrite scanStep_skip.
Qed.

(** The budget [length lines] is enough: the loop ends and throws
    nothing. *)
Lemma scanLines_total budget : forall i st,
  (length lines <= i + budget)%nat ->
  exists st', scanLines budget i st = Normal st'.
Proof.
  induction budget as [|budget IH]; intros i st Hlen.
  - exists st. apply scanLines_done. lia.
  - destruct (decide (i < length lines)%nat) as [Hi|Hi].
    + destruct (startsBlock lines i) eqn:Hb.
      * rewrite scanLines_block by done. apply IH. lia.
      * rewrite scanLines_skip by done. apply IH. lia.
    + exists st. apply scanLines_done. lia.
Qed.

(** A property of the state that every block keeps holds at the end. *)
Lemma scanLines_invariant (P : ScanState -> Prop) :
  (forall i st, startsBlock lines i = true -> P st -> P (pushBlock i st)) ->
  forall budget i st st',
    P st -> scanLines budget i st = Normal st' -> P st'.
Proof.
  intros Hstep. induction budget as [|budget IH]; intros i st st' HP Hrun.
  - cbn in Hrun. case_bool_decide; [done | congruence].
  - destruct (decide (i < length lines)%nat) as [Hi|Hi].
    + destruct (startsBlock lines i) eqn:Hb.
      * rewrite scanLines_block in Hrun by done. eapply IH; [|done]. eauto.
      * rewrite scanLines_skip in Hrun by done. eauto.
    + rewrite scanLines_done in Hrun by lia. congruence.
Qed.

Lemma pushBlock_trips i st :
  startsBlock lines i = true ->
  exists t, blockTrip (length (scanTrips st)) i = Some t /\
    pushBlock i st =
      {| scanTrips := scanTrips st ++ [t];
         scanUnknown := noteUnknown memberMap (BusinessTrip.name t) (scanUnknown st) |}.
Proof.
  intros (l & g1 & g2 & n & p & Hl & Hd & Hn & Hp & Hname & Hlen)%startsBlock_inv.
  unfold TripSpec.pushBlock, TripSpec.blockTrip. rewrite Hl, Hn, Hp, Hd.
  eexists. split; reflexivity.
Qed.

(** The scan only appends trips. *)
Lemma scanLines_prefix budget : forall i st st',
  scanLines budget i st = Normal st' -> scanTrips st `prefix_of` scanTrips st'.
Proof.
  intros i st st' Hrun.
  eapply (scanLines_invariant (fun s => scanTrips st `prefix_of` scanTrips s));
    [| |exact Hrun]; [|done].
  intros j s Hb Hs. destruct (pushBlock_trips j s Hb) as (t & _ & ->). cbn.
  by apply prefix_app_r.
Qed.

(** Every block whose first line the scan looks at yields its trip. *)
Lemma scanLines_visits budget : forall i st st' j,
  scanLines budget i st = Normal st' ->
  visits lines i j -> startsBlock lines j = true ->
  exists k t, blockTrip k j = Some t /\ t ∈ scanTrips st'.
Proof.
  induction budget as [|budget IH]; intros i st st' j Hrun Hv Hj.
  - cbn in Hrun. case_bool_decide as Hi; [done|].
    exfalso. clear Hrun.
    induction Hv as [i|i j Hb Hv IHv|i j Hb Hv IHv].
    + apply startsBlock_inv in Hj as (? & ? & ? & ? & ? & ? & ? & ? & ? & ? & ?). lia.
    + apply IHv; [done | lia].
    + apply IHv; [done | lia].
  - inversion Hv as [|? ? Hb Hv'|? ? Hb Hv']; subst.
    + rewrite scanLines_block in Hrun by done.
      destruct (pushBlock_trips j st Hj) as (t & Ht & Hpush).
      exists (length (scanTrips st)), t. split; [done|].
      apply scanLines_prefix in Hrun. rewrite Hpush in Hrun. cbn in Hrun.
      destruct Hrun as [rest ->].
      rewrite !elem_of_app, list_elem_of_singleton. auto.
    + destruct (decide (i < length lines)%nat) as [Hi|Hi].
      * rewrite scanLines_skip in Hrun by done. eauto.
      * exfalso. clear -Hv' Hj Hi.
        assert (length lines <= S i)%nat as Hle by lia. clear Hi.
        induction Hv' as [i'|i' j Hb Hv IHv|i' j Hb Hv IHv].
        -- apply startsBlock_inv in Hj as (? & ? & ? & ? & ? & ? & ? & ? & ? & ? & ?). lia.
        -- apply IHv; [done | lia].
        -- apply IHv; [done | lia].
    + rewrite scanLines_block in Hrun by done. eauto.
Qed.

Lemma visits_le i j : visits lines i j -> (i <= j)%nat.
Proof. induction 1; lia. Qed.

(** No line past the end opens a block. *)
Lemma visits_past_end i j :
  (length lines <= i)%nat -> visits lines i j -> startsBlock lines j = false.
Proof.
  intros Hi Hv%visits_le.
  destruct (startsBlock lines j) eqn:Hj; [|done].
  apply startsBlock_inv in Hj as (? & ? & ? & ? & ? & ? & ? & ? & ? & ? & ?). lia.
Qed.

(** The trips of the scan in the order of the text.  The scan that starts
    at line [i] appends one trip for each block that it opens: [starts]
    lists the first lines of these blocks.  They are the block-opening lines
    that the scan looks at, they increase, and the trip appended at position
    [k] is the one of the block at [starts !! k]. *)
Lemma scanLines_order budget : forall i st st',
  scanLines budget i st = Normal st' ->
  exists starts : list nat,
    length (scanTrips st') = (length (scanTrips st) + length starts)%nat /\
    (forall j, j ∈ starts <-> visits lines i j /\ startsBlock lines j = true) /\
    (forall a b ja jb, (a < b)%nat ->
       starts !! a = Some ja -> starts !! b = Some jb -> (ja < jb)%nat) /\
    (forall k j, starts !! k = Some j ->
       exists t, blockTrip (length (scanTrips st) + k) j = Some t /\
         scanTrips st' !! (length (scanTrips st) + k)%nat = Some t).
Proof.
  induction budget as [|budget IH]; intros i st st' Hrun.
  - cbn in Hrun. case_bool_decide as Hi; [done|]. injection Hrun as <-.
    exists []. split; [cbn; lia|]. split; [|split].
    + intros j. split; [by intros ?%elem_of_nil|].
      intros [Hv Hj]. rewrite (visits_past_end i j ltac:(lia) Hv) in Hj. done.
    + intros a b ja jb _ Ha. done.
    + intros k j Hk. done.
  - destruct (decide (i < length lines)%nat) as [Hi|Hi].
    + destruct (startsBlock lines i) eqn:Hb.
      * rewrite scanLines_block in Hrun by done.
        destruct (pushBlock_trips i st Hb) as (t & Ht & Hpush).
        pose proof (scanLines_prefix _ _ _ _ Hrun) as Hpre.
        destruct (IH _ _ _ Hrun) as (starts & Hlen & Hin & Hinc & Hat).
        rewrite Hpush in Hlen, Hat, Hpre. cbn [scanTrips] in Hlen, Hat, Hpre.
        rewrite length_app in Hlen, Hat. cbn [length] in Hlen, Hat.
        exists (i :: starts). split; [cbn; lia|]. split; [|split].
        -- intros j. rewrite elem_of_cons, Hin. split.
           ++ intros [->|[Hv Hj]]; [split; [apply visits_here|done]|].
              split; [by apply visits_block|done].
           ++ intros [Hv Hj].
              inversion Hv as [|? ? Hb' Hv'|? ? Hb' Hv']; subst;
                [by left|congruence|by right].
        -- intros [|a] [|b] ja jb Hab Ha Hb'; cbn in Ha, Hb'; try lia.
           ++ injection Ha as <-.
              assert (jb ∈ starts) as Hjb by (by eapply list_elem_of_lookup_2).
              apply Hin in Hjb as [Hv%visits_le _]. lia.
           ++ apply (Hinc a b); [lia|done|done].
        -- intros [|k] j Hk; cbn in Hk.
           ++ injection Hk as <-. exists t. rewrite Nat.add_0_r.
              split; [done|]. destruct Hpre as [rest ->].
              rewrite <- app_assoc. by apply list_lookup_middle.
           ++ destruct (Hat k j Hk) as (t' & Ht' & Hlook). exists t'.
              by replace (length (scanTrips st) + S k)%nat
                with (length (scanTrips st) + 1 + k)%nat by lia.
      * rewrite scanLines_skip in Hrun by done.
        destruct (IH _ _ _ Hrun) as (starts & Hlen & Hin & Hinc & Hat).
        exists starts. split; [done|]. split; [|by split].
        intros j. rewrite Hin. split.
        -- intros [Hv Hj]. split; [by apply visits_skip|done].
        -- intros [Hv Hj].
           inversion Hv as [|? ? Hb' Hv'|? ? Hb' Hv']; subst;
             [congruence|done|congruence].
    + rewrite scanLines_done in Hrun by lia. injection Hrun as <-.
      exists []. split; [cbn; lia|]. split; [|split].
      * intros j. split; [by intros ?%elem_of_nil|].
        intros [Hv Hj]. rewrite (visits_past_end i j ltac:(lia) Hv) in Hj. done.
      * intros a b ja jb _ Ha. done.
      * intros k j Hk. done.
Qed.

End Scan.

(** ** Date lines and the dates of a trip *)

Section TripDates.
Import TripParser TripSpec.

Lemma mmdd_inv s g rest :
  mmdd s = Some (g, rest) ->
  exists a b c d,
    g = [a; b; HYPHEN; c; d] /\ s = g ++ rest /\
    isDigit a = true /\ isDigit b = true /\ isDigit c = true /\ isDigit d = true.
Proof.
  unfold mmdd. destruct s as [|a [|b [|h [|c [|d r]]]]]; try done.
  destruct (isDigit a) eqn:Ha, (isDigit b) eqn:Hb, (N.eqb_spec h HYPHEN) as [->|],
    (isDigit c) eqn:Hc, (isDigit d) eqn:Hd; cbn; try done.
  intros [= <- <-]. exists a, b, c, d. done.
Qed.

Lemma mmdd_ShortForm a b c d :
  isDigit a = true -> isDigit b = true -> isDigit c = true -> isDigit d = true ->
  ShortForm [a; b; HYPHEN; c; d] (digitsValue [a; b]) (digitsValue [c; d]).
Proof.
  intros Ha Hb Hc Hd. exists [a; b], HYPHEN, [c; d].
  split.
  { apply (trim_fixed a [b; HYPHEN; c] d); by apply isDigit_not_ws. }
  repeat split; try (repeat constructor; done); cbn; try lia; by left.
Qed.

Lemma dateMatch_inv l g1 g2 :
  dateMatch l = Some (g1, g2) ->
  (exists m d, ShortForm g1 m d) /\
  match g2 with
  | Some e => e <> [] /\ exists m d, ShortForm e m d
  | None => True
  end.
Proof.
  unfold dateMatch. destruct (mmdd l) as [[g rest]|] eqn:Hg; [|done].
  apply mmdd_inv in Hg as (a & b & c & d & -> & _ & Ha & Hb & Hc & Hd).
  assert (exists m d', ShortForm [a; b; HYPHEN; c; d] m d') as H1
    by (eexists _, _; by apply mmdd_ShortForm).
  destruct rest as [|x rest]; [by intros [= <- <-]|].
  destruct (trimStart (x :: rest)) as [|t rest']; [done|].
  destruct (t =? TILDE); [|done].
  destruct (mmdd (trimStart rest')) as [[g' [|? ?]]|] eqn:Hg'; try done.
  intros [= <- <-]. split; [done|].
  apply mmdd_inv in Hg' as (a' & b' & c' & d' & -> & _ & ? & ? & ? & ?).
  split; [done|]. eexists _, _. by apply mmdd_ShortForm.
Qed.

Lemma uintUnits_digits u : Forall (fun c => isDigit c = true) (uintUnits u).
Proof. induction u; cbn; constructor; done. Qed.

Lemma intToString_no_bar y : BAR ∉ intToString y.
Proof.
  assert (forall u, BAR ∉ uintUnits u) as Hu.
  { intros u Hin. pose proof (uintUnits_digits u) as Hd.
    rewrite Forall_forall in Hd. by specialize (Hd _ Hin). }
  unfold intToString. destruct (Z.to_int y); [done|].
  intros [Heq|Hin]%elem_of_cons; [done | by apply Hu in Hin].
Qed.

Lemma dashed_no_bar y m d :
  (0 <= m < 100)%Z -> (0 <= d < 100)%Z -> BAR ∉ dashed y m d.
Proof.
  intros (m1 & m2 & Hm & Hm1 & Hm2)%twoDigits_digits
         (d1 & d2 & Hd & Hd1 & Hd2)%twoDigits_digits.
  unfold dashed. rewrite Hm, Hd.
  rewrite !elem_of_app, !elem_of_cons, elem_of_nil.
  pose proof (intToString_no_bar y).
  intros [?|[[?|?]|[[?|[?|?]]|[[?|?]|[?|[?|?]]]]]]; try done;
    subst; done.
Qed.

Variable randomUUID : nat -> jsstring.
Variable now : jsstring.
Variable currentYear : Z.

(** The dates of a trip are the short dates of its date line, read in the
    base year. *)
Lemma makeTrip_dates nth l g1 g2 name purpose knoxId :
  dateMatch l = Some (g1, g2) ->
  let t := makeTrip randomUUID now currentYear nth g1 g2 name purpose knoxId in
  exists ms ds me de,
    ShortForm g1 ms ds /\
    match g2 with
    | Some e => ShortForm e me de
    | None => me = ms /\ de = ds
    end /\
    BusinessTrip.startDate t =
      dashed (if (me <? ms)%Z then currentYear - 1 else currentYear)%Z ms ds /\
    BusinessTrip.endDate t = dashed currentYear me de.
Proof.
  intros [(ms & ds & H1) H2]%dateMatch_inv. cbn.
  destruct g2 as [e|].
  - destruct H2 as [Hne (me & de & H2)]. exists ms, ds, me, de.
    destruct e as [|x e]; [done|].
    rewrite (normalizeDateRange_short _ _ _ _ _ _ _ H1 H2). done.
  - exists ms, ds, ms, ds.
    rewrite (normalizeDateRange_short _ _ _ _ _ _ _ H1 H1). done.
Qed.

Lemma makeTrip_no_bar nth l g1 g2 name purpose knoxId :
  dateMatch l = Some (g1, g2) ->
  let t := makeTrip randomUUID now currentYear nth g1 g2 name purpose knoxId in
  (BAR ∉ BusinessTrip.startDate t) /\ (BAR ∉ BusinessTrip.endDate t).
Proof.
  intros Hd t.
  destruct (makeTrip_dates nth l g1 g2 name purpose knoxId Hd)
    as (ms & ds & me & de & H1 & H2 & Hs & He).
  fold t in Hs, He. rewrite Hs, He.
  destruct (ShortForm_range _ _ _ H1).
  assert ((0 <= me < 100)%Z /\ (0 <= de < 100)%Z) as [? ?].
  { destruct g2; [by eapply ShortForm_range | destruct H2; by subst]. }
  split; by apply dashed_no_bar.
Qed.

End TripDates.

(** ** The deduplication *)

Section Dedup.
Import TripParser TripSpec.

Lemma app_sep_inj (x : N) (a1 a2 s1 s2 : jsstring) :
  x ∉ s1 -> x ∉ s2 -> a1 ++ x :: s1 = a2 ++ x :: s2 -> a1 = a2 /\ s1 = s2.
Proof.
  revert a2. induction a1 as [|y a1 IH]; intros [|z a2] H1 H2 Heq; cbn in Heq.
  - by injection Heq.
  - injection Heq as -> ->. exfalso. apply H1.
    apply elem_of_app. right. by left.
  - injection Heq as -> <-. exfalso. apply H2.
    apply elem_of_app. right. by left.
  - injection Heq as -> Heq. destruct (IH a2 H1 H2 Heq) as [-> ->]. done.
Qed.

(** On trips whose dates hold no ['|'] the key tells the triple. *)
Lemma tripKey_inj t1 t2 :
  barFree t1 -> barFree t2 ->
  tripKey t1 = tripKey t2 <-> triple t1 = triple t2.
Proof.
  intros [Hs1 He1] [Hs2 He2]. unfold tripKey, triple. split.
  - intros Heq.
    assert (forall n s e : jsstring,
              n ++ [BAR] ++ s ++ [BAR] ++ e = (n ++ BAR :: s) ++ BAR :: e) as Hassoc
      by (intros; by rewrite <- app_assoc).
    rewrite !Hassoc in Heq.
    apply app_sep_inj in Heq as [Heq ->]; [|done..].
    apply app_sep_inj in Heq as [-> ->]; done.
  - by intros [= -> -> ->].
Qed.

Variable memberMap : gmap jsstring (list TeamMember.t).

Lemma ambiguousOf_cons t ts :
  ambiguousOf memberMap (t :: ts) =
    match BusinessTrip.knoxId t, memberMap !! BusinessTrip.name t with
    | None, Some cs =>
        if bool_decide (1 < length cs)%nat then [Ambiguous.mk t cs] else []
    | _, _ => []
    end ++ ambiguousOf memberMap ts.
Proof. reflexivity. Qed.

Lemma dedup_fold ts : forall d earlier,
  Forall barFree ts ->
  (forall t, barFree t -> tripKey t ∈ seen d <-> triple t ∈ earlier) ->
  uniqueTrips (foldl (dedupStep memberMap) d ts) =
    uniqueTrips d ++ firstOccurrences earlier ts /\
  uniqueAmbiguousTrips (foldl (dedupStep memberMap) d ts) =
    uniqueAmbiguousTrips d ++ ambiguousOf memberMap (firstOccurrences earlier ts).
Proof.
  induction ts as [|t ts IH]; intros d earlier Hok Hseen;
    cbn [foldl firstOccurrences].
  - cbn. by rewrite !app_nil_r.
  - inversion Hok as [|? ? Ht Hts]; subst.
    unfold dedupStep at 2 4.
    destruct (decide (tripKey t ∈ seen d)) as [Hin|Hin].
    + rewrite bool_decide_eq_true_2 by done.
      rewrite (bool_decide_eq_true_2 (triple t ∈ earlier)) by (by apply Hseen).
      by apply IH.
    + rewrite bool_decide_eq_false_2 by done.
      rewrite (bool_decide_eq_false_2 (triple t ∈ earlier))
        by (by rewrite <- Hseen).
      match goal with
      | |- context [foldl _ ?d1 ts] =>
          destruct (IH d1 (triple t :: earlier) Hts) as [-> ->]
      end.
      * intros t' Ht'. cbn [seen]. rewrite elem_of_union, elem_of_singleton.
        rewrite elem_of_cons, (tripKey_inj t' t), Hseen by done. done.
      * cbn [uniqueTrips uniqueAmbiguousTrips].
        split; [by rewrite <- app_assoc|].
        rewrite ambiguousOf_cons.
        destruct (BusinessTrip.knoxId t); [done|].
        destruct (memberMap !! BusinessTrip.name t); [|done].
        case_bool_decide; [|done]. by rewrite <- app_assoc.
Qed.

Lemma dedup_spec ts :
  Forall barFree ts ->
  uniqueTrips (dedup memberMap ts) = firstOccurrences [] ts /\
  uniqueAmbiguousTrips (dedup memberMap ts) =
    ambiguousOf memberMap (firstOccurrences [] ts).
Proof.
  intros Hok. unfold dedup.
  match goal with
  | |- context [foldl _ ?d0 ts] => apply (dedup_fold ts d0 [] Hok)
  end.
  intros t _. cbn. by rewrite elem_of_empty, elem_of_nil.
Qed.

(** What [firstOccurrences] keeps: the elements before which the same triple
    does not occur. *)
Lemma firstOccurrences_spec ts : forall earlier t,
  t ∈ firstOccurrences earlier ts <->
  exists k, ts !! k = Some t /\ (triple t ∉ earlier) /\
    forall j t', (j < k)%nat -> ts !! j = Some t' -> triple t' <> triple t.
Proof.
  induction ts as [|x ts IH]; intros earlier t; cbn.
  - split; [by intros ?%elem_of_nil | by intros (k & ? & _)].
  - case_bool_decide as Hx.
    + rewrite IH. split.
      * intros (k & Hk & Ht & Hfirst). exists (S k). split; [done|]. split; [done|].
        intros [|j] t' Hj Hj'; cbn in Hj'.
        -- injection Hj' as <-. congruence.
        -- eapply Hfirst; [|done]. lia.
      * intros ([|k] & Hk & Ht & Hfirst); cbn in Hk.
        -- injection Hk as <-. done.
        -- exists k. split; [done|]. split; [done|].
           intros j t' Hj Hj'. apply (Hfirst (S j)); [lia | done].
    + rewrite elem_of_cons, IH. split.
      * intros [->|(k & Hk & Ht & Hfirst)].
        -- exists 0%nat. split; [done|]. split; [done|]. intros; lia.
        -- exists (S k). split; [done|].
           split; [by intros ?; apply Ht; right|].
           intros [|j] t' Hj Hj'; cbn in Hj'.
           ++ injection Hj' as <-. intros Heq. apply Ht. rewrite <- Heq. by left.
           ++ eapply Hfirst; [|done]. lia.
      * intros ([|k] & Hk & Ht & Hfirst); cbn in Hk.
        -- injection Hk as <-. by left.
        -- right. exists k. split; [done|]. split.
           ++ intros [Heq|Hin]%elem_of_cons; [|done].
              apply (Hfirst 0%nat x); [lia | done | done].
           ++ intros j t' Hj Hj'. apply (Hfirst (S j)); [lia | done].
Qed.

Lemma firstOccurrences_NoDup ts : forall earlier,
  NoDup (triple <$> firstOccurrences earlier ts).
Proof.
  induction ts as [|x ts IH]; intros earlier; cbn; [constructor|].
  case_bool_decide; [done|]. cbn. constructor; [|done].
  intros (t & Heq & Hin)%list_elem_of_fmap.
  apply firstOccurrences_spec in Hin as (k & _ & Hnot & _).
  apply Hnot. rewrite <- Heq. by left.
Qed.

Lemma firstOccurrences_sublist ts : forall earlier,
  firstOccurrences earlier ts `sublist_of` ts.
Proof.
  induction ts as [|x ts IH]; intros earlier; cbn; [done|].
  case_bool_decide; [by apply sublist_cons | by apply sublist_skip].
Qed.

(** Every trip has a kept trip of the same triple. *)
Lemma firstOccurrences_covers ts : forall earlier t,
  t ∈ ts -> triple t ∉ earlier ->
  exists t', t' ∈ firstOccurrences earlier ts /\ triple t' = triple t.
Proof.
  induction ts as [|x ts IH]; intros earlier t Hin Hnot; [by apply elem_of_nil in Hin|].
  cbn. apply elem_of_cons in Hin as [->|Hin].
  - rewrite bool_decide_eq_false_2 by done. exists x. split; [by left | done].
  - case_bool_decide as Hx; [by apply IH|].
    destruct (decide (triple t = triple x)) as [Heq|Hne].
    + exists x. split; [by left | done].
    + destruct (IH (triple x :: earlier) t Hin) as (t' & Ht' & Heq);
        [by intros [?|?]%elem_of_cons|].
      exists t'. split; [by right | done].
Qed.

Lemma ambiguousOf_spec ts a :
  a ∈ ambiguousOf memberMap ts <->
  exists t cs, a = Ambiguous.mk t cs /\ t ∈ ts /\
    BusinessTrip.knoxId t = None /\
    memberMap !! BusinessTrip.name t = Some cs /\ (1 < length cs)%nat.
Proof.
  unfold ambiguousOf. rewrite list_elem_of_In, in_flat_map. split.
  - intros (t & Ht%list_elem_of_In & Ha). exists t.
    destruct (BusinessTrip.knoxId t); [by apply in_nil in Ha|].
    destruct (memberMap !! BusinessTrip.name t) as [cs|]; [|by apply in_nil in Ha].
    case_bool_decide; [|by apply in_nil in Ha].
    destruct Ha as [<-|[]]. exists cs. done.
  - intros (t & cs & -> & Ht & Hk & Hm & Hlen). exists t.
    split; [by apply list_elem_of_In|]. rewrite Hk, Hm.
    rewrite bool_decide_eq_true_2 by done. by left.
Qed.

End Dedup.

(** ** What the scan leaves in its state *)

Section ScanState.
Import TripParser TripSpec.

Variable randomUUID : nat -> jsstring.
Variable now : jsstring.
Variable memberMap : gmap jsstring (list TeamMember.t).
Variable lines : list jsstring.
Variable currentYear : Z.

Local Abbreviation scanLines := (scanLines randomUUID now memberMap lines currentYear).
Local Abbreviation pushBlock := (pushBlock randomUUID now memberMap lines currentYear).
Local Abbreviation blockTrip := (blockTrip randomUUID now memberMap lines currentYear).
Local Abbreviation scanInvariant :=
  (scanInvariant randomUUID now memberMap lines currentYear).

Lemma setAdd_elem x y (s : list jsstring) : x ∈ setAdd y s <-> x = y \/ x ∈ s.
Proof.
  unfold setAdd. case_bool_decide.
  - split; [auto | by intros [->|]].
  - rewrite elem_of_app, list_elem_of_singleton. tauto.
Qed.

Lemma setAdd_NoDup y (s : list jsstring) : NoDup s -> NoDup (setAdd y s).
Proof.
  intros Hs. unfold setAdd. case_bool_decide; [done|].
  apply NoDup_app. split; [done|].
  split; [by intros x Hx ->%list_elem_of_singleton | apply NoDup_singleton].
Qed.

Lemma blockTrip_inv k i t :
  blockTrip k i = Some t ->
  exists l g1 g2 n p,
    lines !! i = Some l /\ dateMatch l = Some (g1, g2) /\
    lines !! (i + 1)%nat = Some n /\ lines !! (i + 2)%nat = Some p /\
    t = makeTrip randomUUID now currentYear k g1 g2 (trim n) (trim p)
          (knoxOf memberMap (trim n)).
Proof.
  unfold TripSpec.blockTrip.
  destruct (lines !! i) as [l|]; [|done].
  destruct (lines !! (i + 1)%nat) as [n|]; [|done].
  destruct (lines !! (i + 2)%nat) as [p|]; [|done].
  destruct (dateMatch l) as [[g1 g2]|] eqn:Hd; [|done].
  intros [= <-]. exists l, g1, g2, n, p. done.
Qed.

Lemma scanInvariant_push i st :
  startsBlock lines i = true -> scanInvariant st -> scanInvariant (pushBlock i st).
Proof.
  intros Hb (Hfrom & Hunk & Hnd & Hnone).
  destruct (pushBlock_trips randomUUID now memberMap lines currentYear i st Hb)
    as (t & Ht & ->).
  unfold TripSpec.scanInvariant, noteUnknown. cbn. repeat split.
  - intros t' [Hin| ->%list_elem_of_singleton]%elem_of_app; eauto.
  - intros t' [Hin| ->%list_elem_of_singleton]%elem_of_app Hmm.
    + destruct (memberMap !! BusinessTrip.name t); [eauto|].
      apply setAdd_elem. eauto.
    + rewrite Hmm. apply setAdd_elem. eauto.
  - destruct (memberMap !! BusinessTrip.name t); [done|]. by apply setAdd_NoDup.
  - intros x. destruct (memberMap !! BusinessTrip.name t) eqn:Hmm; [eauto|].
    intros [->|Hin]%setAdd_elem; eauto.
Qed.

Lemma scanLines_scanInvariant budget i st st' :
  scanInvariant st -> scanLines budget i st = Normal st' -> scanInvariant st'.
Proof.
  apply (scanLines_invariant randomUUID now memberMap lines currentYear).
  apply scanInvariant_push.
Qed.

End ScanState.

(** ** [parseTripText] *)

Section ParseTripText.
Import TripParser TripSpec.

Variable randomUUID : nat -> jsstring.
Variable now : jsstring.
Variable clockYear : Z.
Variable text : jsstring.
Variable roster : list TeamMember.t.

Lemma textLines_trimmed l : l ∈ textLines text -> trim l = l /\ l <> [].
Proof.
  unfold textLines. intros [Hne (s & -> & _)%list_elem_of_fmap]%list_elem_of_filter.
  split; [apply trim_idemp | done].
Qed.

(** [parseTripText] returns; its answer is made of the trips of the scan,
    without the repeated triples, of the unknown names of the scan, and of
    the ambiguous entries of the trips that it returns. *)
Lemma parseTripText_char :
  exists mm st,
    buildMemberMap roster ∅ = Normal mm /\
    (forall k, mm !! k =
       match matching roster k with [] => None | cs => Some cs end) /\
    scanText randomUUID now clockYear text roster = Normal (mm, st) /\
    scanLines randomUUID now mm (textLines text)
      (baseYear clockYear (textLines text)) (length (textLines text)) 0
      {| scanTrips := []; scanUnknown := [] |} = Normal st /\
    scanInvariant randomUUID now mm (textLines text)
      (baseYear clockYear (textLines text)) st /\
    Forall barFree (scanTrips st) /\
    parseTripText randomUUID now clockYear text roster =
      Normal {| trips := firstOccurrences [] (scanTrips st);
                unknownNames := scanUnknown st;
                ambiguousTrips :=
                  ambiguousOf mm (firstOccurrences [] (scanTrips st)) |}.
Proof.
  destruct (buildMemberMap_empty roster) as (mm & Hmm & Hlookup).
  destruct (scanLines_total randomUUID now mm (textLines text)
              (baseYear clockYear (textLines text)) (length (textLines text)) 0%nat
              {| scanTrips := []; scanUnknown := [] |}) as [st Hst]; [lia|].
  assert (scanInvariant randomUUID now mm (textLines text)
            (baseYear clockYear (textLines text)) st) as Hinv.
  { eapply scanLines_scanInvariant; [|exact Hst].
    repeat split; cbn; try (intros ? ?%elem_of_nil; done). constructor. }
  assert (Forall barFree (scanTrips st)) as Hbar.
  { apply Forall_forall. intros t Ht.
    destruct Hinv as (Hfrom & _). destruct (Hfrom t Ht) as (k & i & _ & Hk).
    apply blockTrip_inv in Hk as (l & g1 & g2 & n & p & _ & Hd & _ & _ & ->).
    eapply makeTrip_no_bar. exact Hd. }
  assert (scanText randomUUID now clockYear text roster = Normal (mm, st)) as Hscan.
  { unfold scanText. rewrite Hmm. cbn [mbind completion_bind cbind].
    by rewrite Hst. }
  exists mm, st. do 6 (split; [done|]).
  unfold parseTripText. rewrite Hscan. cbn [mbind completion_bind cbind fst snd].
  destruct (dedup_spec mm (scanTrips st) Hbar) as [-> ->]. done.
Qed.

End ParseTripText.

(** C4. [parseTripText] is total: whatever the text and the roster, it
    returns an answer and throws nothing.  Every trip of the answer comes
    from a date line that is followed by a line which passes for a name and
    by a purpose line: the other lines are skipped and yield no trip. *)
Theorem parseTripText_total
    (randomUUID : nat -> jsstring) (now : jsstring) (clockYear : Z)
    (text : jsstring) (roster : list TeamMember.t) :
  exists r,
    TripParser.parseTripText randomUUID now clockYear text roster = Normal r /\
    forall t, t ∈ TripParser.trips r ->
      exists i l n p,
        TripParser.textLines text !! i = Some l /\
        is_Some (TripParser.dateMatch l) /\
        TripParser.textLines text !! (i + 1)%nat = Some n /\
        TripParser.textLines text !! (i + 2)%nat = Some p /\
        TripParser.isName n = true /\
        BusinessTrip.name t = n /\ BusinessTrip.purpose t = p.
Proof.
  destruct (parseTripText_char randomUUID now clockYear text roster)
    as (mm & st & _ & _ & _ & _ & (Hfrom & _) & _ & ->).
  eexists. split; [reflexivity|]. cbn. intros t Ht.
  apply firstOccurrences_spec in Ht as (k & Hk%list_elem_of_lookup_2 & _).
  destruct (Hfrom t Hk) as (nth & i & Hb & Hbt).
  apply startsBlock_inv in Hb as (l & g1 & g2 & n & p & Hl & Hd & Hn & Hp & Hname & _).
  apply blockTrip_inv in Hbt as (l' & g1' & g2' & n' & p' & Hl' & Hd' & Hn' & Hp' & ->).
  rewrite Hl in Hl'. rewrite Hn in Hn'. rewrite Hp in Hp'.
  injection Hl' as <-. injection Hn' as <-. injection Hp' as <-.
  destruct (textLines_trimmed text n) as [Htn _]; [by eapply list_elem_of_lookup_2|].
  destruct (textLines_trimmed text p) as [Htp _]; [by eapply list_elem_of_lookup_2|].
  rewrite Htn in Hname.
  exists i, l, n, p. cbn. rewrite Htn, Htp. eauto 10.
Qed.

(** A pasted block and a stray line: the answer holds one trip, made of
    the block. *)
Lemma parseTripText_total_witness :
  exists r,
    TripParser.parseTripText (fun k => intToString (Z.of_nat k)) (js "2026-11-03")
      2026 (TripParser.unlines [js "주간 일정"; js "02-03"; js "Lee"; js "출장"]) []
      = Normal r /\
    forall t, t ∈ TripParser.trips r ->
      BusinessTrip.name t = js "Lee" /\ BusinessTrip.purpose t = js "출장".
Proof.
  destruct (parseTripText_total (fun k => intToString (Z.of_nat k))
              (js "2026-11-03") 2026
              (TripParser.unlines [js "주간 일정"; js "02-03"; js "Lee"; js "출장"]) [])
    as (r & Hr & Hfrom).
  exists r. split; [exact Hr|]. intros t Ht.
  destruct (Hfrom t Ht) as (i & l & n & p & Hl & Hd & Hn & Hp & _ & Hname & Hpurpose).
  rewrite Hname, Hpurpose.
  destruct i as [|[|[|[|i]]]]; vm_compute in Hl.
  - injection Hl as <-. destruct Hd as [? Hd]. vm_compute in Hd. discriminate Hd.
  - vm_compute in Hn, Hp. injection Hn as <-. injection Hp as <-. done.
  - vm_compute in Hp. discriminate Hp.
  - vm_compute in Hp. discriminate Hp.
  - discriminate Hl.
Defined.

(** C3. For every trip that [parseTripText] returns: when exactly one
    roster member has the trip's name (the member's name being trimmed), the
    trip carries that member's [knoxId]; when two or more have it, the trip
    has no [knoxId] and [ambiguousTrips] holds the trip with all these
    members; when none has it, [unknownNames] holds the name.  No name is
    twice in [unknownNames]. *)
Theorem parseTripText_roster
    (randomUUID : nat -> jsstring) (now : jsstring) (clockYear : Z)
    (text : jsstring) (roster : list TeamMember.t) :
  exists r,
    TripParser.parseTripText randomUUID now clockYear text roster = Normal r /\
    NoDup (TripParser.unknownNames r) /\
    forall t, t ∈ TripParser.trips r ->
      let candidates := TripSpec.matching roster (BusinessTrip.name t) in
      (forall m, candidates = [m] ->
         BusinessTrip.knoxId t = TeamMember.knoxId m) /\
      ((2 <= length candidates)%nat ->
         BusinessTrip.knoxId t = None /\
         Ambiguous.mk t candidates ∈ TripParser.ambiguousTrips r) /\
      (candidates = [] ->
         BusinessTrip.name t ∈ TripParser.unknownNames r).
Proof.
  destruct (parseTripText_char randomUUID now clockYear text roster)
    as (mm & st & _ & Hmm & _ & _ & (Hfrom & Hunk & Hnd & _) & _ & ->).
  eexists. split; [reflexivity|]. cbn. split; [done|]. intros t Ht.
  pose proof Ht as (k & Hk%list_elem_of_lookup_2 & _)%firstOccurrences_spec.
  destruct (Hfrom t Hk) as (nth & i & _ & Hbt).
  assert (BusinessTrip.knoxId t = TripSpec.knoxOf mm (BusinessTrip.name t)) as Hknox.
  { apply blockTrip_inv in Hbt as (l & g1 & g2 & n & p & _ & _ & _ & _ & ->). done. }
  specialize (Hmm (BusinessTrip.name t)). unfold TripSpec.knoxOf in Hknox.
  split; [|split].
  - intros m Hm. rewrite Hm in Hmm. by rewrite Hknox, Hmm.
  - intros Hlen.
    destruct (TripSpec.matching roster (BusinessTrip.name t))
      as [|c [|c' cs]] eqn:Hc; cbn in Hlen; try lia.
    assert (BusinessTrip.knoxId t = None) as Hnone by (by rewrite Hknox, Hmm).
    split; [done|].
    apply ambiguousOf_spec. exists t, (c :: c' :: cs).
    do 4 (split; [done|]). cbn. lia.
  - intros Hnone. rewrite Hnone in Hmm. by apply Hunk.
Qed.

(** A roster with two members called Kim and one called Lee; trips of Kim,
    Lee and Park. *)
Lemma parseTripText_roster_witness :
  let kim1 := TeamMember.mk (js "m1") (js " Kim ") (Some (js "kim.a")) (js "Sales") in
  let kim2 := TeamMember.mk (js "m2") (js "Kim") (Some (js "kim.b")) (js "Design") in
  let lee := TeamMember.mk (js "m3") (js "Lee") (Some (js "lee")) (js "Design") in
  let text :=
    TripParser.unlines
      [js "02-03"; js "Kim"; js "출장"; js "02-04"; js "Lee"; js "교육";
       js "02-05"; js "Park"; js "연차"] in
  exists r tKim tLee tPark,
    TripParser.parseTripText (fun k => intToString (Z.of_nat k)) (js "2026-11-03")
      2026 text [kim1; kim2; lee] = Normal r /\
    TripParser.trips r = [tKim; tLee; tPark] /\
    BusinessTrip.knoxId tKim = None /\
    Ambiguous.mk tKim [kim1; kim2] ∈ TripParser.ambiguousTrips r /\
    BusinessTrip.knoxId tLee = Some (js "lee") /\
    js "Park" ∈ TripParser.unknownNames r.
Proof.
  intros kim1 kim2 lee text.
  destruct (parseTripText_roster (fun k => intToString (Z.of_nat k))
              (js "2026-11-03") 2026 text [kim1; kim2; lee])
    as (r & Hr & Hnd & Hall).
  pose proof Hr as Hr'. vm_compute in Hr'. injection Hr' as <-.
  pose proof (Hall _ (list_elem_of_here _ _)) as HKim.
  pose proof (Hall _ (list_elem_of_further _ _ _ (list_elem_of_here _ _))) as HLee.
  pose proof (Hall _ (list_elem_of_further _ _ _
                        (list_elem_of_further _ _ _ (list_elem_of_here _ _))))
    as HPark.
  cbv zeta in HKim, HLee, HPark.
  destruct HKim as (_ & HKim & _). destruct HKim as [HKim1 HKim2]; [vm_compute; lia|].
  destruct HLee as (HLee & _). specialize (HLee lee eq_refl).
  destruct HPark as (_ & _ & HPark). specialize (HPark eq_refl).
  eexists _, _, _, _. split; [exact Hr|]. split; [reflexivity|].
  split; [exact HKim1|]. split; [exact HKim2|]. split; [exact HLee | exact HPark].
Defined.

(** C8. The trips that [parseTripText] returns are those of the scan
    without the repetitions.  The scan makes its trips in the order of the
    text: [starts] gives, for each trip of the scan, the line of the text that
    opens its block, and these lines increase.  No two returned trips have
    the same name, start date and end date; a trip of the scan is returned
    exactly when no trip before it, that is no trip of a block that is
    earlier in the text, has its triple; the order of the text is kept; and
    every entry of [ambiguousTrips] is about a returned trip. *)
Theorem parseTripText_dedup
    (randomUUID : nat -> jsstring) (now : jsstring) (clockYear : Z)
    (text : jsstring) (roster : list TeamMember.t) :
  let lines := TripParser.textLines text in
  exists mm st r (starts : list nat),
    TripParser.scanText randomUUID now clockYear text roster = Normal (mm, st) /\
    TripParser.parseTripText randomUUID now clockYear text roster = Normal r /\
    lines `sublist_of` (trim <$> split LF text) /\
    length starts = length (TripParser.scanTrips st) /\
    (forall a b ja jb, (a < b)%nat ->
       starts !! a = Some ja -> starts !! b = Some jb -> (ja < jb)%nat) /\
    (forall k j, starts !! k = Some j ->
       TripSpec.startsBlock lines j = true /\
       exists t,
         TripSpec.blockTrip randomUUID now mm lines
           (TripParser.baseYear clockYear lines) k j = Some t /\
         TripParser.scanTrips st !! k = Some t) /\
    NoDup (TripSpec.triple <$> TripParser.trips r) /\
    (forall t, t ∈ TripParser.trips r <->
       exists k, TripParser.scanTrips st !! k = Some t /\
         forall j t', (j < k)%nat -> TripParser.scanTrips st !! j = Some t' ->
           TripSpec.triple t' <> TripSpec.triple t) /\
    TripParser.trips r `sublist_of` TripParser.scanTrips st /\
    (forall a, a ∈ TripParser.ambiguousTrips r ->
       Ambiguous.trip a ∈ TripParser.trips r).
Proof.
  intros lines.
  destruct (parseTripText_char randomUUID now clockYear text roster)
    as (mm & st & _ & _ & Hscan & Hst & _ & _ & ->).
  destruct (scanLines_order _ _ _ _ _ _ _ _ _ Hst)
    as (starts & Hlen & Hin & Hinc & Hat).
  cbn [TripParser.scanTrips length Nat.add] in Hlen, Hat.
  exists mm, st. eexists. exists starts.
  split; [done|]. split; [reflexivity|]. cbn.
  split; [apply sublist_filter|].
  split; [done|]. split; [exact Hinc|]. split.
  { intros k j Hk. split; [|by apply Hat].
    apply Hin. by eapply list_elem_of_lookup_2. }
  split; [apply firstOccurrences_NoDup|].
  split.
  { intros t. rewrite firstOccurrences_spec. split.
    - intros (k & ? & _ & ?). eauto.
    - intros (k & ? & ?). exists k. split; [done|]. split; [|done].
      by intros ?%elem_of_nil. }
  split; [apply firstOccurrences_sublist|].
  intros a (t & cs & -> & Ht & _)%ambiguousOf_spec. done.
Qed.

(** The same block pasted twice, with another block in between: the answer
    holds the first copy and the other block; the three blocks open at the
    lines 0, 3 and 6. *)
Lemma parseTripText_dedup_witness :
  let text :=
    TripParser.unlines
      [js "02-03"; js "Kim"; js "출장"; js "02-04"; js "Lee"; js "교육";
       js "02-03"; js "Kim"; js "연차"] in
  exists mm st r (starts : list nat),
    TripParser.scanText (fun k => intToString (Z.of_nat k)) (js "2026-11-03")
      2026 text [] = Normal (mm, st) /\
    TripParser.parseTripText (fun k => intToString (Z.of_nat k)) (js "2026-11-03")
      2026 text [] = Normal r /\
    length (TripParser.scanTrips st) = 3%nat /\
    length starts = 3%nat /\
    (forall j, starts !! 2%nat = Some j ->
       TripSpec.startsBlock (TripParser.textLines text) j = true) /\
    BusinessTrip.purpose <$> TripParser.trips r = [js "출장"; js "교육"] /\
    NoDup (TripSpec.triple <$> TripParser.trips r).
Proof.
  intros text.
  destruct (parseTripText_dedup (fun k => intToString (Z.of_nat k))
              (js "2026-11-03") 2026 text [])
    as (mm & st & r & starts & Hst & Hr & _ & Hlen & _ & Hat & Hnd & _).
  pose proof Hst as Hst'. vm_compute in Hst'. injection Hst' as <- <-.
  pose proof Hr as Hr'. vm_compute in Hr'. injection Hr' as <-.
  eexists _, _, _, starts. split; [exact Hst|]. split; [exact Hr|].
  split; [reflexivity|]. split; [exact Hlen|].
  split; [intros j Hj; by apply (Hat 2%nat j)|].
  split; [reflexivity | exact Hnd].
Defined.

Section FirstOccurrence.
Import TripParser TripSpec.

(** Among the trips that are kept, the triple tells the trip. *)
Lemma firstOccurrences_unique ts earlier t1 t2 :
  t1 ∈ firstOccurrences earlier ts -> t2 ∈ firstOccurrences earlier ts ->
  triple t1 = triple t2 -> t1 = t2.
Proof.
  intros [i1 H1]%list_elem_of_lookup_1 [i2 H2]%list_elem_of_lookup_1 Heq.
  pose proof (firstOccurrences_NoDup ts earlier) as Hnd.
  assert (i1 = i2) as ->.
  { apply (NoDup_lookup _ i1 i2 (triple t1) Hnd).
    - by rewrite list_lookup_fmap, H1.
    - by rewrite list_lookup_fmap, H2, Heq. }
  congruence.
Qed.

(** Every trip of the scan has a first trip of its triple, at its place or
    before it, and that one is kept. *)
Lemma firstOccurrences_first ts k t :
  ts !! k = Some t ->
  exists k0 t0, (k0 <= k)%nat /\ ts !! k0 = Some t0 /\ triple t0 = triple t /\
    (forall j t', (j < k0)%nat -> ts !! j = Some t' -> triple t' <> triple t) /\
    t0 ∈ firstOccurrences [] ts.
Proof.
  intros Hk.
  destruct (firstOccurrences_covers ts [] t) as (t0 & Hin & Heq);
    [by eapply list_elem_of_lookup_2|by intros ?%elem_of_nil|].
  pose proof Hin as (k0 & Hk0 & _ & Hfirst)%firstOccurrences_spec.
  exists k0, t0. split.
  { destruct (decide (k0 <= k)%nat) as [|Hgt]; [done|].
    exfalso. apply (Hfirst k t); [lia|done|done]. }
  split; [done|]. split; [done|]. split; [|done].
  intros j t' Hj Hj'. rewrite <- Heq. by eapply Hfirst.
Qed.

End FirstOccurrence.

(** C1 (as amended). When the scan looks at a date line (a line that no
    earlier block took as its purpose) and two more lines follow, the first
    of which passes for a name, [parseTripText] makes one trip of the three
    lines: the next line is its name, the line after that its purpose, and
    its dates are those of the date line read in the base year.  The
    returned list holds exactly one trip of that name and these dates: that
    trip when no trip of the scan before it has them, and otherwise the
    first trip of the scan that has them, which comes from a block that is
    earlier in the text. *)
Theorem parseTripText_block
    (randomUUID : nat -> jsstring) (now : jsstring) (clockYear : Z)
    (text : jsstring) (roster : list TeamMember.t)
    (i : nat) (l g1 : jsstring) (g2 : option jsstring) (n p : jsstring) :
  let lines := TripParser.textLines text in
  TripSpec.visits lines 0 i ->
  lines !! i = Some l -> TripParser.dateMatch l = Some (g1, g2) ->
  lines !! (i + 1)%nat = Some n -> lines !! (i + 2)%nat = Some p ->
  TripParser.isName n = true ->
  exists mm st r t k,
    TripParser.scanText randomUUID now clockYear text roster = Normal (mm, st) /\
    TripParser.parseTripText randomUUID now clockYear text roster = Normal r /\
    TripParser.scanTrips st !! k = Some t /\
    TripSpec.blockTrip randomUUID now mm lines
      (TripParser.baseYear clockYear lines) k i = Some t /\
    BusinessTrip.name t = n /\ BusinessTrip.purpose t = p /\
    BusinessTrip.category t = TripParser.classifyPurpose p /\
    (let range :=
       TripParser.normalizeDateRange g1 (default g1 g2)
         (TripParser.baseYear clockYear lines) in
     BusinessTrip.startDate t = TripParser.startDate range /\
     BusinessTrip.endDate t = TripParser.endDate range) /\
    ((forall j t', (j < k)%nat -> TripParser.scanTrips st !! j = Some t' ->
        TripSpec.triple t' <> TripSpec.triple t) ->
     t ∈ TripParser.trips r) /\
    exists k0 i0 t0,
      (k0 <= k)%nat /\ (i0 <= i)%nat /\ (k0 < k -> i0 < i)%nat /\
      TripSpec.startsBlock lines i0 = true /\
      TripSpec.blockTrip randomUUID now mm lines
        (TripParser.baseYear clockYear lines) k0 i0 = Some t0 /\
      TripParser.scanTrips st !! k0 = Some t0 /\
      TripSpec.triple t0 = TripSpec.triple t /\
      (forall j t', (j < k0)%nat -> TripParser.scanTrips st !! j = Some t' ->
         TripSpec.triple t' <> TripSpec.triple t) /\
      t0 ∈ TripParser.trips r /\
      (forall t', t' ∈ TripParser.trips r ->
         TripSpec.triple t' = TripSpec.triple t -> t' = t0).
Proof.
  intros lines Hv Hl Hd Hn Hp Hname.
  destruct (parseTripText_char randomUUID now clockYear text roster)
    as (mm & st & Hmm & _ & Hscan & Hst & _ & _ & ->).
  destruct (textLines_trimmed text n) as [Htn _]; [by eapply list_elem_of_lookup_2|].
  destruct (textLines_trimmed text p) as [Htp _]; [by eapply list_elem_of_lookup_2|].
  assert (TripSpec.startsBlock lines i = true) as Hb.
  { unfold TripSpec.startsBlock. rewrite Hl, Hn, Hd, Htn, Hname.
    rewrite bool_decide_eq_true_2 by eauto.
    rewrite bool_decide_eq_true_2; [done|]. by eapply lookup_lt_Some. }
  destruct (scanLines_order _ _ _ _ _ _ _ _ _ Hst)
    as (starts & Hlen & Hin & Hinc & Hat).
  cbn [TripParser.scanTrips length Nat.add] in Hlen, Hat. fold lines in Hin, Hat.
  assert (i ∈ starts) as [k Hk]%list_elem_of_lookup_1 by (by apply Hin).
  destruct (Hat k i Hk) as (t & Hbt & Ht).
  pose proof Hbt as Hbt'.
  apply blockTrip_inv in Hbt' as (l' & g1' & g2' & n' & p' & Hl' & Hd' & Hn' & Hp' & Et).
  fold lines in Hl', Hn', Hp'.
  rewrite Hl in Hl'. rewrite Hn in Hn'. rewrite Hp in Hp'.
  injection Hl' as <-. injection Hn' as <-. injection Hp' as <-.
  rewrite Hd in Hd'. injection Hd' as <- <-.
  destruct (firstOccurrences_first _ k t Ht)
    as (k0 & t0 & Hle & Hk0 & Heq & Hfirst & Hkept).
  assert (is_Some (starts !! k0)) as [i0 Hi0].
  { apply lookup_lt_is_Some. apply lookup_lt_Some in Hk0. lia. }
  destruct (Hat k0 i0 Hi0) as (t0' & Hbt0 & Ht0').
  rewrite Hk0 in Ht0'. injection Ht0' as <-.
  assert (k0 < k -> i0 < i)%nat as Hlt by (intros Hlt; by apply (Hinc k0 k)).
  assert (i0 <= i)%nat as Hile.
  { destruct (decide (k0 = k)) as [->|]; [|lia].
    rewrite Hk in Hi0. injection Hi0 as <-. lia. }
  exists mm, st. eexists. exists t, k. split; [exact Hscan|].
  split; [reflexivity|]. split; [exact Ht|]. split; [exact Hbt|].
  cbn [TripParser.trips]. rewrite Et. cbn. rewrite Htn, Htp.
  split; [done|]. split; [done|]. split; [done|]. split.
  { split.
    - destruct g2 as [[|c e]|]; try done.
      by apply dateMatch_inv in Hd as [_ [? _]].
    - destruct g2 as [[|c e]|]; try done.
      by apply dateMatch_inv in Hd as [_ [? _]]. }
  rewrite Htn, Htp in Et. rewrite <- Et.
  split.
  { intros Hnone. apply firstOccurrences_spec. exists k.
    split; [done|]. split; [by intros ?%elem_of_nil|done]. }
  exists k0, i0, t0. split; [done|]. split; [done|]. split; [done|].
  split; [apply Hin; by eapply list_elem_of_lookup_2|].
  split; [done|]. split; [done|]. split; [done|]. split; [done|].
  split; [done|].
  intros t' Ht' Heq'. apply (firstOccurrences_unique _ _ _ _ Ht' Hkept).
  by rewrite Heq'.
Qed.

(** The block "12-29 ~ 02-12 / Kim / 연차" pasted in 2026. *)
Lemma parseTripText_block_witness :
  exists mm st r t,
    TripParser.scanText (fun k => intToString (Z.of_nat k)) (js "2026-11-03") 2026
      (TripParser.unlines [js "12-29 ~ 02-12"; js " Kim"; []; js "연차"]) []
      = Normal (mm, st) /\
    TripParser.parseTripText (fun k => intToString (Z.of_nat k)) (js "2026-11-03") 2026
      (TripParser.unlines [js "12-29 ~ 02-12"; js " Kim"; []; js "연차"]) []
      = Normal r /\
    t ∈ TripParser.scanTrips st /\
    BusinessTrip.name t = js "Kim" /\ BusinessTrip.purpose t = js "연차" /\
    BusinessTrip.category t = TripCategory.vacation /\
    BusinessTrip.startDate t = js "2025-12-29" /\
    BusinessTrip.endDate t = js "2026-02-12" /\
    exists t0, t0 ∈ TripParser.trips r /\ TripSpec.triple t0 = TripSpec.triple t /\
      forall t', t' ∈ TripParser.trips r ->
        TripSpec.triple t' = TripSpec.triple t -> t' = t0.
Proof.
  destruct (parseTripText_block
              (fun k => intToString (Z.of_nat k)) (js "2026-11-03") 2026
              (TripParser.unlines [js "12-29 ~ 02-12"; js " Kim"; []; js "연차"]) []
              0 (js "12-29 ~ 02-12") (js "12-29") (Some (js "02-12"))
              (js "Kim") (js "연차"))
    as (mm & st & r & t & k & Hst & Hr & Ht & _ & Hn & Hp & Hc & [Hs He] & _
        & k0 & i0 & t0 & _ & _ & _ & _ & _ & _ & Heq & _ & Hkept & Honly);
    try reflexivity.
  - apply TripSpec.visits_here.
  - exists mm, st, r, t. split; [exact Hst|]. split; [exact Hr|].
    split; [by eapply list_elem_of_lookup_2|].
    split; [exact Hn|]. split; [exact Hp|]. split; [exact Hc|].
    split; [exact Hs|]. split; [exact He|].
    exists t0. split; [exact Hkept|]. split; [exact Heq|exact Honly].
Defined.

(** A date line that an earlier block took as its purpose opens no block,
    and a block that repeats a name and its dates adds no trip.  In
    "01-02 / Kim / 01-03 / Lee / trip / 01-02 / Kim / again" the third line
    is a date line followed by a name and a purpose, and so is the sixth;
    the answer holds no trip for Lee and no trip whose purpose is
    "again". *)
Lemma parseTripText_consumed_date_line :
  let text :=
    TripParser.unlines
      [js "01-02"; js "Kim"; js "01-03"; js "Lee"; js "trip";
       js "01-02"; js "Kim"; js "again"] in
  let lines := TripParser.textLines text in
  (lines !! 2%nat = Some (js "01-03") /\
   is_Some (TripParser.dateMatch (js "01-03")) /\
   lines !! 3%nat = Some (js "Lee") /\ lines !! 4%nat = Some (js "trip") /\
   TripParser.isName (js "Lee") = true) /\
  (lines !! 5%nat = Some (js "01-02") /\
   is_Some (TripParser.dateMatch (js "01-02")) /\
   lines !! 6%nat = Some (js "Kim") /\ lines !! 7%nat = Some (js "again") /\
   TripParser.isName (js "Kim") = true) /\
  exists r,
    TripParser.parseTripText (fun k => intToString (Z.of_nat k)) (js "2026-11-03")
      2026 text [] = Normal r /\
    length (TripParser.trips r) = 1%nat /\
    forall t, t ∈ TripParser.trips r ->
      BusinessTrip.name t <> js "Lee" /\ BusinessTrip.purpose t <> js "again".
Proof.
  cbv zeta. split; [|split].
  - repeat split. by eexists.
  - repeat split. by eexists.
  - eexists. split; [vm_compute; reflexivity|]. split; [reflexivity|].
    intros t ->%list_elem_of_singleton. split; discriminate.
Qed.
(** ** The resolver dialog *)

Section Dialog.
Import ResolverDialog.

Lemma isAllResolved_spec (ambiguousTrips : list Ambiguous.t)
    (resolutions : Resolutions) :
  isAllResolved ambiguousTrips resolutions = true <->
  forall t, t ∈ ambiguousTrips ->
    prop resolutions (BusinessTrip.id (Ambiguous.trip t)) <> Undefined.
Proof.
  unfold isAllResolved. rewrite forallb_forall. split.
  - intros H t Ht%list_elem_of_In. specialize (H t Ht).
    by apply bool_decide_eq_true in H.
  - intros H t Ht%list_elem_of_In. apply bool_decide_eq_true. by apply H.
Qed.

(** The read of an own property. *)
Lemma prop_own (resolutions : Resolutions) key v :
  resolutions !! key = Some v -> prop resolutions key = ownValue v.
Proof. intros H. unfold prop. by rewrite H. Qed.

(** The read of a name that the object does not hold. *)
Lemma prop_absent (resolutions : Resolutions) key :
  resolutions !! key = None ->
  prop resolutions key =
    if bool_decide (key ∈ objectPrototypeNames) then Inherited key else Undefined.
Proof. intros H. unfold prop. by rewrite H. Qed.

(** Under a name that [Object.prototype] does not have, a read is defined
    exactly when the object holds a [knoxId] there. *)
Lemma prop_assigned (resolutions : Resolutions) key :
  key ∉ objectPrototypeNames ->
  (prop resolutions key <> Undefined <->
   exists knoxId, resolutions !! key = Some (Some knoxId)).
Proof.
  intros Hkey. unfold prop.
  destruct (resolutions !! key) as [[k|]|]; cbn.
  - split; [eauto|done].
  - split; [done|]. by intros [k Hk].
  - rewrite bool_decide_eq_false_2 by done. split; [done|]. by intros [k Hk].
Qed.

Lemma reachable_rendered (ambiguousTrips : list Ambiguous.t) (r : Resolutions) :
  reachable ambiguousTrips r ->
  forall tripId knoxId, r !! tripId = Some knoxId ->
    rendered ambiguousTrips tripId knoxId.
Proof.
  induction 1 as [r|r tripId' knoxId' Hr IH Hren|r e Hr IH He];
    intros tripId knoxId Hlook.
  - cbn in Hlook. by rewrite lookup_empty in Hlook.
  - cbn in Hlook. unfold handleSelect in Hlook.
    destruct (decide (tripId' = tripId)) as [->|Hne].
    + rewrite lookup_insert_eq in Hlook. by injection Hlook as <-.
    + rewrite lookup_insert_ne in Hlook by done. eauto.
  - destruct He as [-> | ->]; cbn in Hlook.
    + destruct (confirmDisabled ambiguousTrips r); cbn in Hlook; eauto.
    + eauto.
Qed.

End Dialog.

(** When the confirm button is enabled.  It is enabled exactly when the
    read of [resolutions] under the id of every listed trip is defined; a
    click on the enabled button calls [onResolve] once, with that very map,
    and a click on the disabled button calls nothing.  When no listed trip
    has for id a name of [Object.prototype], the reads are defined exactly
    when the map holds a [knoxId] for every listed trip.  In the maps that
    clicks on the rendered buttons build, every entry is the [knoxId] of a
    candidate shown for a trip of that id. *)
Lemma confirm_gate
    (ambiguousTrips : list Ambiguous.t)
    (resolutions : ResolverDialog.Resolutions) :
  (ResolverDialog.confirmDisabled ambiguousTrips resolutions = false <->
   forall t, t ∈ ambiguousTrips ->
     ResolverDialog.prop resolutions (BusinessTrip.id (Ambiguous.trip t))
       <> ResolverDialog.Undefined) /\
  ((forall t, t ∈ ambiguousTrips ->
      BusinessTrip.id (Ambiguous.trip t) ∉ ResolverDialog.objectPrototypeNames) ->
   (ResolverDialog.confirmDisabled ambiguousTrips resolutions = false <->
    forall t, t ∈ ambiguousTrips ->
      exists knoxId,
        resolutions !! BusinessTrip.id (Ambiguous.trip t) = Some (Some knoxId))) /\
  (ResolverDialog.confirmDisabled ambiguousTrips resolutions = false ->
   ResolverDialog.click ambiguousTrips resolutions ResolverDialog.ClickConfirm
     = (resolutions, [ResolverDialog.onResolve resolutions])) /\
  (ResolverDialog.confirmDisabled ambiguousTrips resolutions = true ->
   ResolverDialog.click ambiguousTrips resolutions ResolverDialog.ClickConfirm
     = (resolutions, [])) /\
  (ResolverDialog.reachable ambiguousTrips resolutions ->
   forall tripId knoxId, resolutions !! tripId = Some knoxId ->
     ResolverDialog.rendered ambiguousTrips tripId knoxId).
Proof.
  assert (ResolverDialog.confirmDisabled ambiguousTrips resolutions = false <->
          forall t, t ∈ ambiguousTrips ->
            ResolverDialog.prop resolutions (BusinessTrip.id (Ambiguous.trip t))
              <> ResolverDialog.Undefined) as Hgate.
  { unfold ResolverDialog.confirmDisabled.
    rewrite negb_false_iff. apply isAllResolved_spec. }
  split; [exact Hgate|]. split; [|split; [|split]].
  - intros Hids. rewrite Hgate. split.
    + intros H t Ht. apply prop_assigned; auto.
    + intros H t Ht. apply prop_assigned; auto.
  - intros H. cbn. by rewrite H.
  - intros H. cbn. by rewrite H.
  - apply reachable_rendered.
Qed.

(** One ambiguous trip, resolved by a click on its second candidate: the
    confirm click passes the map to [onResolve]. *)
Lemma confirm_gate_witness :
  let kim1 := TeamMember.mk (js "m1") (js "Kim") (Some (js "kim.a")) (js "Sales") in
  let kim2 := TeamMember.mk (js "m2") (js "Kim") (Some (js "kim.b")) (js "Design") in
  let t := BusinessTrip.mk (js "trip-1") None (js "Kim") (js "2026-02-03")
             (js "2026-02-05") (js "해외") (js "출장") TripCategory.trip
             (js "planned") (js "2026-11-03") (js "2026-11-03") in
  let ambiguousTrips := [Ambiguous.mk t [kim1; kim2]] in
  let resolutions :=
    fst (ResolverDialog.click ambiguousTrips ∅
           (ResolverDialog.ClickCandidate (js "trip-1") (Some (js "kim.b")))) in
  ResolverDialog.click ambiguousTrips ∅ ResolverDialog.ClickConfirm = (∅, []) /\
  ResolverDialog.click ambiguousTrips resolutions ResolverDialog.ClickConfirm
    = (resolutions, [ResolverDialog.onResolve resolutions]).
Proof.
  intros kim1 kim2 t ambiguousTrips resolutions. split.
  - apply (confirm_gate ambiguousTrips ∅). reflexivity.
  - apply (confirm_gate ambiguousTrips resolutions). reflexivity.
Defined.


(** ** The migration *)

Section MigrationFacts.
Import Migration.

Variable JsValue : Type.
Variable JSON_parse : jsstring -> option JsValue.
Variable ofString : jsstring -> JsValue.
Variable idbAccepts : jsstring -> JsValue -> bool.

Local Abbreviation Browser := (Browser JsValue).
Local Abbreviation init := (initializeIndexedDBStorage JsValue JSON_parse ofString idbAccepts).
Local Abbreviation migratedValue := (migratedValue JsValue JSON_parse ofString).
Local Abbreviation copied := (copied JsValue JSON_parse ofString).

Lemma init_migrated (b : Browser) :
  getStorageItem JsValue IDB_MIGRATION_KEY b = Some (js "2") -> init b = b.
Proof.
  intros H. unfold initializeIndexedDBStorage.
  destruct (window b); [|done]. by rewrite bool_decide_eq_true_2.
Qed.

Lemma copied_lookup ls keys : forall store k,
  copied ls keys store !! k =
    match ls !! k with
    | Some valueStr =>
        if bool_decide (k ∈ keys) then Some (migratedValue valueStr)
        else store !! k
    | None => store !! k
    end.
Proof.
  unfold Migration.copied.
  induction keys as [|key keys IH]; intros store k; cbn [foldl].
  - destruct (ls !! k); [|done]. by rewrite bool_decide_eq_false_2 by apply not_elem_of_nil.
  - rewrite IH. destruct (ls !! k) as [v|] eqn:Hk.
    + destruct (decide (k ∈ keys)) as [Hin|Hin].
      * rewrite !bool_decide_eq_true_2; [done | by right | done].
      * rewrite (bool_decide_eq_false_2 (k ∈ keys)) by done.
        destruct (decide (k = key)) as [->|Hne].
        -- rewrite Hk, lookup_insert_eq.
           by rewrite bool_decide_eq_true_2 by (by left).
        -- rewrite bool_decide_eq_false_2 by (by intros [?|?]%elem_of_cons).
           destruct (ls !! key); [by rewrite lookup_insert_ne | done].
    + destruct (ls !! key) eqn:Hkey; [|done].
      rewrite lookup_insert_ne; [done | congruence].
Qed.

Lemma removed_lookup (ls : gmap jsstring jsstring) keys : forall k,
  foldl (fun m key => delete key m) ls keys !! k =
    if bool_decide (k ∈ keys) then None else ls !! k.
Proof.
  revert ls. induction keys as [|key keys IH]; intros ls k; cbn [foldl].
  - by rewrite bool_decide_eq_false_2 by apply not_elem_of_nil.
  - rewrite IH. destruct (decide (k ∈ keys)) as [Hin|Hin].
    + rewrite !bool_decide_eq_true_2; [done | by right | done].
    + rewrite (bool_decide_eq_false_2 (k ∈ keys)) by done.
      destruct (decide (k = key)) as [->|Hne].
      * rewrite lookup_delete_eq. by rewrite bool_decide_eq_true_2 by (by left).
      * rewrite lookup_delete_ne by done.
        by rewrite bool_decide_eq_false_2 by (by intros [?|?]%elem_of_cons).
Qed.

Hypothesis accepts : forall key value, idbAccepts key value = true.

Lemma migrateKeys_accepted keys : forall b : Browser,
  window b = true ->
  migrateKeys JsValue JSON_parse ofString idbAccepts keys b =
    (Normal (), withIdb JsValue b (copied (localStorage b) keys (idb b))).
Proof.
  induction keys as [|key keys IH]; intros b Hw; cbn [migrateKeys].
  - by destruct b.
  - unfold migrateKey, getStorageItem. rewrite Hw.
    unfold Migration.copied. cbn [foldl]. fold (copied (localStorage b) keys).
    destruct (localStorage b !! key) as [v|].
    + unfold Migration.migratedValue.
      destruct (JSON_parse v); unfold idbSet; rewrite Hw, accepts; by rewrite IH.
    + rewrite IH by done. by destruct b.
Qed.

(** The state after the migration, in a browser whose object store
    completes the requests. *)
Lemma init_accepted (b : Browser) :
  window b = true -> localStorage b !! IDB_MIGRATION_KEY <> Some (js "2") ->
  init b =
    {| window := true;
       localStorage :=
         foldl (fun m key => delete key m)
           (<[IDB_MIGRATION_KEY := js "2"]> (localStorage b)) heavyKeys;
       idb := <[IDB_MIGRATION_KEY := ofString (js "2")]>
                (copied (localStorage b) IDB_SYNC_KEYS (idb b)) |}.
Proof.
  intros Hw Hflag. unfold initializeIndexedDBStorage, getStorageItem.
  rewrite Hw, bool_decide_eq_false_2 by done.
  rewrite migrateKeys_accepted by done.
  destruct b as [w ls store]. cbn in Hw. subst w.
  unfold setStorageItem, idbSet, removeHeavy, withLocalStorage, withIdb.
  cbn [window localStorage idb snd].
  assert (shouldSyncKey IDB_MIGRATION_KEY = true) as -> by (vm_compute; reflexivity).
  rewrite !accepts. cbn [window localStorage idb snd]. rewrite ?accepts.
  cbn [window localStorage idb]. by rewrite insert_insert_eq.
Qed.

End MigrationFacts.

Lemma flag_not_heavy : Migration.IDB_MIGRATION_KEY ∉ Migration.heavyKeys.
Proof.
  apply (bool_decide_unpack (Migration.IDB_MIGRATION_KEY ∉ Migration.heavyKeys)).
  vm_compute. exact I.
Qed.

(** C5. The migration runs once.  When localStorage already holds '2'
    under the migration key, [initializeIndexedDBStorage] changes nothing.
    Otherwise, in a browser whose object store completes the requests, it
    copies the localStorage value of every tracked key into the object store
    (parsed when it is JSON), writes '2' under the migration key in both
    stores, removes the heavy keys from localStorage and leaves every other
    entry alone; a second call then changes nothing. *)
Theorem migration_one_time
    (JsValue : Type) (JSON_parse : jsstring -> option JsValue)
    (ofString : jsstring -> JsValue) (idbAccepts : jsstring -> JsValue -> bool)
    (b : Migration.Browser JsValue) :
  let init :=
    Migration.initializeIndexedDBStorage JsValue JSON_parse ofString idbAccepts in
  let flag := Migration.IDB_MIGRATION_KEY in
  (Migration.getStorageItem JsValue flag b = Some (js "2") -> init b = b) /\
  (Migration.window b = true ->
   Migration.localStorage b !! flag <> Some (js "2") ->
   (forall key value, idbAccepts key value = true) ->
   let b' := init b in
   Migration.localStorage b' !! flag = Some (js "2") /\
   (forall k, k ∈ Migration.heavyKeys -> Migration.localStorage b' !! k = None) /\
   (forall k, k ∉ Migration.heavyKeys -> k <> flag ->
      Migration.localStorage b' !! k = Migration.localStorage b !! k) /\
   (forall k v, k ∈ Migration.IDB_SYNC_KEYS -> k <> flag ->
      Migration.localStorage b !! k = Some v ->
      Migration.idb b' !! k =
        Some (Migration.migratedValue JsValue JSON_parse ofString v)) /\
   Migration.idb b' !! flag = Some (ofString (js "2")) /\
   (forall k, k <> flag ->
      k ∉ Migration.IDB_SYNC_KEYS \/ Migration.localStorage b !! k = None ->
      Migration.idb b' !! k = Migration.idb b !! k) /\
   init b' = b').
Proof.
  intros init flag. split; [apply init_migrated|].
  intros Hw Hflag Hacc b'.
  assert (Migration.localStorage b' !! flag = Some (js "2")) as Hdone.
  { subst b' init. rewrite init_accepted by done. cbn [Migration.localStorage].
    rewrite removed_lookup.
    rewrite bool_decide_eq_false_2 by apply flag_not_heavy.
    apply lookup_insert_eq. }
  assert (Migration.window b' = true) as Hw'.
  { subst b' init. by rewrite init_accepted. }
  split; [done|].
  subst b' init. rewrite init_accepted in * by done.
  cbn [Migration.localStorage Migration.idb Migration.window] in *.
  split; [|split; [|split; [|split; [|split]]]].
  - intros k Hk. rewrite removed_lookup. by rewrite bool_decide_eq_true_2.
  - intros k Hk Hne. rewrite removed_lookup.
    rewrite bool_decide_eq_false_2 by done. by rewrite lookup_insert_ne.
  - intros k v Hk Hne Hv. rewrite lookup_insert_ne by done.
    rewrite copied_lookup, Hv. by rewrite bool_decide_eq_true_2.
  - apply lookup_insert_eq.
  - intros k Hne Hk. rewrite lookup_insert_ne by done. rewrite copied_lookup.
    destruct (Migration.localStorage b !! k) eqn:Hv; [|done].
    destruct Hk as [Hk|Hk]; [|done]. by rewrite bool_decide_eq_false_2.
  - rewrite <- (init_accepted JsValue JSON_parse ofString idbAccepts Hacc b) by done.
    apply init_migrated. unfold Migration.getStorageItem.
    rewrite init_accepted by done. exact Hdone.
Qed.

(** A browser that holds a task list and a theme in localStorage and has
    not migrated yet; strings are stored as they are. *)
Lemma migration_one_time_witness :
  let b : Migration.Browser jsstring :=
    {| Migration.window := true;
       Migration.localStorage :=
         {[ js "local-tasks-data" := js "{}"; js "local-tasks-theme" := js "dark" ]};
       Migration.idb := ∅ |} in
  let init :=
    Migration.initializeIndexedDBStorage jsstring (fun _ => None) (fun s => s)
      (fun _ _ => true) in
  Migration.localStorage (init b) !! Migration.IDB_MIGRATION_KEY = Some (js "2") /\
  Migration.localStorage (init b) !! js "local-tasks-data" = None /\
  Migration.idb (init b) !! js "local-tasks-data" = Some (js "{}") /\
  init (init b) = init b.
Proof.
  intros b init.
  destruct (migration_one_time jsstring (fun _ => None) (fun s => s)
              (fun _ _ => true) b) as [_ H].
  destruct H as (Hflag & Hheavy & _ & Hcopy & _ & _ & Hagain).
  - reflexivity.
  - vm_compute. discriminate.
  - reflexivity.
  - split; [exact Hflag|]. split; [|split; [|exact Hagain]].
    + apply Hheavy. vm_compute. by left.
    + apply (Hcopy (js "local-tasks-data") (js "{}")).
      * vm_compute. by left.
      * vm_compute. discriminate.
      * vm_compute. reflexivity.
Defined.

(** ** The CRUD wrappers *)

Section StorageFacts.
Import Storage.

Lemma findIndex_None {A} (p : A -> bool) (l : list A) :
  findIndex p l = None <-> forall x, x ∈ l -> p x = false.
Proof.
  unfold findIndex. rewrite fmap_None, list_find_None, Forall_forall.
  split; intros H x Hx; specialize (H x Hx); by destruct (p x).
Qed.

Lemma findIndex_Some {A} (p : A -> bool) (l : list A) index :
  findIndex p l = Some index ->
  exists x, l !! index = Some x /\ p x = true /\
    forall j y, l !! j = Some y -> (j < index)%nat -> p y = false.
Proof.
  unfold findIndex. intros ([i x] & Hfind & ->)%fmap_Some.
  apply list_find_Some in Hfind as (Hl & Hp & Hfirst).
  exists x. cbn. split; [done|]. split; [done|].
  intros j y Hj Hlt. specialize (Hfirst j y Hj Hlt). by destruct (p y).
Qed.

Lemma findIndex_is_Some {A} (p : A -> bool) (l : list A) x :
  x ∈ l -> p x = true -> exists index, findIndex p l = Some index.
Proof.
  intros Hx Hp. destruct (findIndex p l) as [index|] eqn:Hf; [eauto|].
  rewrite findIndex_None in Hf. specialize (Hf x Hx). congruence.
Qed.

Lemma eqb_id_true a b : eqb_id a b = true <-> a = b.
Proof. unfold eqb_id. apply bool_decide_eq_true. Qed.

Lemma eqb_id_false a b : eqb_id a b = false <-> a <> b.
Proof. unfold eqb_id. apply bool_decide_eq_false. Qed.

Lemma insertBy_elem {A} (cmp : A -> A -> Z) x y (l : list A) :
  x ∈ insertBy cmp y l <-> x = y \/ x ∈ l.
Proof.
  induction l as [|z l IH]; cbn.
  - rewrite list_elem_of_singleton, elem_of_nil. tauto.
  - destruct (cmp y z <=? 0)%Z.
    + by rewrite elem_of_cons.
    + rewrite !elem_of_cons, IH. tauto.
Qed.

Lemma sortBy_elem {A} (cmp : A -> A -> Z) x (l : list A) :
  x ∈ sortBy cmp l <-> x ∈ l.
Proof.
  induction l as [|y l IH]; cbn; [done|].
  by rewrite insertBy_elem, elem_of_cons, IH.
Qed.

Variable generateId : jsstring.
Variable now : jsstring.
Variable defaultColor : jsstring.

Local Abbreviation getAppData := (getAppData generateId now defaultColor).
Local Abbreviation updateTask := (updateTask generateId now defaultColor).
Local Abbreviation deleteTask := (deleteTask generateId now defaultColor).
Local Abbreviation toggleTaskComplete := (toggleTaskComplete generateId now defaultColor).
Local Abbreviation updateCategory := (updateCategory generateId now defaultColor).
Local Abbreviation deleteCategory := (deleteCategory generateId now defaultColor).

(** What [getAppData] reads and leaves behind: on a store without data, the
    default data, which it has saved. *)
Lemma getAppData_run db :
  getAppData db =
    if window db then
      match appData db with
      | Some data => (data, db)
      | None =>
          let defaultData :=
            {| categories :=
                 [Category.mk generateId (js "내할일") defaultColor 0 now];
               tasks := [] |} in
          (defaultData,
           {| window := true; appData := Some defaultData;
              quickLinks := quickLinks db; notes := notes db |})
      end
    else ({| categories := []; tasks := [] |}, db).
Proof.
  unfold Storage.getAppData. destruct (window db) eqn:Hw; [|done].
  destruct (appData db); [done|].
  unfold mbind, io_bind, saveAppData, mret, io_ret. by rewrite Hw.
Qed.

(** The tasks and the categories that a wrapper sees in the data it has
    read. *)
Lemma getAppData_tasks db t :
  t ∈ tasks (fst (getAppData db)) ->
  exists data, appData db = Some data /\ t ∈ tasks data.
Proof.
  rewrite getAppData_run. destruct (window db), (appData db) as [data|]; cbn;
    try (by intros ?%elem_of_nil). eauto.
Qed.

Lemma updateTask_missing db id updates :
  (forall t, t ∈ tasks (fst (getAppData db)) -> Task.id t <> id) ->
  updateTask id updates db = (None, snd (getAppData db)).
Proof.
  intros Hid. unfold Storage.updateTask, mbind, io_bind.
  destruct (getAppData db) as [data db'] eqn:Hget. cbn in *.
  assert (findIndex (fun t => eqb_id (Task.id t) id) (tasks data) = None) as ->; [|done].
  apply findIndex_None. intros t Ht. apply eqb_id_false. auto.
Qed.

Lemma toggleTaskComplete_missing db id :
  (forall t, t ∈ tasks (fst (getAppData db)) -> Task.id t <> id) ->
  toggleTaskComplete id db = (None, snd (getAppData db)).
Proof.
  intros Hid. unfold Storage.toggleTaskComplete, mbind, io_bind.
  destruct (getAppData db) as [data db'] eqn:Hget. cbn in *.
  assert (findIndex (fun t => eqb_id (Task.id t) id) (tasks data) = None) as ->; [|done].
  apply findIndex_None. intros t Ht. apply eqb_id_false. auto.
Qed.

Lemma deleteTask_missing db id :
  (forall t, t ∈ tasks (fst (getAppData db)) -> Task.id t <> id) ->
  deleteTask id db = (false, snd (getAppData db)).
Proof.
  intros Hid. unfold Storage.deleteTask, mbind, io_bind.
  destruct (getAppData db) as [data db'] eqn:Hget. cbn in *.
  assert (findIndex (fun t => eqb_id (Task.id t) id) (tasks data) = None) as ->; [|done].
  apply findIndex_None. intros t Ht. apply eqb_id_false. auto.
Qed.

Lemma updateCategory_missing db id updates :
  (forall c, c ∈ categories (fst (getAppData db)) -> Category.id c <> id) ->
  updateCategory id updates db = (None, snd (getAppData db)).
Proof.
  intros Hid. unfold Storage.updateCategory, mbind, io_bind.
  destruct (getAppData db) as [data db'] eqn:Hget. cbn in *.
  assert (findIndex (fun c => eqb_id (Category.id c) id) (categories data) = None)
    as ->; [|done].
  apply findIndex_None. intros c Hc. apply eqb_id_false. auto.
Qed.

Lemma deleteCategory_missing db id :
  (forall c, c ∈ categories (fst (getAppData db)) -> Category.id c <> id) ->
  deleteCategory id db = (false, snd (getAppData db)).
Proof.
  intros Hid. unfold Storage.deleteCategory, mbind, io_bind.
  destruct (getAppData db) as [data db'] eqn:Hget. cbn in *.
  assert (findIndex (fun c => eqb_id (Category.id c) id) (categories data) = None)
    as ->; [|done].
  apply findIndex_None. intros c Hc. apply eqb_id_false. auto.
Qed.

Lemma getQuickLinks_run db :
  snd (getQuickLinks db) = db /\
  forall l, l ∈ fst (getQuickLinks db) -> l ∈ default [] (quickLinks db).
Proof.
  unfold getQuickLinks. destruct (window db), (quickLinks db) as [ls|]; cbn;
    split; try done; try (by intros ? ?%elem_of_nil).
  intros l. by rewrite sortBy_elem.
Qed.

Lemma getNotes_run db :
  snd (getNotes db) = db /\
  forall n, n ∈ fst (getNotes db) -> n ∈ default [] (notes db).
Proof.
  unfold getNotes. destruct (window db), (notes db) as [ns|]; cbn;
    split; try done; try (by intros ? ?%elem_of_nil).
  intros n. by rewrite sortBy_elem.
Qed.

Lemma quickLink_missing db id :
  (forall l, l ∈ default [] (quickLinks db) -> QuickLink.id l <> id) ->
  (forall updates, updateQuickLink id updates db = (None, db)) /\
  deleteQuickLink id db = (false, db).
Proof.
  intros Hid. destruct (getQuickLinks_run db) as [Hdb Hin].
  unfold updateQuickLink, deleteQuickLink, mbind, io_bind.
  destruct (getQuickLinks db) as [links db'] eqn:Hget. cbn in *. subst db'.
  assert (findIndex (fun l => eqb_id (QuickLink.id l) id) links = None) as ->; [|done].
  apply findIndex_None. intros l Hl. apply eqb_id_false. auto.
Qed.

Lemma note_missing db id :
  (forall n, n ∈ default [] (notes db) -> Note.id n <> id) ->
  (forall updates, updateNote id updates db = (None, db)) /\
  deleteNote id db = (false, db).
Proof.
  intros Hid. destruct (getNotes_run db) as [Hdb Hin].
  unfold updateNote, deleteNote, mbind, io_bind.
  destruct (getNotes db) as [ns db'] eqn:Hget. cbn in *. subst db'.
  assert (findIndex (fun n => eqb_id (Note.id n) id) ns = None) as ->; [|done].
  apply findIndex_None. intros n Hn. apply eqb_id_false. auto.
Qed.

Lemma deleteCategory_found db data id index :
  window db = true -> appData db = Some data ->
  findIndex (fun c => eqb_id (Category.id c) id) (categories data) = Some index ->
  deleteCategory id db =
    (true,
     {| window := true;
        appData :=
          Some {| categories := delete index (categories data);
                  tasks := filter (fun t => Task.categoryId t <> id) (tasks data) |};
        quickLinks := quickLinks db; notes := notes db |}).
Proof.
  intros Hw Hdata Hfind. unfold Storage.deleteCategory, mbind, io_bind.
  rewrite getAppData_run, Hw, Hdata, Hfind.
  unfold saveAppData, mret, io_ret. by rewrite Hw.
Qed.

(** The category that [getAppData] makes for a store without data has the
    id that [generateId()] answered: a call with that very id finds it. *)
Lemma findIndex_default id :
  findIndex (fun c => eqb_id (Category.id c) id)
    [Category.mk generateId (js "내할일") defaultColor 0 now]
  = if eqb_id generateId id then Some 0%nat else None.
Proof.
  unfold findIndex. cbn [list_find Category.id].
  destruct (eqb_id generateId id); by cbn.
Qed.

Lemma updateCategory_default db updates :
  window db = true -> appData db = None ->
  let c := Category.spread
             (Category.mk generateId (js "내할일") defaultColor 0 now) updates in
  updateCategory generateId updates db =
    (Some c,
     {| window := true;
        appData := Some {| categories := [c]; tasks := [] |};
        quickLinks := quickLinks db; notes := notes db |}).
Proof.
  intros Hw Hnone c. unfold Storage.updateCategory, mbind, io_bind.
  rewrite getAppData_run, Hw, Hnone. cbn [fst snd categories tasks].
  rewrite findIndex_default. unfold eqb_id.
  rewrite bool_decide_eq_true_2 by done. by cbn.
Qed.

Lemma deleteCategory_default db :
  window db = true -> appData db = None ->
  deleteCategory generateId db =
    (true,
     {| window := true;
        appData := Some {| categories := []; tasks := [] |};
        quickLinks := quickLinks db; notes := notes db |}).
Proof.
  intros Hw Hnone. unfold Storage.deleteCategory, mbind, io_bind.
  rewrite getAppData_run, Hw, Hnone. cbn [fst snd categories tasks].
  rewrite findIndex_default. unfold eqb_id.
  rewrite bool_decide_eq_true_2 by done. by cbn.
Qed.

(** Outside the browser [getAppData] answers with no category and no task,
    and leaves the store alone. *)
Lemma getAppData_no_window db :
  window db = false ->
  getAppData db = ({| categories := []; tasks := [] |}, db).
Proof. intros Hw. by rewrite getAppData_run, Hw. Qed.

End StorageFacts.

(** C7 (as amended). On a store that holds app data, a wrapper called with
    an id that no task (respectively category) has returns its failure value
    and writes nothing: [updateTask] and [toggleTaskComplete] return [null],
    [deleteTask] returns [false], [updateCategory] returns [null], and the
    store is as before.  The wrappers for quick links and notes do the same
    on every store.  On a store without app data [getAppData] first stores
    the default data, whose only category has the id that [generateId()]
    answered: the task wrappers return their failure values and leave the
    store so initialised, and so does [updateCategory], unless it is called
    in the browser with the id of that new category, which it then updates,
    stores and returns. *)
Theorem wrappers_missing_id
    (generateId now defaultColor : jsstring) (db : Storage.Db) (id : jsstring) :
  (forall data, Storage.appData db = Some data ->
     ((forall t, t ∈ Storage.tasks data -> Task.id t <> id) ->
      (forall updates,
         Storage.updateTask generateId now defaultColor id updates db = (None, db)) /\
      Storage.toggleTaskComplete generateId now defaultColor id db = (None, db) /\
      Storage.deleteTask generateId now defaultColor id db = (false, db)) /\
     ((forall c, c ∈ Storage.categories data -> Category.id c <> id) ->
      forall updates,
        Storage.updateCategory generateId now defaultColor id updates db
          = (None, db))) /\
  ((forall l, l ∈ default [] (Storage.quickLinks db) -> QuickLink.id l <> id) ->
   (forall updates, Storage.updateQuickLink id updates db = (None, db)) /\
   Storage.deleteQuickLink id db = (false, db)) /\
  ((forall n, n ∈ default [] (Storage.notes db) -> Note.id n <> id) ->
   (forall updates, Storage.updateNote id updates db = (None, db)) /\
   Storage.deleteNote id db = (false, db)) /\
  (Storage.appData db = None ->
   let db' := snd (Storage.getAppData generateId now defaultColor db) in
   (forall updates,
      Storage.updateTask generateId now defaultColor id updates db = (None, db')) /\
   Storage.toggleTaskComplete generateId now defaultColor id db = (None, db') /\
   Storage.deleteTask generateId now defaultColor id db = (false, db') /\
   (id <> generateId \/ Storage.window db = false ->
    forall updates,
      Storage.updateCategory generateId now defaultColor id updates db
        = (None, db')) /\
   (id = generateId -> Storage.window db = true ->
    forall updates,
      let c :=
        Category.spread
          (Category.mk generateId (js "내할일") defaultColor 0 now) updates in
      Storage.updateCategory generateId now defaultColor id updates db =
        (Some c,
         {| Storage.window := true;
            Storage.appData :=
              Some {| Storage.categories := [c]; Storage.tasks := [] |};
            Storage.quickLinks := Storage.quickLinks db;
            Storage.notes := Storage.notes db |}))).
Proof.
  split; [|split; [apply quickLink_missing|split; [apply note_missing|]]].
  - intros data Hdata.
    assert (Storage.getAppData generateId now defaultColor db =
              (if Storage.window db then data
               else {| Storage.categories := []; Storage.tasks := [] |}, db)) as Hget.
    { rewrite getAppData_run, Hdata. by destruct (Storage.window db). }
    split.
    + intros Hid.
      assert (forall t,
                t ∈ Storage.tasks
                      (fst (Storage.getAppData generateId now defaultColor db)) ->
                Task.id t <> id) as Hid'.
      { rewrite Hget. cbn. destruct (Storage.window db); [done|].
        by intros ? ?%elem_of_nil. }
      split; [|split].
      * intros updates. rewrite updateTask_missing by done. by rewrite Hget.
      * rewrite toggleTaskComplete_missing by done. by rewrite Hget.
      * rewrite deleteTask_missing by done. by rewrite Hget.
    + intros Hid updates. rewrite updateCategory_missing; [by rewrite Hget|].
      rewrite Hget. cbn. destruct (Storage.window db); [done|].
      by intros ? ?%elem_of_nil.
  - intros Hnone db'.
    assert (forall t,
              t ∈ Storage.tasks
                    (fst (Storage.getAppData generateId now defaultColor db)) ->
              Task.id t <> id) as Hid.
    { intros t (data & Hdata & _)%getAppData_tasks. congruence. }
    split; [|split; [|split; [|split]]].
    + intros updates. by apply updateTask_missing.
    + by apply toggleTaskComplete_missing.
    + by apply deleteTask_missing.
    + intros Hne updates. apply updateCategory_missing.
      rewrite getAppData_run, Hnone. destruct (Storage.window db); cbn.
      * intros c ->%list_elem_of_singleton. cbn. by destruct Hne.
      * by intros ? ?%elem_of_nil.
    + intros -> Hw updates. by apply updateCategory_default.
Qed.

(** A store with one task and one category, asked about ids that nothing
    has; and a store without app data, asked to rename the category of the
    id that [generateId()] answers. *)
Lemma wrappers_missing_id_witness :
  let task := Task.mk (js "t1") (js "c1") (js "write") [] [] [] None None []
                false None false 0 (js "2026-11-03") in
  let category := Category.mk (js "c1") (js "내할일") (js "#3b82f6") 0
                    (js "2026-11-03") in
  let db := {| Storage.window := true;
               Storage.appData :=
                 Some {| Storage.categories := [category];
                         Storage.tasks := [task] |};
               Storage.quickLinks := None; Storage.notes := None |} in
  Storage.toggleTaskComplete (js "g") (js "now") (js "#fff") (js "t2") db
    = (None, db) /\
  Storage.deleteTask (js "g") (js "now") (js "#fff") (js "t2") db = (false, db) /\
  Storage.deleteQuickLink (js "q1") db = (false, db) /\
  Storage.deleteNote (js "n1") db = (false, db) /\
  (let empty := {| Storage.window := true; Storage.appData := None;
                   Storage.quickLinks := None; Storage.notes := None |} in
   let renamed :=
     Category.mk (js "g") (js "업무") (js "#fff") 0 (js "now") in
   Storage.updateCategory (js "g") (js "now") (js "#fff") (js "g")
     (Category.mkPatch None (Some (js "업무")) None None None) empty
   = (Some renamed,
      {| Storage.window := true;
         Storage.appData :=
           Some {| Storage.categories := [renamed]; Storage.tasks := [] |};
         Storage.quickLinks := None; Storage.notes := None |})).
Proof.
  intros task category db.
  destruct (wrappers_missing_id (js "g") (js "now") (js "#fff") db (js "t2"))
    as (Hdata & _).
  destruct (Hdata _ eq_refl) as [Htask _].
  destruct Htask as (_ & Htoggle & Hdelete).
  { intros t ->%list_elem_of_singleton. cbn. discriminate. }
  split; [exact Htoggle|]. split; [exact Hdelete|].
  split; [|split].
  - destruct (wrappers_missing_id (js "g") (js "now") (js "#fff") db (js "q1"))
      as (_ & Hlinks & _).
    apply Hlinks. intros l Hl. cbn in Hl. by apply elem_of_nil in Hl.
  - destruct (wrappers_missing_id (js "g") (js "now") (js "#fff") db (js "n1"))
      as (_ & _ & Hnotes & _).
    apply Hnotes. intros n Hn. cbn in Hn. by apply elem_of_nil in Hn.
  - intros empty renamed.
    destruct (wrappers_missing_id (js "g") (js "now") (js "#fff") empty (js "g"))
      as (_ & _ & _ & Hempty).
    destruct (Hempty eq_refl) as (_ & _ & _ & _ & Hdefault).
    apply (Hdefault eq_refl eq_refl).
Defined.

(** On a store without app data no task has the id, [updateTask] returns
    [null], and the store has changed: it holds the default data. *)
Lemma updateTask_initialises_store :
  let db := {| Storage.window := true; Storage.appData := None;
               Storage.quickLinks := None; Storage.notes := None |} in
  let updates := Task.mkPatch None None (Some (js "x")) None None None None None
                   None None None None None None in
  let r := Storage.updateTask (js "g") (js "now") (js "#fff") (js "t1") updates db in
  fst r = None /\ snd r <> db /\
  Storage.appData (snd r) =
    Some {| Storage.categories :=
              [Category.mk (js "g") (js "내할일") (js "#fff") 0 (js "now")];
            Storage.tasks := [] |}.
Proof.
  cbv zeta. split; [reflexivity|]. split; [|reflexivity].
  intros H. apply (f_equal Storage.appData) in H. discriminate H.
Qed.

(** C10 (as amended). On a store that holds app data, [deleteCategory]
    called with the id of a category removes the first category of that id
    and every task whose [categoryId] is that id, keeps every other category
    and task in place, and returns [true]; called with an id that no
    category has, it returns [false] and the store is as before.  On a store
    without app data [getAppData] first stores the default data, whose only
    category has the id that [generateId()] answered: [deleteCategory]
    returns [false] and leaves the store so initialised, unless it is called
    in the browser with the id of that new category, which it then removes,
    returning [true]. *)
Theorem deleteCategory_cascade
    (generateId now defaultColor : jsstring) (db : Storage.Db) (id : jsstring) :
  (forall data, Storage.appData db = Some data ->
     (Storage.window db = true ->
      (exists c, c ∈ Storage.categories data /\ Category.id c = id) ->
      exists index c categories' tasks',
        Storage.categories data !! index = Some c /\ Category.id c = id /\
        (forall j c', (j < index)%nat -> Storage.categories data !! j = Some c' ->
           Category.id c' <> id) /\
        categories' = delete index (Storage.categories data) /\
        tasks' = filter (fun t => Task.categoryId t <> id) (Storage.tasks data) /\
        (forall t, t ∈ tasks' <-> t ∈ Storage.tasks data /\ Task.categoryId t <> id) /\
        (forall c', c' ∈ Storage.categories data -> Category.id c' <> id ->
           c' ∈ categories') /\
        Storage.deleteCategory generateId now defaultColor id db =
          (true,
           {| Storage.window := true;
              Storage.appData :=
                Some {| Storage.categories := categories'; Storage.tasks := tasks' |};
              Storage.quickLinks := Storage.quickLinks db;
              Storage.notes := Storage.notes db |})) /\
     ((forall c, c ∈ Storage.categories data -> Category.id c <> id) ->
      Storage.deleteCategory generateId now defaultColor id db = (false, db))) /\
  (Storage.appData db = None ->
   (id <> generateId \/ Storage.window db = false ->
    Storage.deleteCategory generateId now defaultColor id db =
      (false, snd (Storage.getAppData generateId now defaultColor db))) /\
   (id = generateId -> Storage.window db = true ->
    Storage.deleteCategory generateId now defaultColor id db =
      (true,
       {| Storage.window := true;
          Storage.appData :=
            Some {| Storage.categories := []; Storage.tasks := [] |};
          Storage.quickLinks := Storage.quickLinks db;
          Storage.notes := Storage.notes db |}))).
Proof.
  split.
  - intros data Hdata. split.
    + intros Hw (c & Hc & Hid).
      destruct (findIndex_is_Some (fun c => Storage.eqb_id (Category.id c) id)
                  (Storage.categories data) c Hc) as [index Hfind];
        [by apply eqb_id_true|].
      destruct (findIndex_Some _ _ _ Hfind) as (c0 & Hc0 & Hid0%eqb_id_true & Hfirst).
      exists index, c0, (delete index (Storage.categories data)),
        (filter (fun t => Task.categoryId t <> id) (Storage.tasks data)).
      split; [done|]. split; [done|].
      split. { intros j c' Hj Hc'. apply eqb_id_false. eauto. }
      split; [done|]. split; [done|].
      split. { intros t. rewrite list_elem_of_filter. tauto. }
      split.
      { intros c' [j Hj]%list_elem_of_lookup Hne.
        destruct (decide (j = index)) as [->|Hji]; [congruence|].
        apply list_elem_of_lookup.
        destruct (decide (j < index)%nat).
        - exists j. by rewrite list_lookup_delete_lt.
        - exists (j - 1)%nat. rewrite list_lookup_delete_ge by lia.
          by replace (S (j - 1)) with j by lia. }
      by apply deleteCategory_found.
    + intros Hid. rewrite deleteCategory_missing.
      * rewrite getAppData_run, Hdata. by destruct (Storage.window db).
      * rewrite getAppData_run, Hdata. destruct (Storage.window db); cbn; [done|].
        by intros ? ?%elem_of_nil.
  - intros Hnone. split.
    + intros Hne. apply deleteCategory_missing.
      rewrite getAppData_run, Hnone. destruct (Storage.window db); cbn.
      * intros c ->%list_elem_of_singleton. cbn. by destruct Hne.
      * by intros ? ?%elem_of_nil.
    + intros -> Hw. by apply deleteCategory_default.
Qed.

(** Two categories and three tasks: deleting the first category takes its
    two tasks with it.  On a store without app data, deleting the category
    of the id that [generateId()] answers leaves no category. *)
Lemma deleteCategory_cascade_witness :
  let task id cat := Task.mk (js id) (js cat) (js "write") [] [] [] None None []
                       false None false 0 (js "2026-11-03") in
  let category id := Category.mk (js id) (js "list") (js "#3b82f6") 0
                       (js "2026-11-03") in
  let db := {| Storage.window := true;
               Storage.appData :=
                 Some {| Storage.categories := [category "c1"; category "c2"];
                         Storage.tasks :=
                           [task "t1" "c1"; task "t2" "c2"; task "t3" "c1"] |};
               Storage.quickLinks := None; Storage.notes := None |} in
  Storage.deleteCategory (js "g") (js "now") (js "#fff") (js "c1") db =
    (true,
     {| Storage.window := true;
        Storage.appData :=
          Some {| Storage.categories := [category "c2"];
                  Storage.tasks := [task "t2" "c2"] |};
        Storage.quickLinks := None; Storage.notes := None |}) /\
  Storage.deleteCategory (js "g") (js "now") (js "#fff") (js "c9") db = (false, db) /\
  (let empty := {| Storage.window := true; Storage.appData := None;
                   Storage.quickLinks := None; Storage.notes := None |} in
   Storage.deleteCategory (js "g") (js "now") (js "#fff") (js "g") empty =
     (true,
      {| Storage.window := true;
         Storage.appData :=
           Some {| Storage.categories := []; Storage.tasks := [] |};
         Storage.quickLinks := None; Storage.notes := None |})).
Proof.
  intros task category db.
  destruct (deleteCategory_cascade (js "g") (js "now") (js "#fff") db (js "c1"))
    as [Hdata _].
  destruct (Hdata _ eq_refl) as [Hfound _].
  destruct Hfound as (index & c & cs & ts & Hc & Hid & Hfirst & -> & -> & _ & _ & Hrun).
  { reflexivity. }
  { exists (category "c1"). split; [by left | reflexivity]. }
  split; [|split].
  - rewrite Hrun. destruct index as [|[|index]]; cbn in Hc.
    + reflexivity.
    + injection Hc as <-. discriminate Hid.
    + discriminate Hc.
  - destruct (deleteCategory_cascade (js "g") (js "now") (js "#fff") db (js "c9"))
      as [Hdata' _].
    apply (Hdata' _ eq_refl).
    intros c' [->| ->%list_elem_of_singleton]%elem_of_cons; cbn; discriminate.
  - intros empty.
    destruct (deleteCategory_cascade (js "g") (js "now") (js "#fff") empty (js "g"))
      as [_ Hempty].
    destruct (Hempty eq_refl) as [_ Hdefault].
    apply (Hdefault eq_refl eq_refl).
Defined.

(** On a store without app data no category has the id, [deleteCategory]
    returns [false], and the store has changed: it holds the default
    data. *)
Lemma deleteCategory_initialises_store :
  let db := {| Storage.window := true; Storage.appData := None;
               Storage.quickLinks := None; Storage.notes := None |} in
  let r := Storage.deleteCategory (js "g") (js "now") (js "#fff") (js "c1") db in
  fst r = false /\ snd r <> db /\
  Storage.appData (snd r) =
    Some {| Storage.categories :=
              [Category.mk (js "g") (js "내할일") (js "#fff") 0 (js "now")];
            Storage.tasks := [] |}.
Proof.
  cbv zeta. split; [reflexivity|]. split; [|reflexivity].
  intros H. apply (f_equal Storage.appData) in H. discriminate H.
Qed.

(** * The parser: further properties *)

Section DateFacts.

Import TripParser TripSpec.

Lemma uintUnits_nonnil u : u <> Nil -> uintUnits u <> [].
Proof. by destruct u. Qed.

Lemma to_int_units y :
  match Z.to_int y with
  | Pos d => d <> Nil
  | Neg d => True
  end.
Proof.
  destruct y as [|p|p]; cbn; try done.
  apply DecimalPos.Unsigned.to_uint_nonnil.
Qed.

(** The decimal writing of an integer begins with a unit that is no white
    space, and is a digit at its end unless it is the lone sign. *)
Lemma intToString_head y :
  exists c u, intToString y = c :: u /\ isWhiteSpace c = false.
Proof.
  unfold intToString. pose proof (to_int_units y) as Hy.
  destruct (Z.to_int y) as [d|d].
  - pose proof (uintUnits_digits d) as Hd.
    destruct (uintUnits d) as [|c u] eqn:E; [by apply uintUnits_nonnil in E|].
    exists c, u. split; [done|]. apply isDigit_not_ws.
    by inversion Hd.
  - by exists 45, (uintUnits d).
Qed.

Lemma dashed_shape y m d :
  (0 <= m < 100)%Z -> (0 <= d < 100)%Z ->
  exists c u e, dashed y m d = c :: u ++ [e] /\
    isWhiteSpace c = false /\ isWhiteSpace e = false /\ (5 <= length u)%nat.
Proof.
  intros Hm Hd. unfold dashed.
  destruct (intToString_head y) as (c & u & -> & Hc).
  destruct (twoDigits_digits m Hm) as (m1 & m2 & -> & _ & _).
  destruct (twoDigits_digits d Hd) as (d1 & d2 & -> & _ & Hd2).
  exists c, (u ++ [HYPHEN; m1; m2; HYPHEN; d1]), d2.
  split; [|split; [done|split; [by apply isDigit_not_ws|]]].
  - cbn. f_equal. by rewrite <- !app_assoc.
  - rewrite length_app. cbn. lia.
Qed.

Lemma shortDateRe_length s : shortDateRe s = true -> (length s <= 5)%nat.
Proof.
  intros (a & sep & b & -> & [_ Ha] & [_ Hb] & _)%shortDateRe_spec.
  rewrite !length_app. cbn. lia.
Qed.

(** A short date becomes the dashed date of the base year. *)
Lemma normalizeDate_short s y m d :
  ShortForm s m d -> normalizeDate s y = dashed y m d.
Proof.
  intros Hs. pose proof (ShortForm_range _ _ _ Hs) as [Hm Hd].
  destruct Hs as (a & sep & b & Ht & Ha & Hb & Hsep & -> & ->).
  unfold normalizeDate. rewrite Ht.
  rewrite (shortDateRe_short a sep b Ha Hb Hsep).
  rewrite (dateParts_short a sep b Ha Hb Hsep). cbn [lookup list_lookup parseIntOpt].
  rewrite (parseInt10_digits a Ha), (parseInt10_digits b Hb).
  by apply formatDate_dashed.
Qed.

Lemma isShortDate_ShortForm s :
  isShortDate s = true -> exists m d, ShortForm s m d.
Proof.
  unfold isShortDate.
  intros (a & sep & b & Ht & Ha & Hb & Hsep)%shortDateRe_spec.
  by exists (digitsValue a), (digitsValue b), a, sep, b.
Qed.

Lemma ShortForm_isShortDate s m d : ShortForm s m d -> isShortDate s = true.
Proof. intros Hs. by apply (parseMonthDay_short s m d). Qed.

Lemma ShortForm_fun s m d m' d' :
  ShortForm s m d -> ShortForm s m' d' -> m = m' /\ d = d'.
Proof.
  intros Hs Hs'.
  pose proof (proj2 (parseMonthDay_short s m d Hs)) as H1.
  pose proof (proj2 (parseMonthDay_short s m' d' Hs')) as H2.
  rewrite H1 in H2. by injection H2.
Qed.

Lemma dashed_fixed y m d y' :
  (0 <= m < 100)%Z -> (0 <= d < 100)%Z ->
  normalizeDate (dashed y m d) y' = dashed y m d.
Proof.
  intros Hm Hd.
  destruct (dashed_shape y m d Hm Hd) as (c & u & e & E & Hc & He & Hu).
  unfold normalizeDate. rewrite E, (trim_fixed c u e Hc He).
  destruct (shortDateRe (c :: u ++ [e])) eqn:Hre; [|done].
  apply shortDateRe_length in Hre. cbn in Hre. rewrite length_app in Hre.
  cbn in Hre. lia.
Qed.

Lemma uintUnits_inj u u' : uintUnits u = uintUnits u' -> u = u'.
Proof.
  revert u'. induction u as [|u IH|u IH|u IH|u IH|u IH|u IH|u IH|u IH|u IH|u IH];
    intros [|u'|u'|u'|u'|u'|u'|u'|u'|u'|u']; cbn; intros H; try discriminate H;
    try reflexivity; f_equal; apply IH; by injection H.
Qed.

(** Two integers with the same decimal writing are equal. *)
Lemma intToString_inj y y' : intToString y = intToString y' -> y = y'.
Proof.
  unfold intToString. intros H.
  rewrite <- (DecimalZ.of_to y), <- (DecimalZ.of_to y'). f_equal.
  destruct (Z.to_int y) as [u|u], (Z.to_int y') as [u'|u'].
  - f_equal. by apply uintUnits_inj.
  - exfalso. pose proof (uintUnits_digits u) as Hd. rewrite H in Hd.
    by inversion Hd.
  - exfalso. pose proof (uintUnits_digits u') as Hd. rewrite <- H in Hd.
    by inversion Hd.
  - f_equal. apply uintUnits_inj. by injection H.
Qed.

(** The dashed date tells its year. *)
Lemma dashed_year_inj y y' m d : dashed y m d = dashed y' m d -> y = y'.
Proof.
  unfold dashed. intros H. apply app_inv_tail in H. by apply intToString_inj.
Qed.

End DateFacts.

(** X1. A date that [normalizeDate] has produced is left as it is by a
    second call, whatever the base year of that call: the function is
    idempotent, and a date once normalised no longer moves with the year. *)
Theorem normalizeDate_stable (s : jsstring) (y y' : Z) :
  TripParser.normalizeDate (TripParser.normalizeDate s y) y' =
  TripParser.normalizeDate s y.
Proof.
  destruct (TripParser.isShortDate s) eqn:Hs.
  - apply isShortDate_ShortForm in Hs as (m & d & Hs).
    destruct (ShortForm_range _ _ _ Hs).
    rewrite (normalizeDate_short s y m d Hs). by apply dashed_fixed.
  - unfold TripParser.isShortDate in Hs. unfold TripParser.normalizeDate at 2.
    rewrite Hs. unfold TripParser.normalizeDate.
    by rewrite trim_idemp, Hs.
Qed.

(** X2. [normalizeDateRange] agrees with [normalizeDate] on both ends, but
    for one case.  The end date is always [normalizeDate] of the end read in
    the base year.  When both ends are short dates, the start date is
    [normalizeDate] of the start read in the year before the base year if
    the start month is greater than the end month, which is then another
    date than the one read in the base year, and read in the base year if it
    is not.  When one of the ends is no short date, the start date is
    [normalizeDate] of the start read in the base year. *)
Theorem normalizeDateRange_by_normalizeDate (s e : jsstring) (y : Z) :
  let r := TripParser.normalizeDateRange s e y in
  TripParser.endDate r = TripParser.normalizeDate e y /\
  (forall ms ds me de,
     TripSpec.ShortForm s ms ds -> TripSpec.ShortForm e me de ->
     TripParser.startDate r =
       TripParser.normalizeDate s (if (me <? ms)%Z then y - 1 else y)%Z /\
     ((me < ms)%Z ->
      TripParser.startDate r = TripParser.normalizeDate s (y - 1) /\
      TripParser.startDate r <> TripParser.normalizeDate s y) /\
     ((ms <= me)%Z -> TripParser.startDate r = TripParser.normalizeDate s y)) /\
  (TripParser.isShortDate s = false \/ TripParser.isShortDate e = false ->
   TripParser.startDate r = TripParser.normalizeDate s y).
Proof.
  intros r. subst r. split; [|split].
  - destruct (TripParser.isShortDate s) eqn:Hs;
      [destruct (TripParser.isShortDate e) eqn:He|].
    + apply isShortDate_ShortForm in Hs as (ms & ds & Hs).
      apply isShortDate_ShortForm in He as (me & de & He).
      rewrite (normalizeDateRange_short s e y ms ds me de Hs He). cbn.
      by rewrite (normalizeDate_short e y me de He).
    + unfold TripParser.normalizeDateRange. by rewrite Hs, He.
    + unfold TripParser.normalizeDateRange. by rewrite Hs.
  - intros ms ds me de Hs He.
    rewrite (normalizeDateRange_short s e y ms ds me de Hs He). cbn.
    rewrite !(normalizeDate_short s _ ms ds Hs).
    split; [done|]. split.
    + intros Hlt. destruct (Z.ltb_spec me ms); [|lia]. split; [done|].
      intros Heq%dashed_year_inj. lia.
    + intros Hle. by destruct (Z.ltb_spec me ms); [lia|].
  - intros Hno. unfold TripParser.normalizeDateRange.
    destruct (TripParser.isShortDate s) eqn:Hs; [|done].
    destruct Hno as [Hno|Hno]; [done|]. by rewrite Hno.
Qed.

(** The range "12-29 ~ 02.12" read in 2026 starts in 2025, and "02-03 ~
    02-05" starts in 2026. *)
Lemma normalizeDateRange_by_normalizeDate_witness :
  TripParser.startDate
    (TripParser.normalizeDateRange (js "12-29") (js "02.12") 2026)
    = js "2025-12-29" /\
  TripParser.startDate
    (TripParser.normalizeDateRange (js "02-03") (js "02-05") 2026)
    = js "2026-02-03".
Proof.
  assert (TripSpec.ShortForm (js "12-29") 12 29) as H1.
  { exists (js "12"), HYPHEN, (js "29").
    repeat split; try reflexivity; try (repeat constructor); try (by left);
      cbn; lia. }
  assert (TripSpec.ShortForm (js "02.12") 2 12) as H2.
  { exists (js "02"), DOT, (js "12").
    repeat split; try reflexivity; try (repeat constructor); try (by right);
      cbn; lia. }
  assert (TripSpec.ShortForm (js "02-03") 2 3) as H3.
  { exists (js "02"), HYPHEN, (js "03").
    repeat split; try reflexivity; try (repeat constructor); try (by left);
      cbn; lia. }
  assert (TripSpec.ShortForm (js "02-05") 2 5) as H4.
  { exists (js "02"), HYPHEN, (js "05").
    repeat split; try reflexivity; try (repeat constructor); try (by left);
      cbn; lia. }
  split.
  - destruct (normalizeDateRange_by_normalizeDate (js "12-29") (js "02.12") 2026)
      as (_ & Hshift & _).
    destruct (Hshift _ _ _ _ H1 H2) as (_ & Hlt & _).
    destruct Hlt as [-> _]; [lia|reflexivity].
  - destruct (normalizeDateRange_by_normalizeDate (js "02-03") (js "02-05") 2026)
      as (_ & Hshift & _).
    destruct (Hshift _ _ _ _ H3 H4) as (_ & _ & Hle).
    rewrite Hle by lia. reflexivity.
Defined.

Section DateLines.

Import TripParser TripSpec.

Lemma trimStart_ws w c t :
  Forall (fun x => isWhiteSpace x = true) w -> isWhiteSpace c = false ->
  trimStart (w ++ c :: t) = c :: t.
Proof.
  intros Hw Hc. induction Hw as [|x w Hx _ IH]; cbn.
  - by rewrite Hc.
  - by rewrite Hx.
Qed.

Lemma mmdd_digits a b c d rest :
  isDigit a = true -> isDigit b = true -> isDigit c = true -> isDigit d = true ->
  mmdd ([a; b; HYPHEN; c; d] ++ rest) = Some ([a; b; HYPHEN; c; d], rest).
Proof. intros Ha Hb Hc Hd. cbn. by rewrite Ha, Hb, Hc, Hd. Qed.

End DateLines.

(** X3. The lines that open a block.  [dateMatch] accepts a line exactly
    when it is two digits, a hyphen and two digits, alone or followed by a
    tilde and a second such group, with any white space around the tilde and
    nothing else; the groups are the two dates. *)
Theorem dateMatch_accepts (l g1 : jsstring) (g2 : option jsstring) :
  TripParser.dateMatch l = Some (g1, g2) <->
  exists a b c d,
    g1 = [a; b; HYPHEN; c; d] /\
    isDigit a = true /\ isDigit b = true /\
    isDigit c = true /\ isDigit d = true /\
    (g2 = None /\ l = g1 \/
     exists e f g h w1 w2,
       g2 = Some [e; f; HYPHEN; g; h] /\
       isDigit e = true /\ isDigit f = true /\
       isDigit g = true /\ isDigit h = true /\
       Forall (fun x => isWhiteSpace x = true) w1 /\
       Forall (fun x => isWhiteSpace x = true) w2 /\
       l = g1 ++ w1 ++ [TILDE] ++ w2 ++ [e; f; HYPHEN; g; h]).
Proof.
  split.
  - unfold TripParser.dateMatch. intros H.
    destruct (TripParser.mmdd l) as [[g rest]|] eqn:Hm; [|done].
    apply mmdd_inv in Hm as (a & b & c & d & -> & -> & Ha & Hb & Hc & Hd).
    destruct rest as [|x rest].
    { injection H as <- <-. exists a, b, c, d. repeat split; try done.
      left. by rewrite app_nil_r. }
    destruct (trimStart_split (x :: rest)) as (w1 & E1 & Hw1).
    destruct (trimStart (x :: rest)) as [|t rest'] eqn:Et; [done|].
    destruct (N.eqb_spec t TILDE) as [->|]; [|done].
    destruct (trimStart_split rest') as (w2 & E2 & Hw2).
    destruct (TripParser.mmdd (trimStart rest')) as [[g' rest2]|] eqn:Hm2; [|done].
    destruct rest2; [|done]. injection H as <- <-.
    apply mmdd_inv in Hm2 as (e & f & g & h & -> & E3 & He & Hf & Hg & Hh).
    exists a, b, c, d. repeat split; try done. right.
    exists e, f, g, h, w1, w2. repeat split; try done.
    assert (rest' = w2 ++ [e; f; HYPHEN; g; h]) as ->.
    { rewrite E2 at 1. rewrite E3. by rewrite app_nil_r. }
    by rewrite E1.
  - intros (a & b & c & d & -> & Ha & Hb & Hc & Hd & H).
    unfold TripParser.dateMatch.
    destruct H as [[-> ->]|(e & f & g & h & w1 & w2 & -> & He & Hf & Hg & Hh
                            & Hw1 & Hw2 & ->)].
    + rewrite <- (app_nil_r [a; b; HYPHEN; c; d]) at 1.
      by rewrite mmdd_digits.
    + rewrite mmdd_digits by done.
      assert (trimStart (w1 ++ [TILDE] ++ w2 ++ [e; f; HYPHEN; g; h])
              = TILDE :: w2 ++ [e; f; HYPHEN; g; h]) as Et
        by (by apply trimStart_ws).
      destruct (w1 ++ [TILDE] ++ w2 ++ [e; f; HYPHEN; g; h]) as [|x rest] eqn:Ew.
      { by destruct w1. }
      rewrite Et. cbn [N.eqb]. rewrite N.eqb_refl.
      assert (trimStart (w2 ++ [e; f; HYPHEN; g; h]) = [e; f; HYPHEN; g; h] ++ [])
        as -> by (rewrite app_nil_r; apply trimStart_ws; [done|by apply isDigit_not_ws]).
      by rewrite mmdd_digits.
Qed.

Section BaseYear.

Import TripParser TripSpec MoreSpec.

Lemma isoShape_length d : isoShape d = true -> length d = 10%nat.
Proof. do 11 (destruct d as [|? d]; try done). Qed.

Lemma isoPrefix_spec s g :
  isoPrefix s = Some g <->
  exists d post, s = d ++ post /\ isoShape d = true /\ g = take 4 d.
Proof.
  split.
  - intros H. do 10 (destruct s as [|? s]; try done). cbn in H.
    match type of H with
    | (if ?b then _ else _) = _ => destruct b eqn:Hb; [|done]
    end.
    injection H as <-.
    eexists [_; _; _; _; _; _; _; _; _; _], s. split; [reflexivity|].
    split; [exact Hb|reflexivity].
  - intros (d & post & -> & Hd & ->).
    do 11 (destruct d as [|? d]; try done). cbn in Hd |- *. by rewrite Hd.
Qed.

Lemma isoPrefix_None s :
  isoPrefix s = None ->
  forall d post, s = d ++ post -> isoShape d = true -> False.
Proof.
  intros Hn d post E Hd.
  assert (isoPrefix s = Some (take 4 d)) as H by (apply isoPrefix_spec; eauto).
  by rewrite Hn in H.
Qed.

Lemma yearMatch_unfold l :
  yearMatch l =
  match isoPrefix l with
  | Some g => Some g
  | None => match l with [] => None | _ :: l' => yearMatch l' end
  end.
Proof. by destruct l. Qed.

(** [yearMatch] finds the leftmost full date of a line. *)
Lemma yearMatch_Some l g :
  yearMatch l = Some g ->
  exists pre d post,
    l = pre ++ d ++ post /\ isoShape d = true /\ g = take 4 d /\
    forall pre' d' post', l = pre' ++ d' ++ post' -> isoShape d' = true ->
      (length pre <= length pre')%nat.
Proof.
  induction l as [|c l IH]; cbn [yearMatch].
  - destruct (isoPrefix []) eqn:E; [|done]. intros [= <-].
    apply isoPrefix_spec in E as (d & post & E & Hd & ->).
    exists [], d, post. repeat split; try done. intros; cbn; lia.
  - destruct (isoPrefix (c :: l)) eqn:E.
    + intros [= <-]. apply isoPrefix_spec in E as (d & post & E & Hd & ->).
      exists [], d, post. repeat split; try done. intros; cbn; lia.
    + intros (pre & d & post & -> & Hd & -> & Hleft)%IH.
      exists (c :: pre), d, post. repeat split; try done.
      intros [|c' pre'] d' post' E' Hd'.
      * exfalso. by eapply (isoPrefix_None _ E d' post').
      * injection E' as <- E'. cbn. apply le_n_S. by eapply Hleft.
Qed.

Lemma yearMatch_None l : yearMatch l = None <-> ~ hasFullDate l.
Proof.
  split.
  - intros Hn (pre & d & post & -> & Hd).
    induction pre as [|c pre IH]; rewrite yearMatch_unfold in Hn; cbn [app] in Hn.
    + destruct (isoPrefix (d ++ post)) eqn:E; [done|].
      by eapply (isoPrefix_None _ E d post).
    + destruct (isoPrefix (c :: pre ++ d ++ post)); [done|]. by apply IH.
  - intros Hn. destruct (yearMatch l) as [g|] eqn:E; [|done].
    exfalso. apply Hn.
    apply yearMatch_Some in E as (pre & d & post & -> & Hd & _).
    by exists pre, d, post.
Qed.

Lemma parseInt10_year d :
  isoShape d = true ->
  parseInt10 (take 4 d) = Num (digitsValue (take 4 d)) /\
  (0 <= digitsValue (take 4 d) <= 9999)%Z.
Proof.
  intros Hd. do 11 (destruct d as [|? d]; try done). cbn in Hd.
  repeat match type of Hd with
         | (_ && _ = true) => apply andb_prop in Hd as [Hd ?]
         end.
  cbn [take].
  repeat match goal with
         | H : isDigit ?c = true |- _ =>
             pose proof (proj1 (isDigit_bounds c) H);
             pose proof (isDigit_not_ws c H);
             pose proof (digitVal_range c H); revert H
         end; intros.
  split.
  - unfold parseInt10. rewrite trimStart_head by done.
    repeat match goal with
           | |- context [N.eqb ?a ?b] =>
               destruct (N.eqb_spec a b); [exfalso; lia|]
           end.
    cbn [digitsPrefix].
    repeat match goal with H : isDigit _ = true |- _ => rewrite H; clear H end.
    reflexivity.
  - unfold digitsValue. cbn [foldl]. lia.
Qed.

End BaseYear.

(** X4. The base year of a text.  When no line holds a full date
    YYYY-MM-DD the base year is the year of the clock; otherwise it is the
    number that the four digits of the leftmost full date of the first such
    line denote, so it lies between 0 and 9999. *)
Theorem baseYear_spec (clockYear : Z) (lines : list jsstring) :
  (forall l, l ∈ lines -> ~ MoreSpec.hasFullDate l) /\
    TripParser.baseYear clockYear lines = clockYear
  \/
  exists before l after pre d post,
    lines = before ++ l :: after /\
    (forall l', l' ∈ before -> ~ MoreSpec.hasFullDate l') /\
    l = pre ++ d ++ post /\ TripSpec.isoShape d = true /\
    (forall pre' d' post', l = pre' ++ d' ++ post' ->
       TripSpec.isoShape d' = true -> (length pre <= length pre')%nat) /\
    TripParser.baseYear clockYear lines = digitsValue (take 4 d) /\
    (0 <= TripParser.baseYear clockYear lines <= 9999)%Z.
Proof.
  induction lines as [|l lines IH]; cbn [TripParser.baseYear].
  - left. split; [|done]. by intros ? ?%elem_of_nil.
  - destruct (TripParser.yearMatch l) as [g|] eqn:E.
    + right.
      apply yearMatch_Some in E as (pre & d & post & El & Hd & -> & Hleft).
      destruct (parseInt10_year d Hd) as [-> Hrange].
      exists [], l, lines, pre, d, post. repeat split; try done; try lia.
      by intros ? ?%elem_of_nil.
    + apply yearMatch_None in E.
      destruct IH as [[Hno ->]|(before & l0 & after & pre & d & post & -> & Hno
                                & El & Hd & Hleft & Hy & Hrange)].
      * left. split; [|done]. by intros l' [->|?]%elem_of_cons; [|apply Hno].
      * right. exists (l :: before), l0, after, pre, d, post.
        repeat split; try done; try lia.
        by intros l' [->|?]%elem_of_cons; [|apply Hno].
Qed.

Section ParseMore.

Import TripParser TripSpec MoreSpec.

Variable randomUUID : nat -> jsstring.
Variable now : jsstring.
Variable memberMap : gmap jsstring (list TeamMember.t).
Variable lines : list jsstring.
Variable currentYear : Z.

Local Abbreviation scanLines' :=
  (scanLines randomUUID now memberMap lines currentYear).
Local Abbreviation pushBlock' :=
  (pushBlock randomUUID now memberMap lines currentYear).
Local Abbreviation blockTrip' :=
  (blockTrip randomUUID now memberMap lines currentYear).

(** Without a block the scan changes nothing. *)
Lemma scanLines_no_block budget : forall i st,
  (forall j, startsBlock lines j = false) ->
  (length lines <= i + budget)%nat ->
  scanLines' budget i st = Normal st.
Proof.
  induction budget as [|budget IH]; intros i st Hno Hlen.
  - apply scanLines_done. lia.
  - destruct (decide (i < length lines)%nat) as [Hi|Hi].
    + rewrite scanLines_skip by auto. apply IH; [done|lia].
    + apply scanLines_done. lia.
Qed.

Lemma idsInOrder_push i st :
  startsBlock lines i = true -> idsInOrder randomUUID st -> idsInOrder randomUUID (pushBlock' i st).
Proof.
  intros Hb Hst.
  destruct (pushBlock_trips randomUUID now memberMap lines currentYear i st Hb)
    as (t & Ht & ->).
  apply blockTrip_inv in Ht as (l & g1 & g2 & n & p & _ & _ & _ & _ & ->).
  unfold idsInOrder in *. cbn [scanTrips].
  rewrite fmap_app, length_app, Hst. cbn [length].
  rewrite Nat.add_1_r, seq_S, fmap_app. done.
Qed.

Lemma unknownFromTrips_push i st :
  startsBlock lines i = true ->
  unknownFromTrips st -> unknownFromTrips (pushBlock' i st).
Proof.
  intros Hb Hst.
  destruct (pushBlock_trips randomUUID now memberMap lines currentYear i st Hb)
    as (t & Ht & ->).
  intros x. cbn [scanTrips scanUnknown]. unfold noteUnknown.
  intros Hx.
  assert (x = BusinessTrip.name t \/ x ∈ scanUnknown st) as [->|Hin].
  { destruct (memberMap !! BusinessTrip.name t); [by right|].
    by apply setAdd_elem in Hx. }
  - exists t. split; [|done]. apply elem_of_app. right. by apply list_elem_of_singleton.
  - destruct (Hst x Hin) as (t' & Ht' & <-). exists t'. split; [|done].
    apply elem_of_app. by left.
Qed.

End ParseMore.

Section ParseMoreText.

Import TripParser TripSpec MoreSpec.

Variable randomUUID : nat -> jsstring.
Variable now : jsstring.
Variable clockYear : Z.
Variable text : jsstring.
Variable roster : list TeamMember.t.

(** The facts about the scan that the properties below rest on. *)
Lemma parseTripText_scan :
  exists mm st,
    (forall k, mm !! k =
       match matching roster k with [] => None | cs => Some cs end) /\
    scanInvariant randomUUID now mm (textLines text)
      (baseYear clockYear (textLines text)) st /\
    idsInOrder randomUUID st /\ unknownFromTrips st /\
    parseTripText randomUUID now clockYear text roster =
      Normal {| trips := firstOccurrences [] (scanTrips st);
                unknownNames := scanUnknown st;
                ambiguousTrips :=
                  ambiguousOf mm (firstOccurrences [] (scanTrips st)) |}.
Proof.
  destruct (parseTripText_char randomUUID now clockYear text roster)
    as (mm & st & _ & Hmm & _ & Hst & Hinv & _ & Hr).
  exists mm, st. split; [done|]. split; [done|]. split; [|split; [|done]].
  - eapply (scanLines_invariant randomUUID now mm (textLines text)
              (baseYear clockYear (textLines text)) (idsInOrder randomUUID));
      [|..|exact Hst]; [apply idsInOrder_push|done].
  - eapply (scanLines_invariant randomUUID now mm (textLines text)
              (baseYear clockYear (textLines text)) unknownFromTrips);
      [|..|exact Hst]; [apply unknownFromTrips_push|].
    by intros ? ?%elem_of_nil.
Qed.

End ParseMoreText.

(** X5. A text without a block yields nothing.  When the text has fewer
    than three non-empty lines, or no line of it is a date line,
    [parseTripText] returns no trip, no unknown name and no ambiguous trip,
    whatever the roster. *)
Theorem parseTripText_no_block
    (randomUUID : nat -> jsstring) (now : jsstring) (clockYear : Z)
    (text : jsstring) (roster : list TeamMember.t) :
  (length (TripParser.textLines text) < 3)%nat \/
  (forall l, l ∈ TripParser.textLines text -> TripParser.dateMatch l = None) ->
  TripParser.parseTripText randomUUID now clockYear text roster =
    Normal {| TripParser.trips := []; TripParser.unknownNames := [];
              TripParser.ambiguousTrips := [] |}.
Proof.
  intros H.
  assert (forall j, TripSpec.startsBlock (TripParser.textLines text) j = false)
    as Hno.
  { intros j. unfold TripSpec.startsBlock.
    destruct (TripParser.textLines text !! j) as [l|] eqn:El; [|done].
    destruct (TripParser.textLines text !! (j + 1)%nat) as [n|]; [|done].
    destruct H as [H|H].
    - rewrite (bool_decide_eq_false_2 (j + 2 < _)%nat) by lia.
      by rewrite andb_false_r.
    - rewrite (H l) by (by eapply list_elem_of_lookup_2).
      rewrite bool_decide_eq_false_2; [done|]. by intros [? ?]. }
  destruct (parseTripText_char randomUUID now clockYear text roster)
    as (mm & st & _ & _ & _ & Hst & _ & _ & ->).
  rewrite scanLines_no_block in Hst by (done || lia).
  by injection Hst as <-.
Qed.

(** The empty text, and a text of plain lines. *)
Lemma parseTripText_no_block_witness :
  TripParser.parseTripText (fun k => [N.of_nat k]) (js "2026-11-03") 2026
    [] [] =
    Normal {| TripParser.trips := []; TripParser.unknownNames := [];
              TripParser.ambiguousTrips := [] |} /\
  TripParser.parseTripText (fun k => [N.of_nat k]) (js "2026-11-03") 2026
    (TripParser.unlines [js "Kim"; js "2026-02-03"; js "출장"; js "2-3"]) [] =
    Normal {| TripParser.trips := []; TripParser.unknownNames := [];
              TripParser.ambiguousTrips := [] |}.
Proof.
  split.
  - apply parseTripText_no_block. left. vm_compute. lia.
  - apply parseTripText_no_block. right. intros l Hl.
    vm_compute in Hl.
    repeat (apply elem_of_cons in Hl as [->|Hl]; [by vm_compute|]).
    by apply elem_of_nil in Hl.
Defined.

Section Sublists.

Import TripParser TripSpec.

Lemma ambiguousOf_ids mm ts :
  (fun a => BusinessTrip.id (Ambiguous.trip a)) <$> ambiguousOf mm ts
    `sublist_of` BusinessTrip.id <$> ts.
Proof.
  induction ts as [|t ts IH]; [done|].
  rewrite ambiguousOf_cons. cbn [fmap list_fmap].
  destruct (BusinessTrip.knoxId t); [by apply sublist_cons|].
  destruct (mm !! BusinessTrip.name t) as [cs|]; [|by apply sublist_cons].
  case_bool_decide; [|by apply sublist_cons].
  cbn. by apply sublist_skip.
Qed.

End Sublists.

(** X6. Distinct identifiers.  When [crypto.randomUUID] never gives the same
    answer twice, the trips that [parseTripText] returns have pairwise
    distinct identifiers, and so have the trips of the ambiguous entries:
    the keys under which the dialog records the choices do not collide. *)
Theorem parseTripText_ids_distinct
    (randomUUID : nat -> jsstring) (now : jsstring) (clockYear : Z)
    (text : jsstring) (roster : list TeamMember.t) :
  (forall i j, randomUUID i = randomUUID j -> i = j) ->
  exists r,
    TripParser.parseTripText randomUUID now clockYear text roster = Normal r /\
    NoDup (BusinessTrip.id <$> TripParser.trips r) /\
    NoDup ((fun a => BusinessTrip.id (Ambiguous.trip a))
             <$> TripParser.ambiguousTrips r).
Proof.
  intros Hinj.
  destruct (parseTripText_scan randomUUID now clockYear text roster)
    as (mm & st & _ & _ & Hids & _ & ->).
  eexists. split; [reflexivity|]. cbn.
  assert (NoDup (BusinessTrip.id <$> TripParser.scanTrips st)) as Hnd.
  { rewrite Hids. apply NoDup_fmap_2_strong; [|apply NoDup_seq].
    intros i j _ _. apply Hinj. }
  assert (NoDup (BusinessTrip.id
                   <$> TripSpec.firstOccurrences [] (TripParser.scanTrips st)))
    as Hnd'.
  { eapply sublist_NoDup; [exact Hnd|].
    apply fmap_sublist, firstOccurrences_sublist. }
  split; [done|].
  eapply sublist_NoDup; [exact Hnd'|]. apply ambiguousOf_ids.
Qed.

(** Three blocks, two of them for the two members called Kim. *)
Lemma parseTripText_ids_distinct_witness :
  let kim1 := TeamMember.mk (js "m1") (js "Kim") (Some (js "kim.a")) (js "Sales") in
  let kim2 := TeamMember.mk (js "m2") (js "Kim") (Some (js "kim.b")) (js "Design") in
  exists r,
    TripParser.parseTripText (fun k => [N.of_nat k]) (js "2026-11-03") 2026
      (TripParser.unlines
         [js "02-03"; js "Kim"; js "출장"; js "02-04"; js "Lee"; js "교육";
          js "02-05"; js "Kim"; js "연차"]) [kim1; kim2] = Normal r /\
    NoDup (BusinessTrip.id <$> TripParser.trips r) /\
    NoDup ((fun a => BusinessTrip.id (Ambiguous.trip a))
             <$> TripParser.ambiguousTrips r).
Proof.
  intros kim1 kim2. apply parseTripText_ids_distinct.
  intros i j [= H]. lia.
Defined.

(** X7. What every returned trip looks like.  Its location is '해외', its
    status 'planned', both time stamps are the time of the call and its
    category is the one of its purpose.  Name and purpose are non-empty
    trimmed lines, and the name passes for a name.  Both dates are dashed
    dates: the end date lies in the base year of the text, and the start
    date in the base year, or in the year before when the start month is
    greater than the end month. *)
Theorem parseTripText_trip_shape
    (randomUUID : nat -> jsstring) (now : jsstring) (clockYear : Z)
    (text : jsstring) (roster : list TeamMember.t) :
  let year := TripParser.baseYear clockYear (TripParser.textLines text) in
  exists r,
    TripParser.parseTripText randomUUID now clockYear text roster = Normal r /\
    forall t, t ∈ TripParser.trips r ->
      BusinessTrip.location t = js "해외" /\
      BusinessTrip.status t = js "planned" /\
      BusinessTrip.createdAt t = now /\ BusinessTrip.updatedAt t = now /\
      BusinessTrip.category t = TripParser.classifyPurpose (BusinessTrip.purpose t) /\
      BusinessTrip.name t <> [] /\ trim (BusinessTrip.name t) = BusinessTrip.name t /\
      TripParser.isName (BusinessTrip.name t) = true /\
      BusinessTrip.purpose t <> [] /\
      trim (BusinessTrip.purpose t) = BusinessTrip.purpose t /\
      exists ms ds me de,
        (0 <= ms < 100)%Z /\ (0 <= ds < 100)%Z /\
        (0 <= me < 100)%Z /\ (0 <= de < 100)%Z /\
        BusinessTrip.startDate t =
          TripSpec.dashed (if (me <? ms)%Z then year - 1 else year)%Z ms ds /\
        BusinessTrip.endDate t = TripSpec.dashed year me de.
Proof.
  intros year.
  destruct (parseTripText_char randomUUID now clockYear text roster)
    as (mm & st & _ & _ & _ & _ & (Hfrom & _) & _ & ->).
  eexists. split; [reflexivity|]. cbn [TripParser.trips]. intros t Ht.
  eapply elem_of_sublist in Ht; [|apply firstOccurrences_sublist].
  destruct (Hfrom t Ht) as (k & i & Hb & Hbt).
  apply startsBlock_inv in Hb as (l & g1 & g2 & n & p & Hl & Hd & Hn & Hp & Hname & _).
  apply blockTrip_inv in Hbt
    as (l' & g1' & g2' & n' & p' & Hl' & Hd' & Hn' & Hp' & ->).
  rewrite Hl in Hl'. rewrite Hn in Hn'. rewrite Hp in Hp'.
  injection Hl' as <-. injection Hn' as <-. injection Hp' as <-.
  rewrite Hd in Hd'. injection Hd' as <- <-.
  destruct (textLines_trimmed text n) as [Htn Hne]; [by eapply list_elem_of_lookup_2|].
  destruct (textLines_trimmed text p) as [Htp Hpe]; [by eapply list_elem_of_lookup_2|].
  destruct (makeTrip_dates randomUUID now year k l g1 g2 (trim n) (trim p)
              (TripSpec.knoxOf mm (trim n)) Hd)
    as (ms & ds & me & de & Hs & He & Hstart & Hend).
  destruct (ShortForm_range _ _ _ Hs) as [Hms Hds].
  assert ((0 <= me < 100)%Z /\ (0 <= de < 100)%Z) as [Hme Hde].
  { destruct g2 as [e|]; [by apply (ShortForm_range e)|]. destruct He as [-> ->]. done. }
  cbn [BusinessTrip.location BusinessTrip.status BusinessTrip.createdAt
       BusinessTrip.updatedAt BusinessTrip.category BusinessTrip.purpose
       BusinessTrip.name TripParser.makeTrip].
  rewrite trim_idemp, !Htn, !Htp. rewrite Htn in Hname.
  do 10 (split; [done|]).
  exists ms, ds, me, de. by do 5 (split; [done|]).
Qed.

(** X8. The roster decides exactly what is unknown and what is ambiguous.
    [unknownNames] holds the names of the returned trips that no roster
    member has, and nothing else; [ambiguousTrips] holds the returned trips
    whose name two or more members have, each with all these members, and
    nothing else; a trip carries a [knoxId] only when exactly one member has
    its name, and then it is the one of that member. *)
Theorem parseTripText_roster_exact
    (randomUUID : nat -> jsstring) (now : jsstring) (clockYear : Z)
    (text : jsstring) (roster : list TeamMember.t) :
  exists r,
    TripParser.parseTripText randomUUID now clockYear text roster = Normal r /\
    (forall x, x ∈ TripParser.unknownNames r <->
       exists t, t ∈ TripParser.trips r /\ BusinessTrip.name t = x /\
         TripSpec.matching roster x = []) /\
    (forall a, a ∈ TripParser.ambiguousTrips r <->
       exists t, t ∈ TripParser.trips r /\
         a = Ambiguous.mk t (TripSpec.matching roster (BusinessTrip.name t)) /\
         (2 <= length (TripSpec.matching roster (BusinessTrip.name t)))%nat) /\
    (forall t k, t ∈ TripParser.trips r -> BusinessTrip.knoxId t = Some k ->
       exists m, TripSpec.matching roster (BusinessTrip.name t) = [m] /\
         TeamMember.knoxId m = Some k).
Proof.
  destruct (parseTripText_scan randomUUID now clockYear text roster)
    as (mm & st & Hmm & (Hfrom & Hunk & _ & Hnone) & _ & Hut & ->).
  eexists. split; [reflexivity|].
  cbn [TripParser.trips TripParser.unknownNames TripParser.ambiguousTrips].
  assert (forall t, t ∈ TripSpec.firstOccurrences [] (TripParser.scanTrips st) ->
            BusinessTrip.knoxId t = TripSpec.knoxOf mm (BusinessTrip.name t))
    as Hknox.
  { intros t Ht. eapply elem_of_sublist in Ht; [|apply firstOccurrences_sublist].
    destruct (Hfrom t Ht) as (k & i & _ & Hbt).
    by apply blockTrip_inv in Hbt as (l & g1 & g2 & n & p & _ & _ & _ & _ & ->). }
  split; [|split].
  - intros x. split.
    + intros Hx. destruct (Hut x Hx) as (t & Ht & <-).
      destruct (firstOccurrences_covers (TripParser.scanTrips st) [] t Ht)
        as (t' & Ht' & Heq); [by intros ?%elem_of_nil|].
      injection Heq as Hname _ _.
      exists t'. split; [done|]. split; [done|].
      specialize (Hnone _ Hx). rewrite Hmm in Hnone.
      by destruct (TripSpec.matching roster (BusinessTrip.name t)).
    + intros (t & Ht & <- & Hm). apply Hunk.
      * eapply elem_of_sublist; [exact Ht|apply firstOccurrences_sublist].
      * by rewrite Hmm, Hm.
  - intros a. rewrite ambiguousOf_spec. split.
    + intros (t & cs & -> & Ht & _ & Hcs & Hlen).
      rewrite Hmm in Hcs. exists t. split; [done|].
      destruct (TripSpec.matching roster (BusinessTrip.name t)) eqn:E; [done|].
      injection Hcs as <-. split; [done|]. lia.
    + intros (t & Ht & -> & Hlen). exists t, (TripSpec.matching roster (BusinessTrip.name t)).
      split; [done|]. split; [done|].
      specialize (Hknox t Ht). unfold TripSpec.knoxOf in Hknox.
      rewrite Hmm in Hknox |- *.
      destruct (TripSpec.matching roster (BusinessTrip.name t)) as [|c [|c' cs]];
        cbn in Hlen; try lia.
      split; [done|]. split; [done|]. cbn. lia.
  - intros t k Ht Hk. specialize (Hknox t Ht). unfold TripSpec.knoxOf in Hknox.
    rewrite Hmm, Hk in Hknox.
    destruct (TripSpec.matching roster (BusinessTrip.name t)) as [|c [|c' cs]];
      try done.
    by exists c.
Qed.

Section RosterIndependence.

Import TripParser TripSpec MoreSpec.

Variable randomUUID : nat -> jsstring.
Variable now : jsstring.
Variable mm1 mm2 : gmap jsstring (list TeamMember.t).
Variable lines : list jsstring.
Variable currentYear : Z.

Lemma triple_stripKnox t : triple (stripKnox t) = triple t.
Proof. done. Qed.

Lemma stripKnox_triple t1 t2 :
  stripKnox t1 = stripKnox t2 -> triple t1 = triple t2.
Proof. intros H. by rewrite <- (triple_stripKnox t1), H. Qed.

Lemma pushBlock_strip i st1 st2 :
  startsBlock lines i = true ->
  stripKnox <$> scanTrips st1 = stripKnox <$> scanTrips st2 ->
  stripKnox <$> scanTrips (pushBlock randomUUID now mm1 lines currentYear i st1) =
  stripKnox <$> scanTrips (pushBlock randomUUID now mm2 lines currentYear i st2).
Proof.
  intros Hb Hst.
  assert (length (scanTrips st1) = length (scanTrips st2)) as Hlen.
  { by rewrite <- (length_fmap stripKnox), Hst, length_fmap. }
  destruct (pushBlock_trips randomUUID now mm1 lines currentYear i st1 Hb)
    as (t1 & Ht1 & ->).
  destruct (pushBlock_trips randomUUID now mm2 lines currentYear i st2 Hb)
    as (t2 & Ht2 & ->).
  cbn [scanTrips]. rewrite !fmap_app, Hst. f_equal.
  apply blockTrip_inv in Ht1 as (l & g1 & g2 & n & p & Hl & Hd & Hn & Hp & ->).
  apply blockTrip_inv in Ht2 as (l' & g1' & g2' & n' & p' & Hl' & Hd' & Hn' & Hp' & ->).
  rewrite Hl in Hl'. rewrite Hn in Hn'. rewrite Hp in Hp'.
  injection Hl' as <-. injection Hn' as <-. injection Hp' as <-.
  rewrite Hd in Hd'. injection Hd' as <- <-.
  by rewrite Hlen.
Qed.

Lemma scanLines_strip budget : forall i st1 st2 st1',
  stripKnox <$> scanTrips st1 = stripKnox <$> scanTrips st2 ->
  scanLines randomUUID now mm1 lines currentYear budget i st1 = Normal st1' ->
  exists st2',
    scanLines randomUUID now mm2 lines currentYear budget i st2 = Normal st2' /\
    stripKnox <$> scanTrips st1' = stripKnox <$> scanTrips st2'.
Proof.
  induction budget as [|budget IH]; intros i st1 st2 st1' Hst H1.
  - destruct (decide (i < length lines)%nat) as [Hi|Hi].
    + cbn in H1. by rewrite bool_decide_eq_true_2 in H1.
    + rewrite scanLines_done in H1 by lia. injection H1 as <-.
      exists st2. split; [|done]. apply scanLines_done. lia.
  - destruct (decide (i < length lines)%nat) as [Hi|Hi].
    + destruct (startsBlock lines i) eqn:Hb.
      * rewrite scanLines_block in H1 by done. rewrite scanLines_block by done.
        eapply IH; [|exact H1]. by apply pushBlock_strip.
      * rewrite scanLines_skip in H1 by done. rewrite scanLines_skip by done.
        by eapply IH.
    + rewrite scanLines_done in H1 by lia. injection H1 as <-.
      exists st2. split; [|done]. apply scanLines_done. lia.
Qed.

Lemma firstOccurrences_strip ts1 : forall ts2 earlier,
  stripKnox <$> ts1 = stripKnox <$> ts2 ->
  stripKnox <$> firstOccurrences earlier ts1 =
  stripKnox <$> firstOccurrences earlier ts2.
Proof.
  induction ts1 as [|t1 ts1 IH]; intros [|t2 ts2] earlier H; try done.
  pose proof (f_equal head H) as Ht. pose proof (f_equal tail H) as Hts.
  cbn [head tail fmap list_fmap] in Ht, Hts. apply (inj Some) in Ht.
  cbn [firstOccurrences].
  rewrite (stripKnox_triple t1 t2 Ht).
  case_bool_decide; [by apply IH|].
  cbn [fmap list_fmap]. rewrite Ht. f_equal. by apply IH.
Qed.

End RosterIndependence.

(** X9. The roster only fills in [knoxId].  Whatever the two rosters, the
    trips that [parseTripText] returns for a text, under the same clock and
    the same answers of [crypto.randomUUID], are the same ones in the same
    order, with the same names, dates, purposes and categories: they differ
    at most in [knoxId]. *)
Theorem parseTripText_roster_independent
    (randomUUID : nat -> jsstring) (now : jsstring) (clockYear : Z)
    (text : jsstring) (roster1 roster2 : list TeamMember.t) :
  exists r1 r2,
    TripParser.parseTripText randomUUID now clockYear text roster1 = Normal r1 /\
    TripParser.parseTripText randomUUID now clockYear text roster2 = Normal r2 /\
    MoreSpec.stripKnox <$> TripParser.trips r1 =
    MoreSpec.stripKnox <$> TripParser.trips r2.
Proof.
  destruct (parseTripText_char randomUUID now clockYear text roster1)
    as (mm1 & st1 & _ & _ & _ & Hst1 & _ & _ & ->).
  destruct (parseTripText_char randomUUID now clockYear text roster2)
    as (mm2 & st2 & _ & _ & _ & Hst2 & _ & _ & ->).
  eexists _, _. split; [reflexivity|]. split; [reflexivity|].
  cbn [TripParser.trips].
  destruct (scanLines_strip randomUUID now mm1 mm2 _ _ _ _ _
              {| TripParser.scanTrips := []; TripParser.scanUnknown := [] |}
              _ eq_refl Hst1) as (st2' & Hst2' & Heq).
  rewrite Hst2 in Hst2'. injection Hst2' as <-.
  by apply firstOccurrences_strip.
Qed.

(** * The resolver dialog: further properties *)

Section DialogMore.

Import ResolverDialog MoreSpec.

Lemma size_list_to_set_le (l : list jsstring) :
  (size (list_to_set (C:=gset jsstring) l) <= length l)%nat.
Proof.
  induction l as [|x l IH]; cbn [list_to_set length].
  - by rewrite size_empty.
  - rewrite size_union_alt, size_singleton.
    assert (size (list_to_set (C:=gset jsstring) l ∖ {[x]})
            <= size (list_to_set (C:=gset jsstring) l))%nat.
    { apply subseteq_size. apply subseteq_difference_l. done. }
    lia.
Qed.

Lemma reachable_dom amb r :
  reachable amb r -> dom r ⊆ list_to_set (C:=gset jsstring) (tripIds amb).
Proof.
  intros Hr k [v Hv]%elem_of_dom.
  destruct (reachable_rendered amb r Hr k v Hv) as (t & c & Ht & _ & -> & _).
  apply elem_of_list_to_set, list_elem_of_fmap. by exists t.
Qed.

Lemma selectAll_app cs1 cs2 r :
  selectAll (cs1 ++ cs2) r = selectAll cs2 (selectAll cs1 r).
Proof. unfold selectAll. by rewrite foldl_app. Qed.

(** After a sequence of clicks a key holds the value of the last click on
    it. *)
Lemma selectAll_last pre id k post r :
  id ∉ post.*1 ->
  selectAll (pre ++ (id, k) :: post) r !! id = Some k.
Proof.
  intros Hpost. rewrite selectAll_app.
  generalize (selectAll pre r). clear pre r. intros r.
  cbn [selectAll foldl fst snd]. unfold handleSelect at 2.
  assert (forall r', r' !! id = Some k -> foldl
            (fun r c => handleSelect c.1 c.2 r) r' post !! id = Some k) as H.
  { induction post as [|[id' k'] post IH]; intros r' Hr'; [done|].
    cbn [foldl fst snd]. apply IH.
    - intros Hin. apply Hpost. cbn. by apply elem_of_cons; right.
    - unfold handleSelect. rewrite lookup_insert_ne; [done|].
      intros ->. apply Hpost. cbn. by apply elem_of_cons; left. }
  apply H. by rewrite lookup_insert_eq.
Qed.

Lemma last_choice (id : jsstring) (cs : list (jsstring * option jsstring)) :
  id ∈ cs.*1 ->
  exists pre k post, cs = pre ++ (id, k) :: post /\ id ∉ post.*1.
Proof.
  induction cs as [|[id' k'] cs IH]; cbn; [by intros ?%elem_of_nil|].
  intros Hin.
  destruct (decide (id ∈ cs.*1)) as [Hcs|Hcs].
  - destruct (IH Hcs) as (pre & k & post & -> & Hpost).
    by exists ((id', k') :: pre), k, post.
  - apply elem_of_cons in Hin as [->|Hin]; [|done].
    by exists [], k', cs.
Qed.

End DialogMore.

(** X10. The dialog at its opening.  The effect of opening empties the
    choices.  The confirm button is then disabled as soon as some listed trip
    has an id that is no name of [Object.prototype], and a click on it calls
    nothing; when every listed trip has such a name for id, and so when no
    trip is listed, the button is enabled and a click passes the empty map to
    [onResolve]. *)
Theorem confirm_at_opening
    (ambiguousTrips : list Ambiguous.t) (previous : ResolverDialog.Resolutions) :
  let opened := ResolverDialog.openEffect true previous in
  ((exists t, t ∈ ambiguousTrips /\
      BusinessTrip.id (Ambiguous.trip t) ∉ ResolverDialog.objectPrototypeNames) ->
   ResolverDialog.confirmDisabled ambiguousTrips opened = true /\
   ResolverDialog.click ambiguousTrips opened ResolverDialog.ClickConfirm
     = (∅, [])) /\
  ((forall t, t ∈ ambiguousTrips ->
      BusinessTrip.id (Ambiguous.trip t) ∈ ResolverDialog.objectPrototypeNames) ->
   ResolverDialog.confirmDisabled ambiguousTrips opened = false /\
   ResolverDialog.click ambiguousTrips opened ResolverDialog.ClickConfirm
     = (∅, [ResolverDialog.onResolve ∅])) /\
  (ambiguousTrips = [] ->
   ResolverDialog.confirmDisabled ambiguousTrips opened = false).
Proof.
  cbn zeta. cbn [ResolverDialog.openEffect].
  assert (ResolverDialog.isAllResolved ambiguousTrips ∅ = true <->
          forall t, t ∈ ambiguousTrips ->
            BusinessTrip.id (Ambiguous.trip t) ∈ ResolverDialog.objectPrototypeNames)
    as Hopen.
  { rewrite isAllResolved_spec. split; intros H t Ht; specialize (H t Ht).
    - rewrite prop_absent in H by apply lookup_empty.
      by case_bool_decide.
    - rewrite prop_absent by apply lookup_empty.
      by rewrite bool_decide_eq_true_2. }
  split; [|split].
  - intros (t & Ht & Hid).
    assert (ResolverDialog.isAllResolved ambiguousTrips ∅ = false) as Hres.
    { apply not_true_is_false. intros H. apply Hid. by apply Hopen. }
    unfold ResolverDialog.click, ResolverDialog.confirmDisabled. by rewrite Hres.
  - intros Hall. apply Hopen in Hall.
    unfold ResolverDialog.click, ResolverDialog.confirmDisabled. by rewrite Hall.
  - by intros ->.
Qed.

(** A dialog reopened on one trip, after an earlier choice. *)
Lemma confirm_at_opening_witness :
  let kim := TeamMember.mk (js "m1") (js "Kim") (Some (js "kim.a")) (js "Sales") in
  let t := BusinessTrip.mk (js "trip-1") None (js "Kim") (js "2026-02-03")
             (js "2026-02-05") (js "해외") (js "출장") TripCategory.trip
             (js "planned") (js "2026-11-03") (js "2026-11-03") in
  let previous : ResolverDialog.Resolutions :=
    {[ js "trip-1" := Some (js "kim.a") ]} in
  ResolverDialog.confirmDisabled [Ambiguous.mk t [kim; kim]]
    (ResolverDialog.openEffect true previous) = true /\
  ResolverDialog.confirmDisabled [] (ResolverDialog.openEffect true previous)
    = false.
Proof.
  intros kim t previous. split.
  - apply (confirm_at_opening [Ambiguous.mk t [kim; kim]] previous).
    exists (Ambiguous.mk t [kim; kim]). split; [apply list_elem_of_here|].
    apply (bool_decide_unpack _). by vm_compute.
  - by apply (confirm_at_opening [] previous).
Defined.

(** X11. The count on the confirm button.  In the states that clicks on
    the rendered buttons reach, the number of recorded keys never exceeds
    the number of listed trips.  When the listed trips have distinct
    identifiers, the count has reached the number of trips as soon as the
    button is enabled, provided that no identifier is a name of
    [Object.prototype]; and the button is enabled as soon as the count has
    reached the number of trips, provided that every candidate has a
    [knoxId]. *)
Theorem confirm_count
    (ambiguousTrips : list Ambiguous.t)
    (resolutions : ResolverDialog.Resolutions) :
  ResolverDialog.reachable ambiguousTrips resolutions ->
  (MoreSpec.resolvedCount resolutions <= length ambiguousTrips)%nat /\
  (NoDup (MoreSpec.tripIds ambiguousTrips) ->
   ((forall t, t ∈ ambiguousTrips ->
       BusinessTrip.id (Ambiguous.trip t) ∉ ResolverDialog.objectPrototypeNames) ->
    ResolverDialog.confirmDisabled ambiguousTrips resolutions = false ->
    MoreSpec.resolvedCount resolutions = length ambiguousTrips) /\
   ((forall t c, t ∈ ambiguousTrips -> c ∈ Ambiguous.candidates t ->
       is_Some (TeamMember.knoxId c)) ->
    MoreSpec.resolvedCount resolutions = length ambiguousTrips ->
    ResolverDialog.confirmDisabled ambiguousTrips resolutions = false)).
Proof.
  intros Hr. pose proof (reachable_dom _ _ Hr) as Hdom.
  unfold MoreSpec.resolvedCount. rewrite <- (size_dom resolutions).
  assert (length ambiguousTrips = length (MoreSpec.tripIds ambiguousTrips))
    as Hlen by (unfold MoreSpec.tripIds; by rewrite length_fmap).
  split.
  - rewrite Hlen. etrans; [by apply subseteq_size|]. apply size_list_to_set_le.
  - intros Hnd.
    rewrite Hlen, <- (size_list_to_set (C:=gset jsstring) _ Hnd).
    unfold ResolverDialog.confirmDisabled. rewrite negb_false_iff.
    rewrite isAllResolved_spec. split.
    + intros Hids Hall. f_equal. apply set_eq. intros k. split; [apply Hdom|].
      intros (t & -> & Ht)%elem_of_list_to_set%list_elem_of_fmap.
      destruct (proj1 (prop_assigned resolutions _ (Hids t Ht)) (Hall t Ht))
        as [v Hv].
      apply elem_of_dom. by eexists.
    + intros Hknox Hsize t Ht.
      assert (dom resolutions
              = list_to_set (C:=gset jsstring) (MoreSpec.tripIds ambiguousTrips))
        as Heq by (apply set_subseteq_size_eq; [done|lia]).
      assert (BusinessTrip.id (Ambiguous.trip t) ∈ dom resolutions) as Hin.
      { rewrite Heq. apply elem_of_list_to_set, list_elem_of_fmap. by exists t. }
      apply elem_of_dom in Hin as [v Hv].
      destruct (reachable_rendered _ _ Hr _ _ Hv) as (t' & c & Ht' & Hc & _ & ->).
      destruct (Hknox t' c Ht' Hc) as [k Hk].
      rewrite (prop_own _ _ _ Hv), Hk. done.
Qed.

(** One trip with two candidates: the count is 0 of 1 at the opening and
    1 of 1 after a choice. *)
Lemma confirm_count_witness :
  let kim1 := TeamMember.mk (js "m1") (js "Kim") (Some (js "kim.a")) (js "Sales") in
  let kim2 := TeamMember.mk (js "m2") (js "Kim") (Some (js "kim.b")) (js "Design") in
  let t := BusinessTrip.mk (js "trip-1") None (js "Kim") (js "2026-02-03")
             (js "2026-02-05") (js "해외") (js "출장") TripCategory.trip
             (js "planned") (js "2026-11-03") (js "2026-11-03") in
  let amb := [Ambiguous.mk t [kim1; kim2]] in
  let r := ResolverDialog.handleSelect (js "trip-1") (Some (js "kim.b"))
             (ResolverDialog.openEffect true ∅) in
  (MoreSpec.resolvedCount r <= 1)%nat /\
  (ResolverDialog.confirmDisabled amb r = false ->
   MoreSpec.resolvedCount r = 1%nat) /\
  (MoreSpec.resolvedCount r = 1%nat ->
   ResolverDialog.confirmDisabled amb r = false).
Proof.
  intros kim1 kim2 t amb r.
  assert (ResolverDialog.reachable amb r) as Hr.
  { apply (ResolverDialog.reach_select amb _ (js "trip-1") (Some (js "kim.b"))).
    - apply ResolverDialog.reach_open.
    - exists (Ambiguous.mk t [kim1; kim2]), kim2. repeat split.
      + apply list_elem_of_here.
      + apply list_elem_of_further, list_elem_of_here. }
  destruct (confirm_count amb r Hr) as [Hle Hiff].
  split; [exact Hle|].
  destruct (Hiff (NoDup_singleton _)) as [Hto Hfrom].
  split.
  - apply Hto. intros t' ->%list_elem_of_singleton.
    apply (bool_decide_unpack _). by vm_compute.
  - apply Hfrom. intros t' c ->%list_elem_of_singleton Hc. cbn in Hc.
    apply elem_of_cons in Hc as [->|Hc]; [by eexists|].
    apply list_elem_of_singleton in Hc as ->. by eexists.
Defined.

(** X12. Choosing enables the confirm button.  After clicks that choose a
    candidate with a [knoxId] for every listed trip, in any order and with
    any number of changes of mind, the button is enabled, a click on it
    passes the map to [onResolve], and the map holds for every trip the
    [knoxId] chosen last. *)
Theorem select_all_enables_confirm
    (ambiguousTrips : list Ambiguous.t)
    (choices : list (jsstring * option jsstring))
    (resolutions : ResolverDialog.Resolutions) :
  (forall c, c ∈ choices -> is_Some c.2) ->
  (forall t, t ∈ ambiguousTrips ->
     BusinessTrip.id (Ambiguous.trip t) ∈ choices.*1) ->
  let chosen := MoreSpec.selectAll choices resolutions in
  ResolverDialog.click ambiguousTrips chosen ResolverDialog.ClickConfirm
    = (chosen, [ResolverDialog.onResolve chosen]) /\
  forall pre id k post,
    choices = pre ++ (id, k) :: post -> id ∉ post.*1 ->
    chosen !! id = Some k /\
    ResolverDialog.prop chosen id = ResolverDialog.ownValue k.
Proof.
  intros Hsome Hall chosen.
  assert (forall pre id k post,
            choices = pre ++ (id, k) :: post -> id ∉ post.*1 ->
            chosen !! id = Some k /\
            ResolverDialog.prop chosen id = ResolverDialog.ownValue k) as Hlast.
  { intros pre id k post -> Hpost. subst chosen.
    assert (MoreSpec.selectAll (pre ++ (id, k) :: post) resolutions !! id = Some k)
      as Hlook by (by apply selectAll_last).
    split; [done|]. by apply prop_own. }
  split; [|exact Hlast].
  assert (ResolverDialog.isAllResolved ambiguousTrips chosen = true) as Hres.
  { apply isAllResolved_spec. intros t Ht.
    destruct (last_choice _ _ (Hall t Ht)) as (pre & k & post & E & Hpost).
    destruct (Hsome (BusinessTrip.id (Ambiguous.trip t), k)) as [v Hv].
    { rewrite E. apply elem_of_app. right. apply list_elem_of_here. }
    cbn in Hv. subst k.
    destruct (Hlast pre _ _ post E Hpost) as [_ ->]. done. }
  cbn. unfold ResolverDialog.confirmDisabled. by rewrite Hres.
Qed.

(** Two trips; the first choice for the first trip is changed later. *)
Lemma select_all_enables_confirm_witness :
  let kim1 := TeamMember.mk (js "m1") (js "Kim") (Some (js "kim.a")) (js "Sales") in
  let kim2 := TeamMember.mk (js "m2") (js "Kim") (Some (js "kim.b")) (js "Design") in
  let t1 := BusinessTrip.mk (js "trip-1") None (js "Kim") (js "2026-02-03")
              (js "2026-02-05") (js "해외") (js "출장") TripCategory.trip
              (js "planned") (js "2026-11-03") (js "2026-11-03") in
  let t2 := BusinessTrip.mk (js "trip-2") None (js "Kim") (js "2026-03-03")
              (js "2026-03-05") (js "해외") (js "교육") TripCategory.education
              (js "planned") (js "2026-11-03") (js "2026-11-03") in
  let amb := [Ambiguous.mk t1 [kim1; kim2]; Ambiguous.mk t2 [kim1; kim2]] in
  let choices :=
    [(js "trip-1", Some (js "kim.a")); (js "trip-2", Some (js "kim.b"));
     (js "trip-1", Some (js "kim.b"))] in
  let chosen := MoreSpec.selectAll choices ∅ in
  ResolverDialog.click amb chosen ResolverDialog.ClickConfirm
    = (chosen, [ResolverDialog.onResolve chosen]) /\
  chosen !! js "trip-1" = Some (Some (js "kim.b")) /\
  ResolverDialog.prop chosen (js "trip-1") = ResolverDialog.Str (js "kim.b").
Proof.
  intros kim1 kim2 t1 t2 amb choices chosen.
  destruct (select_all_enables_confirm amb choices ∅) as [Hclick Hlast].
  - intros c Hc. unfold choices in Hc.
    repeat (apply elem_of_cons in Hc as [->|Hc]; [by eexists|]).
    by apply elem_of_nil in Hc.
  - intros t Ht. unfold amb in Ht.
    apply elem_of_cons in Ht as [->|Ht]; [apply list_elem_of_here|].
    apply list_elem_of_singleton in Ht as ->.
    apply list_elem_of_further, list_elem_of_here.
  - split; [exact Hclick|].
    apply (Hlast [(js "trip-1", Some (js "kim.a")); (js "trip-2", Some (js "kim.b"))]
             (js "trip-1") (Some (js "kim.b")) []); [done|].
    by intros ?%elem_of_nil.
Defined.

(** * The migration and the items of localStorage: further properties *)

Section MigrationMore.
Import Migration.

Variable JsValue : Type.
Variable JSON_parse : jsstring -> option JsValue.
Variable ofString : jsstring -> JsValue.
Variable idbAccepts : jsstring -> JsValue -> bool.

Local Abbreviation Browser := (Browser JsValue).
Local Abbreviation init :=
  (initializeIndexedDBStorage JsValue JSON_parse ofString idbAccepts).
Local Abbreviation migratedValue := (migratedValue JsValue JSON_parse ofString).
Local Abbreviation idbSet := (idbSet JsValue idbAccepts).
Local Abbreviation migrateKey :=
  (migrateKey JsValue JSON_parse ofString idbAccepts).
Local Abbreviation migrateKeys :=
  (migrateKeys JsValue JSON_parse ofString idbAccepts).

(** The object store holds a copy of the string [v] under [k]. *)
Local Abbreviation holdsCopy b k v :=
  (idb b !! k = Some (migratedValue v) \/ idb b !! k = Some (ofString v)).

Lemma idbSet_cases key value (b : Browser) :
  idbSet key value b = (Throw RequestError, b) \/
  idbSet key value b = (Normal (), b) /\ window b = false \/
  idbSet key value b = (Normal (), withIdb JsValue b (<[key := value]> (idb b)))
    /\ window b = true.
Proof.
  unfold Migration.idbSet. destruct (window b); [|by right; left].
  destruct (idbAccepts key value); [by right; right|by left].
Qed.

(** One request changes at most the entry of its key, and only to the value
    that it puts. *)
Lemma idbSet_frame key value (b b1 : Browser) c :
  idbSet key value b = (c, b1) ->
  window b1 = window b /\ localStorage b1 = localStorage b /\
  (forall k, idb b1 !! k = idb b !! k \/ k = key /\ idb b1 !! k = Some value) /\
  (c = Normal () -> window b = true -> idb b1 !! key = Some value).
Proof.
  destruct (idbSet_cases key value b) as [H|[[H Hw]|[H Hw]]];
    rewrite H; intros [= <- <-].
  - split; [done|]. split; [done|]. split; [by left|done].
  - split; [done|]. split; [done|]. split; [by left|]. by rewrite Hw.
  - cbn [window localStorage idb withIdb].
    split; [done|]. split; [done|]. split.
    + intros k. destruct (decide (k = key)) as [->|Hne].
      * right. split; [done|]. apply lookup_insert_eq.
      * left. by apply lookup_insert_ne.
    + intros _ _. apply lookup_insert_eq.
Qed.

Lemma migrateKey_frame key (b b1 : Browser) c :
  migrateKey key b = (c, b1) ->
  window b1 = window b /\ localStorage b1 = localStorage b /\
  (forall k, idb b1 !! k = idb b !! k \/
     k = key /\ exists v, localStorage b !! k = Some v /\ holdsCopy b1 k v) /\
  (c = Normal () -> window b = true ->
   forall v, localStorage b !! key = Some v -> holdsCopy b1 key v).
Proof.
  unfold Migration.migrateKey, getStorageItem.
  destruct (window b) eqn:Hw.
  2:{ intros [= <- <-]. split; [done|]. split; [done|]. split; [by left|done]. }
  destruct (localStorage b !! key) as [v|] eqn:Hv.
  2:{ intros [= <- <-]. split; [done|]. split; [done|]. split; [by left|done]. }
  assert (JSON_parse v = None -> migratedValue v = ofString v) as HpN
    by (unfold Migration.migratedValue; by intros ->).
  destruct (JSON_parse v) as [value|] eqn:Hp.
  - assert (migratedValue v = value) as Hm
      by (unfold Migration.migratedValue; by rewrite Hp).
    destruct (idbSet key value b) as [c0 b0] eqn:E0.
    apply idbSet_frame in E0 as (Hw0 & Hls0 & Hidb0 & Hput0).
    destruct c0 as [[]|e|].
    2,3: intros E1; apply idbSet_frame in E1 as (Hw1 & Hls1 & Hidb1 & Hput1);
      (split; [congruence|]); (split; [congruence|]); split;
      [intros k; destruct (Hidb1 k) as [Hk|[-> Hk]];
        [destruct (Hidb0 k) as [?|[-> ?]];
          [left; congruence
          |right; split; [done|]; exists v; split; [done|]; left; congruence]
        |right; split; [done|]; exists v; split; [done|]; by right]
      |intros Hc _ v' [= <-]; right; apply Hput1; [done|congruence]].
    intros [= <- <-]. split; [congruence|]. split; [done|]. split.
    + intros k. destruct (Hidb0 k) as [?|[-> ?]]; [by left|].
      right. split; [done|]. exists v. split; [done|]. left. congruence.
    + intros _ _ v' [= <-]. left. rewrite Hm. by apply Hput0.
  - intros E1. apply idbSet_frame in E1 as (Hw1 & Hls1 & Hidb1 & Hput1).
    split; [congruence|]. split; [done|]. split.
    + intros k. destruct (Hidb1 k) as [Hk|[-> Hk]]; [by left|].
      right. split; [done|]. exists v. split; [done|]. by right.
    + intros Hc _ v' [= <-]. right. apply Hput1; [done|congruence].
Qed.

(** The loop over the tracked keys: localStorage is only read; an entry of
    the object store is left alone or becomes a copy of the string that
    localStorage holds under its key; when the loop completes, every key of
    the list that localStorage holds has its copy. *)
Lemma migrateKeys_frame keys : forall (b b1 : Browser) c,
  migrateKeys keys b = (c, b1) ->
  window b1 = window b /\ localStorage b1 = localStorage b /\
  (forall k, idb b1 !! k = idb b !! k \/
     k ∈ keys /\ exists v, localStorage b !! k = Some v /\ holdsCopy b1 k v) /\
  (c = Normal () -> window b = true ->
   forall k v, k ∈ keys -> localStorage b !! k = Some v -> holdsCopy b1 k v).
Proof.
  induction keys as [|key keys IH]; intros b b1 c; cbn [Migration.migrateKeys].
  - intros [= <- <-]. split; [done|]. split; [done|]. split; [by left|].
    by intros _ _ k v ?%elem_of_nil.
  - destruct (migrateKey key b) as [c0 b0] eqn:E0.
    apply migrateKey_frame in E0 as (Hw0 & Hls0 & Hidb0 & Hput0).
    assert (forall k, idb b0 !! k = idb b !! k \/
              k ∈ key :: keys /\
              exists v, localStorage b !! k = Some v /\ holdsCopy b0 k v) as Hidb0'.
    { intros k. destruct (Hidb0 k) as [?|[-> ?]]; [by left|].
      right. split; [apply list_elem_of_here|done]. }
    destruct c0 as [[]|e|].
    + intros (Hw1 & Hls1 & Hidb1 & Hput1)%IH.
      rewrite Hls0 in Hls1, Hidb1, Hput1. rewrite Hw0 in Hw1, Hput1.
      assert (forall k, idb b1 !! k = idb b !! k \/
                k ∈ key :: keys /\
                exists v, localStorage b !! k = Some v /\ holdsCopy b1 k v)
        as Hidb.
      { intros k. destruct (Hidb1 k) as [Hk|[Hin Hk]].
        - rewrite Hk. destruct (Hidb0' k) as [?|[? (v & ? & ?)]]; [by left|].
          right. split; [done|]. by exists v.
        - right. split; [by apply list_elem_of_further|done]. }
      split; [done|]. split; [done|]. split; [done|].
      intros Hc Hw k v Hin Hv.
      apply elem_of_cons in Hin as [->|Hin]; [|by apply Hput1].
      destruct (Hidb1 key) as [Hk|[_ (v' & Hv' & Hcopy)]].
      * rewrite Hk. by apply Hput0.
      * congruence.
    + intros [= <- <-]. by split; [|split; [|split]].
    + intros [= <- <-]. by split; [|split; [|split]].
Qed.

Lemma setStorageItem_frame key value (b : Browser) :
  let b1 := setStorageItem JsValue ofString idbAccepts key value b in
  window b1 = window b /\
  (window b = true -> localStorage b1 = <[key := value]> (localStorage b)) /\
  (window b = false -> b1 = b) /\
  (forall k, idb b1 !! k = idb b !! k \/
     k = key /\ shouldSyncKey key = true /\ idb b1 !! k = Some (ofString value)).
Proof.
  unfold Migration.setStorageItem. destruct (window b) eqn:Hw; cbn zeta.
  2:{ repeat split; try done. by left. }
  destruct (shouldSyncKey key) eqn:Hs.
  - destruct (idbSet key (ofString value)
                (withLocalStorage JsValue b (<[key:=value]> (localStorage b))))
      as [c b1] eqn:E.
    apply idbSet_frame in E as (Hw1 & Hls1 & Hidb1 & _). cbn [snd].
    cbn [window localStorage idb withLocalStorage] in *.
    repeat split; try done; try congruence.
    intros k. destruct (Hidb1 k) as [?|[-> ?]]; [by left|by right].
  - cbn [window localStorage idb withLocalStorage].
    repeat split; try done. by left.
Qed.

End MigrationMore.

Lemma heavy_tracked k :
  k ∈ Migration.heavyKeys -> k ∈ Migration.IDB_SYNC_KEYS.
Proof.
  intros Hk.
  assert (Forall (fun x => x ∈ Migration.IDB_SYNC_KEYS) Migration.heavyKeys) as H.
  { apply (bool_decide_unpack
             (Forall (fun x => x ∈ Migration.IDB_SYNC_KEYS) Migration.heavyKeys)).
    vm_compute. exact I. }
  by eapply Forall_forall in H.
Qed.

Section MigrationRun.
Import Migration.

Variable JsValue : Type.
Variable JSON_parse : jsstring -> option JsValue.
Variable ofString : jsstring -> JsValue.
Variable idbAccepts : jsstring -> JsValue -> bool.

Local Abbreviation init :=
  (initializeIndexedDBStorage JsValue JSON_parse ofString idbAccepts).
Local Abbreviation migratedValue := (migratedValue JsValue JSON_parse ofString).
Local Abbreviation holdsCopy b k v :=
  (idb b !! k = Some (migratedValue v) \/ idb b !! k = Some (ofString v)).

(** The runs of the migration, whatever requests the object store
    completes.  An entry of the object store is left alone, becomes a copy
    of the string of localStorage, or becomes the flag.  Either nothing
    happens; or the loop fails and localStorage is as before; or the loop
    completes and the flag is set in localStorage, and the heavy keys are
    removed when the flag has reached the object store too. *)
Lemma init_run (b : Browser JsValue) :
  window (init b) = window b /\
  (forall k,
     idb (init b) !! k = idb b !! k \/
     k ∈ IDB_SYNC_KEYS /\
     ((exists v, localStorage b !! k = Some v /\ holdsCopy (init b) k v) \/
      k = IDB_MIGRATION_KEY /\ idb (init b) !! k = Some (ofString (js "2")))) /\
  (init b = b \/
   window b = true /\ localStorage b !! IDB_MIGRATION_KEY <> Some (js "2") /\
   (localStorage (init b) = localStorage b \/
    (forall k v, k ∈ IDB_SYNC_KEYS -> k <> IDB_MIGRATION_KEY ->
       localStorage b !! k = Some v -> holdsCopy (init b) k v) /\
    (localStorage (init b) = <[IDB_MIGRATION_KEY := js "2"]> (localStorage b) \/
     localStorage (init b) =
       foldl (fun m key => delete key m)
         (<[IDB_MIGRATION_KEY := js "2"]> (localStorage b)) heavyKeys /\
     idb (init b) !! IDB_MIGRATION_KEY = Some (ofString (js "2"))))).
Proof.
  assert (IDB_MIGRATION_KEY ∈ IDB_SYNC_KEYS) as Hflag.
  { apply (bool_decide_unpack (IDB_MIGRATION_KEY ∈ IDB_SYNC_KEYS)).
    vm_compute. exact I. }
  unfold initializeIndexedDBStorage.
  destruct (window b) eqn:Hw.
  2:{ rewrite Hw. split; [done|]. split; [by left|by left]. }
  case_bool_decide as Hdone.
  { rewrite Hw. split; [done|]. split; [by left|by left]. }
  assert (localStorage b !! IDB_MIGRATION_KEY <> Some (js "2")) as Hnot.
  { intros H. apply Hdone. unfold getStorageItem. by rewrite Hw. }
  destruct (migrateKeys JsValue JSON_parse ofString idbAccepts IDB_SYNC_KEYS b)
    as [c b1] eqn:E1.
  apply migrateKeys_frame in E1 as (Hw1 & Hls1 & Hidb1 & Hput1).
  assert (forall k,
            idb b1 !! k = idb b !! k \/
            k ∈ IDB_SYNC_KEYS /\
            ((exists v, localStorage b !! k = Some v /\ holdsCopy b1 k v) \/
             k = IDB_MIGRATION_KEY /\ idb b1 !! k = Some (ofString (js "2"))))
    as Hint1.
  { intros k. destruct (Hidb1 k) as [?|[? ?]]; [by left|]. right. split; [done|by left]. }
  destruct c as [[]|e|].
  2:{ split; [congruence|]. split; [done|]. right. do 2 (split; [done|]). by left. }
  2:{ split; [congruence|]. split; [done|]. right. do 2 (split; [done|]). by left. }
  specialize (Hput1 eq_refl Hw).
  pose proof (setStorageItem_frame JsValue ofString idbAccepts
                IDB_MIGRATION_KEY (js "2") b1) as (Hw2 & Hls2 & _ & Hidb2).
  set (b2 := setStorageItem JsValue ofString idbAccepts IDB_MIGRATION_KEY (js "2") b1)
    in *.
  specialize (Hls2 (eq_trans Hw1 Hw)).
  destruct (idbSet JsValue idbAccepts IDB_MIGRATION_KEY (ofString (js "2")) b2)
    as [c3 b3] eqn:E3.
  apply idbSet_frame in E3 as (Hw3 & Hls3 & Hidb3 & Hput3).
  assert (forall k, k <> IDB_MIGRATION_KEY -> idb b3 !! k = idb b1 !! k) as Hsame.
  { intros k Hne. destruct (Hidb3 k) as [->|[? _]]; [|done].
    by destruct (Hidb2 k) as [->|[? _]]. }
  assert (forall k,
            idb b3 !! k = idb b !! k \/
            k ∈ IDB_SYNC_KEYS /\
            ((exists v, localStorage b !! k = Some v /\ holdsCopy b3 k v) \/
             k = IDB_MIGRATION_KEY /\ idb b3 !! k = Some (ofString (js "2"))))
    as Hint3.
  { intros k. destruct (decide (k = IDB_MIGRATION_KEY)) as [->|Hne].
    - destruct (Hidb3 IDB_MIGRATION_KEY) as [Hk|[_ Hk]];
        [|right; split; [done|by right]].
      rewrite Hk.
      destruct (Hidb2 IDB_MIGRATION_KEY) as [Hk2|(_ & _ & Hk2)];
        [|right; split; [done|by right]].
      rewrite Hk2. destruct (Hint1 IDB_MIGRATION_KEY) as [?|[? [(v & ? & ?)|[_ ?]]]];
        [by left| |by right; split; [done|right]].
      right. split; [done|]. left. by exists v.
    - rewrite (Hsame k Hne).
      destruct (Hint1 k) as [?|[? [(v & ? & ?)|[? _]]]]; [by left| |done].
      right. split; [done|]. left. by exists v. }
  assert (forall k v, k ∈ IDB_SYNC_KEYS -> k <> IDB_MIGRATION_KEY ->
            localStorage b !! k = Some v -> holdsCopy b3 k v) as Hcopies.
  { intros k v Hin Hne Hv. rewrite (Hsame k Hne). apply Hput1; [done|congruence]. }
  assert (localStorage b3 = <[IDB_MIGRATION_KEY := js "2"]> (localStorage b)) as Hls.
  { by rewrite Hls3, Hls2, Hls1. }
  destruct c3 as [[]|e|].
  - unfold removeHeavy. cbn [window idb localStorage withLocalStorage].
    split; [congruence|]. split; [done|]. right. do 2 (split; [done|]).
    right. split; [done|]. right. split; [by rewrite Hls|].
    apply Hput3; [done|congruence].
  - split; [congruence|]. split; [done|]. right. do 2 (split; [done|]).
    right. split; [done|]. by left.
  - split; [congruence|]. split; [done|]. right. do 2 (split; [done|]).
    right. split; [done|]. by left.
Qed.

End MigrationRun.

(** X13. The migration loses no value.  Whatever requests the object store
    completes or rejects, a string that localStorage held under a key other
    than the flag is, after [initializeIndexedDBStorage], still in
    localStorage under that key, or in the object store under that key, as
    the parsed value or as the string. *)
Theorem migration_keeps_values
    (JsValue : Type) (JSON_parse : jsstring -> option JsValue)
    (ofString : jsstring -> JsValue) (idbAccepts : jsstring -> JsValue -> bool)
    (b : Migration.Browser JsValue) (k v : jsstring) :
  Migration.localStorage b !! k = Some v ->
  k <> Migration.IDB_MIGRATION_KEY ->
  let b' :=
    Migration.initializeIndexedDBStorage JsValue JSON_parse ofString idbAccepts b in
  Migration.localStorage b' !! k = Some v \/
  Migration.idb b' !! k =
    Some (Migration.migratedValue JsValue JSON_parse ofString v) \/
  Migration.idb b' !! k = Some (ofString v).
Proof.
  intros Hv Hne b'. subst b'.
  destruct (init_run JsValue JSON_parse ofString idbAccepts b)
    as (_ & _ & [->|(_ & _ & [->|[Hcopies Hls]])]); [by left|by left|].
  destruct (decide (k ∈ Migration.IDB_SYNC_KEYS)) as [Hin|Hin].
  { right. by apply Hcopies. }
  left. destruct Hls as [->|[-> _]].
  - by rewrite lookup_insert_ne.
  - rewrite removed_lookup.
    rewrite bool_decide_eq_false_2 by (by intros ?%heavy_tracked).
    by rewrite lookup_insert_ne.
Qed.

(** A browser whose object store rejects every request: the task list
    stays in localStorage. *)
Lemma migration_keeps_values_witness :
  let b : Migration.Browser jsstring :=
    {| Migration.window := true;
       Migration.localStorage :=
         {[ js "local-tasks-data" := js "{}"; js "local-tasks-theme" := js "dark" ]};
       Migration.idb := ∅ |} in
  let b' :=
    Migration.initializeIndexedDBStorage jsstring (fun _ => None) (fun s => s)
      (fun _ _ => false) b in
  Migration.localStorage b' !! js "local-tasks-data" = Some (js "{}") \/
  Migration.idb b' !! js "local-tasks-data" = Some (js "{}") \/
  Migration.idb b' !! js "local-tasks-data" = Some (js "{}").
Proof.
  intros b b'.
  apply (migration_keeps_values jsstring (fun _ => None) (fun s => s)
           (fun _ _ => false) b (js "local-tasks-data") (js "{}")).
  - by vm_compute.
  - by vm_compute.
Defined.

(** X14. What the migration never does.  Whatever requests the object store
    completes or rejects, [initializeIndexedDBStorage] changes in
    localStorage only the flag and the heavy keys, and a heavy key is left
    alone or removed, never rewritten; in the object store it touches only
    tracked keys and removes no entry. *)
Theorem migration_frame
    (JsValue : Type) (JSON_parse : jsstring -> option JsValue)
    (ofString : jsstring -> JsValue) (idbAccepts : jsstring -> JsValue -> bool)
    (b : Migration.Browser JsValue) :
  let b' :=
    Migration.initializeIndexedDBStorage JsValue JSON_parse ofString idbAccepts b in
  Migration.window b' = Migration.window b /\
  (forall k, k ∉ Migration.heavyKeys -> k <> Migration.IDB_MIGRATION_KEY ->
     Migration.localStorage b' !! k = Migration.localStorage b !! k) /\
  (forall k, k <> Migration.IDB_MIGRATION_KEY ->
     Migration.localStorage b' !! k = Migration.localStorage b !! k \/
     Migration.localStorage b' !! k = None) /\
  (forall k, k ∉ Migration.IDB_SYNC_KEYS ->
     Migration.idb b' !! k = Migration.idb b !! k) /\
  (forall k, is_Some (Migration.idb b !! k) -> is_Some (Migration.idb b' !! k)).
Proof.
  intros b'. subst b'.
  destruct (init_run JsValue JSON_parse ofString idbAccepts b)
    as (Hw & Hidb & Hls).
  assert (forall k, k <> Migration.IDB_MIGRATION_KEY ->
            (k ∉ Migration.heavyKeys ->
             Migration.localStorage
               (Migration.initializeIndexedDBStorage JsValue JSON_parse ofString
                  idbAccepts b) !! k = Migration.localStorage b !! k) /\
            (Migration.localStorage
               (Migration.initializeIndexedDBStorage JsValue JSON_parse ofString
                  idbAccepts b) !! k = Migration.localStorage b !! k \/
             Migration.localStorage
               (Migration.initializeIndexedDBStorage JsValue JSON_parse ofString
                  idbAccepts b) !! k = None)) as Hk.
  { intros k Hne.
    destruct Hls as [->|(_ & _ & [->|[_ [->|[-> _]]]])];
      try (split; [done|by left]).
    - rewrite lookup_insert_ne by done. split; [done|by left].
    - rewrite removed_lookup. case_bool_decide.
      + split; [done|by right].
      + rewrite lookup_insert_ne by done. split; [done|by left]. }
  split; [done|]. split; [intros k ? ?; by apply Hk|].
  split; [intros k ?; by apply Hk|]. split.
  - intros k Hk'. by destruct (Hidb k) as [?|[? _]].
  - intros k Hsome. destruct (Hidb k) as [->|[_ [(v & _ & [->| ->])|[_ ->]]]]; eauto.
Qed.

(** X15. The flag is set last.  In a browser that has not migrated yet,
    whatever requests the object store completes or rejects: when
    [initializeIndexedDBStorage] leaves the flag '2' in localStorage, every
    tracked key that localStorage held has its copy in the object store; and
    when a heavy key has gone from localStorage, the object store holds the
    flag as well. *)
Theorem migration_flag_last
    (JsValue : Type) (JSON_parse : jsstring -> option JsValue)
    (ofString : jsstring -> JsValue) (idbAccepts : jsstring -> JsValue -> bool)
    (b : Migration.Browser JsValue) :
  Migration.localStorage b !! Migration.IDB_MIGRATION_KEY <> Some (js "2") ->
  let b' :=
    Migration.initializeIndexedDBStorage JsValue JSON_parse ofString idbAccepts b in
  (Migration.localStorage b' !! Migration.IDB_MIGRATION_KEY = Some (js "2") ->
   forall k v, k ∈ Migration.IDB_SYNC_KEYS -> k <> Migration.IDB_MIGRATION_KEY ->
     Migration.localStorage b !! k = Some v ->
     Migration.idb b' !! k =
       Some (Migration.migratedValue JsValue JSON_parse ofString v) \/
     Migration.idb b' !! k = Some (ofString v)) /\
  (forall k v, Migration.localStorage b !! k = Some v ->
     Migration.localStorage b' !! k = None ->
     Migration.localStorage b' !! Migration.IDB_MIGRATION_KEY = Some (js "2") /\
     Migration.idb b' !! Migration.IDB_MIGRATION_KEY = Some (ofString (js "2"))).
Proof.
  intros Hnot b'. subst b'.
  destruct (init_run JsValue JSON_parse ofString idbAccepts b)
    as (_ & _ & [->|(_ & _ & [->|[Hcopies Hls]])]).
  - split; [done|]. intros k v Hv Hn. congruence.
  - split; [done|]. intros k v Hv Hn. congruence.
  - split; [by intros _|].
    intros k v Hv Hn. destruct Hls as [Hls|[Hls Hflag]].
    + rewrite Hls in Hn. destruct (decide (k = Migration.IDB_MIGRATION_KEY)) as [->|Hne].
      * by rewrite lookup_insert_eq in Hn.
      * rewrite lookup_insert_ne in Hn by done. congruence.
    + split; [|done]. rewrite Hls, removed_lookup.
      rewrite bool_decide_eq_false_2 by apply flag_not_heavy.
      apply lookup_insert_eq.
Qed.

(** A browser whose object store completes every request. *)
Lemma migration_flag_last_witness :
  let b : Migration.Browser jsstring :=
    {| Migration.window := true;
       Migration.localStorage :=
         {[ js "local-tasks-data" := js "{}"; js "local-tasks-theme" := js "dark" ]};
       Migration.idb := ∅ |} in
  let b' :=
    Migration.initializeIndexedDBStorage jsstring (fun _ => None) (fun s => s)
      (fun _ _ => true) b in
  Migration.localStorage b' !! js "local-tasks-data" = None /\
  Migration.idb b' !! js "local-tasks-data" = Some (js "{}") /\
  Migration.idb b' !! Migration.IDB_MIGRATION_KEY = Some (js "2").
Proof.
  intros b b'.
  destruct (migration_flag_last jsstring (fun _ => None) (fun s => s)
              (fun _ _ => true) b) as [Hcopies Hgone]; [by vm_compute|].
  assert (Migration.localStorage b' !! js "local-tasks-data" = None) as Hn
    by (by vm_compute).
  split; [exact Hn|].
  destruct (Hgone (js "local-tasks-data") (js "{}")) as [Hflag Hidb];
    [by vm_compute|exact Hn|].
  split; [|exact Hidb].
  destruct (Hcopies Hflag (js "local-tasks-data") (js "{}")) as [H|H];
    [| |by vm_compute|exact H|exact H].
  - apply (bool_decide_unpack
             (js "local-tasks-data" ∈ Migration.IDB_SYNC_KEYS)).
    vm_compute. exact I.
  - by vm_compute.
Defined.

(** * Items of localStorage *)

(** X16. Items round trip.  In a browser, [getStorageItem] reads back what
    [setStorageItem] wrote and nothing after [removeStorageItem], and both
    leave the other keys of both stores alone.  The object store follows
    only for a tracked key, and only when it completes the request:
    otherwise its entry stays as it was. *)
Theorem storage_item_round_trip
    (JsValue : Type) (ofString : jsstring -> JsValue)
    (idbAccepts : jsstring -> JsValue -> bool) (idbDeletes : jsstring -> bool)
    (key value : jsstring) (b : Migration.Browser JsValue) :
  Migration.window b = true ->
  let get := Migration.getStorageItem JsValue in
  let written := Migration.setStorageItem JsValue ofString idbAccepts key value b in
  let removed := StorageItems.removeStorageItem JsValue idbDeletes key b in
  get key written = Some value /\
  get key removed = None /\
  (forall k, k <> key ->
     get k written = get k b /\ get k removed = get k b /\
     Migration.idb written !! k = Migration.idb b !! k /\
     Migration.idb removed !! k = Migration.idb b !! k) /\
  Migration.idb written !! key =
    (if Migration.shouldSyncKey key && idbAccepts key (ofString value)
     then Some (ofString value) else Migration.idb b !! key) /\
  Migration.idb removed !! key =
    (if Migration.shouldSyncKey key && idbDeletes key
     then None else Migration.idb b !! key).
Proof.
  intros Hw get written removed. subst get written removed.
  unfold Migration.getStorageItem, Migration.setStorageItem,
    StorageItems.removeStorageItem, Migration.idbSet, StorageItems.idbDelete.
  rewrite Hw. cbn [Migration.window Migration.withLocalStorage].
  rewrite Hw.
  destruct (Migration.shouldSyncKey key);
    destruct (idbAccepts key (ofString value));
    destruct (idbDeletes key);
    cbn [snd Migration.window Migration.localStorage Migration.idb
         Migration.withLocalStorage Migration.withIdb andb];
    rewrite ?Hw, ?lookup_insert_eq, ?lookup_delete_eq;
    (split; [done|]); (split; [done|]);
    (split; [|by split]);
    intros k Hne; by rewrite ?lookup_insert_ne, ?lookup_delete_ne by done.
Qed.

(** The tracked key of the notes, in a browser whose object store completes
    the requests. *)
Lemma storage_item_round_trip_witness :
  let b : Migration.Browser jsstring :=
    {| Migration.window := true;
       Migration.localStorage := {[ js "local-tasks-theme" := js "dark" ]};
       Migration.idb := ∅ |} in
  let written :=
    Migration.setStorageItem jsstring (fun s => s) (fun _ _ => true)
      (js "local-tasks-notes") (js "[]") b in
  Migration.getStorageItem jsstring (js "local-tasks-notes") written
    = Some (js "[]") /\
  Migration.idb written !! js "local-tasks-notes" = Some (js "[]") /\
  Migration.getStorageItem jsstring (js "local-tasks-theme") written
    = Some (js "dark").
Proof.
  intros b written.
  destruct (storage_item_round_trip jsstring (fun s => s) (fun _ _ => true)
              (fun _ => true) (js "local-tasks-notes") (js "[]") b eq_refl)
    as (Hget & _ & Hother & Hidb & _).
  split; [exact Hget|]. split; [exact Hidb|].
  destruct (Hother (js "local-tasks-theme")) as (H & _); [by vm_compute|].
  etrans; [exact H|]. by vm_compute.
Defined.

(** X17. The theme.  In a browser [getTheme] gives back the theme that
    [setTheme] stored, whether or not the object store takes its copy; it
    answers 'light' when nothing is stored, when the stored string is empty
    and outside a browser, where [setTheme] does nothing. *)
Theorem theme_round_trip
    (JsValue : Type) (ofString : jsstring -> JsValue)
    (idbAccepts : jsstring -> JsValue -> bool)
    (theme : jsstring) (b : Migration.Browser JsValue) :
  let getTheme := StorageItems.getTheme JsValue in
  let setTheme := StorageItems.setTheme JsValue ofString idbAccepts in
  (Migration.window b = true -> theme <> [] ->
   getTheme (setTheme theme b) = theme) /\
  (Migration.window b = false ->
   setTheme theme b = b /\ getTheme b = js "light") /\
  (Migration.localStorage b !! StorageItems.THEME_KEY = None \/
   Migration.localStorage b !! StorageItems.THEME_KEY = Some [] ->
   getTheme b = js "light").
Proof.
  cbn zeta. unfold StorageItems.getTheme, StorageItems.setTheme. split; [|split].
  - intros Hw Hne. rewrite Hw.
    pose proof (setStorageItem_frame JsValue ofString idbAccepts
                  StorageItems.THEME_KEY theme b) as (Hw' & Hls & _).
    unfold Migration.getStorageItem. rewrite Hw', Hw, (Hls Hw), lookup_insert_eq.
    by destruct theme.
  - intros Hw. by rewrite Hw.
  - unfold Migration.getStorageItem. destruct (Migration.window b); [|done].
    by intros [-> | ->].
Qed.

(** The theme 'dark' stored in a browser whose object store rejects the
    copy. *)
Lemma theme_round_trip_witness :
  let b : Migration.Browser jsstring :=
    {| Migration.window := true; Migration.localStorage := ∅;
       Migration.idb := ∅ |} in
  StorageItems.getTheme jsstring b = js "light" /\
  StorageItems.getTheme jsstring
    (StorageItems.setTheme jsstring (fun s => s) (fun _ _ => false) (js "dark") b)
    = js "dark".
Proof.
  intros b.
  destruct (theme_round_trip jsstring (fun s => s) (fun _ _ => false) (js "dark") b)
    as (Hset & _ & Hget).
  split; [apply Hget; by left|]. by apply Hset.
Defined.

(** * The CRUD wrappers: further properties *)

Section Sorting.

Import Storage MoreSpec.

Context {A : Type} (cmp : A -> A -> Z).

Local Abbreviation R := (fun x y => (cmp x y <= 0)%Z).

Lemma sortedBy_nil (Q : A -> A -> Prop) : sortedBy Q [].
Proof. by intros i j a b _ ?. Qed.

Lemma sortedBy_cons (Q : A -> A -> Prop) x l :
  sortedBy Q (x :: l) <-> (forall y, y ∈ l -> Q x y) /\ sortedBy Q l.
Proof.
  split.
  - intros H. split.
    + intros y [j Hj]%list_elem_of_lookup. apply (H 0%nat (S j) x y); [lia|done|done].
    + intros i j a b Hij Ha Hb. apply (H (S i) (S j)); [lia|done|done].
  - intros [Hx Hl] [|i] [|j] a b Hij Ha Hb; try lia.
    + injection Ha as <-. apply Hx. by eapply list_elem_of_lookup_2.
    + apply (Hl i j); [lia|done|done].
Qed.

Lemma insertBy_Permutation x l : insertBy cmp x l ≡ₚ x :: l.
Proof.
  induction l as [|y l IH]; cbn; [done|].
  destruct (cmp x y <=? 0)%Z; [done|]. rewrite IH. apply Permutation_swap.
Qed.

Lemma sortBy_Permutation l : sortBy cmp l ≡ₚ l.
Proof.
  induction l as [|x l IH]; cbn; [done|]. by rewrite insertBy_Permutation, IH.
Qed.

Hypothesis R_trans : forall a b c, R a b -> R b c -> R a c.
Hypothesis R_total : forall a b, R a b \/ R b a.

Lemma insertBy_sorted x l : sortedBy R l -> sortedBy R (insertBy cmp x l).
Proof.
  induction l as [|y l IH]; cbn.
  - intros _. apply sortedBy_cons. split; [by intros ? ?%elem_of_nil|].
    apply sortedBy_nil.
  - intros [Hy Hl]%sortedBy_cons. destruct (Z.leb_spec (cmp x y) 0) as [Hxy|Hxy].
    + apply sortedBy_cons. split; [|by apply sortedBy_cons].
      intros z [->|Hz]%elem_of_cons; [done|].
      apply (R_trans x y z); [done|by apply Hy].
    + apply sortedBy_cons. split; [|by apply IH].
      intros z [->|Hz]%insertBy_elem; [|by apply Hy].
      destruct (R_total y x) as [?|?]; [done|lia].
Qed.

Lemma sortBy_sorted l : sortedBy R (sortBy cmp l).
Proof.
  induction l as [|x l IH]; cbn; [apply sortedBy_nil|by apply insertBy_sorted].
Qed.

End Sorting.

Section SortingMore.

Import Storage MoreSpec.

Context {A : Type} (cmp : A -> A -> Z).

Local Abbreviation R := (fun x y => (cmp x y <= 0)%Z).

(** Sorting a sorted list changes nothing. *)
Lemma sortBy_of_sorted l : sortedBy R l -> sortBy cmp l = l.
Proof.
  induction l as [|x l IH]; [done|].
  intros [Hx Hl]%sortedBy_cons. cbn. rewrite IH by done.
  destruct l as [|y l]; [done|]. cbn.
  destruct (Z.leb_spec (cmp x y) 0) as [|Hxy]; [done|].
  specialize (Hx y (list_elem_of_here _ _)). cbn in Hx. lia.
Qed.

Lemma insertBy_snoc y s x :
  R y x -> insertBy cmp y (s ++ [x]) = insertBy cmp y s ++ [x].
Proof.
  intros Hyx. cbn in Hyx. induction s as [|z s IH]; cbn.
  - destruct (Z.leb_spec (cmp y x) 0); [done|lia].
  - destruct (cmp y z <=? 0)%Z; [done|]. by rewrite IH.
Qed.

(** An entry that comes after all others is sorted to the end. *)
Lemma sortBy_snoc l x :
  (forall y, y ∈ l -> R y x) -> sortBy cmp (l ++ [x]) = sortBy cmp l ++ [x].
Proof.
  induction l as [|y l IH]; intros Hx; [done|]. cbn.
  rewrite IH by (intros z Hz; apply Hx; by apply list_elem_of_further).
  apply insertBy_snoc, Hx, list_elem_of_here.
Qed.

(** Two sorted lists with the same entries are equal when no two entries
    tie. *)
Lemma sortedBy_unique (Q : A -> A -> Prop) l1 : forall l2,
  sortedBy Q l1 -> sortedBy Q l2 -> l1 ≡ₚ l2 ->
  (forall x y, x ∈ l1 -> y ∈ l1 -> Q x y -> Q y x -> x = y) ->
  l1 = l2.
Proof.
  induction l1 as [|x l1 IH]; intros l2 H1 H2 Hp Hanti.
  - by apply Permutation_nil_l in Hp.
  - destruct l2 as [|y l2]; [by apply Permutation_nil_r in Hp|].
    apply sortedBy_cons in H1 as [Hx H1]. apply sortedBy_cons in H2 as [Hy H2].
    assert (x = y) as <-.
    { assert (y ∈ x :: l1) as Hyin by (rewrite Hp; apply list_elem_of_here).
      assert (x ∈ y :: l2) as Hxin by (rewrite <- Hp; apply list_elem_of_here).
      apply elem_of_cons in Hyin as [->|Hyin]; [done|].
      apply elem_of_cons in Hxin as [->|Hxin]; [done|].
      apply Hanti; [apply list_elem_of_here|by apply list_elem_of_further
                   |by apply Hx|by apply Hy]. }
    f_equal. apply IH; [done|done|by apply Permutation_cons_inv in Hp|].
    intros a b Ha Hb. apply Hanti; by apply list_elem_of_further.
Qed.

End SortingMore.

Section ByOrder.

Import Storage MoreSpec.

Context {A : Type} (order : A -> Z).

Lemma sortBy_order_sorted (l : list A) :
  sortedBy (fun a b => order a <= order b)%Z
    (sortBy (fun a b => order a - order b)%Z l).
Proof.
  pose proof (sortBy_sorted (fun a b => order a - order b)%Z) as H.
  cbn in H. intros i j a b Hij Ha Hb.
  assert (order a - order b <= 0)%Z; [|lia].
  eapply (H ltac:(intros; lia) ltac:(intros; lia) l i j); done.
Qed.

Lemma maxOrder_bound (l : list A) :
  (-1 <= StorageOps.maxOrder (order <$> l))%Z /\
  forall x, x ∈ l -> (order x <= StorageOps.maxOrder (order <$> l))%Z.
Proof.
  unfold StorageOps.maxOrder. induction l as [|y l [IH1 IH2]]; cbn.
  - split; [lia|]. by intros ? ?%elem_of_nil.
  - split; [lia|]. intros x [->|Hx]%elem_of_cons; [lia|].
    specialize (IH2 x Hx). lia.
Qed.

End ByOrder.

(** X18. The lists of categories and of quick links.  [getCategories] and
    [getQuickLinks] return the stored entries, each as often as it is
    stored, in ascending [order]; a stored list that is in ascending order
    comes back as it is.  [getCategories] leaves the store as [getAppData]
    does, [getQuickLinks] leaves it alone. *)
Theorem listing_sorted
    (generateId now defaultColor : jsstring) (db : Storage.Db) :
  let read := Storage.getAppData generateId now defaultColor db in
  let cats := StorageOps.getCategories generateId now defaultColor db in
  let links := Storage.getQuickLinks db in
  (fst cats ≡ₚ Storage.categories (fst read) /\
   MoreSpec.sortedBy (fun a b => Category.order a <= Category.order b)%Z (fst cats) /\
   (MoreSpec.sortedBy (fun a b => Category.order a <= Category.order b)%Z
      (Storage.categories (fst read)) ->
    fst cats = Storage.categories (fst read)) /\
   snd cats = snd read) /\
  (fst links ≡ₚ
     (if Storage.window db then default [] (Storage.quickLinks db) else []) /\
   MoreSpec.sortedBy (fun a b => QuickLink.order a <= QuickLink.order b)%Z
     (fst links) /\
   (MoreSpec.sortedBy (fun a b => QuickLink.order a <= QuickLink.order b)%Z
      (default [] (Storage.quickLinks db)) ->
    Storage.window db = true ->
    fst links = default [] (Storage.quickLinks db)) /\
   snd links = db).
Proof.
  cbn zeta. split.
  - unfold StorageOps.getCategories, mbind, Storage.io_bind.
    destruct (Storage.getAppData generateId now defaultColor db) as [data db'].
    cbn. split; [apply sortBy_Permutation|].
    split; [apply sortBy_order_sorted|]. split; [|done].
    intros Hs. apply sortBy_of_sorted. intros i j a b Hij Ha Hb.
    specialize (Hs i j a b Hij Ha Hb). cbn in Hs. lia.
  - unfold Storage.getQuickLinks.
    destruct (Storage.window db); [|by repeat split; try apply sortedBy_nil].
    destruct (Storage.quickLinks db) as [ls|]; cbn;
      [|by repeat split; try apply sortedBy_nil].
    split; [apply sortBy_Permutation|].
    split; [apply sortBy_order_sorted|]. split; [|done].
    intros Hs _. apply sortBy_of_sorted. intros i j a b Hij Ha Hb.
    specialize (Hs i j a b Hij Ha Hb). cbn in Hs. lia.
Qed.

Section Lists.

Import Storage MoreSpec.

Context {A : Type}.

Lemma findIndex_first (p : A -> bool) (l : list A) i x :
  l !! i = Some x -> p x = true ->
  (forall j y, (j < i)%nat -> l !! j = Some y -> p y = false) ->
  findIndex p l = Some i.
Proof.
  intros Hl Hp Hfirst. unfold findIndex.
  assert (list_find (fun x => p x = true) l = Some (i, x)) as ->; [|done].
  apply list_find_Some. split; [done|]. split; [done|].
  intros j y Hj Hlt. rewrite (Hfirst j y Hlt Hj). done.
Qed.

Lemma findIndex_firstAt (getId : A -> jsstring) (l : list A) i x :
  firstAt getId l i x ->
  findIndex (fun y => eqb_id (getId y) (getId x)) l = Some i.
Proof.
  intros [Hl Hfirst]. apply (findIndex_first _ l i x); [done|by apply eqb_id_true|].
  intros j y Hlt Hj. apply eqb_id_false. by eapply Hfirst.
Qed.

Lemma alter_insert (f : A -> A) (l : list A) i x :
  l !! i = Some x -> alter f i l = <[i := f x]> l.
Proof.
  intros Hl. apply list_eq. intros j. destruct (decide (i = j)) as [<-|Hne].
  - rewrite list_lookup_alter_eq, Hl, list_lookup_insert_eq; [done|].
    by eapply lookup_lt_Some.
  - by rewrite list_lookup_alter_ne, list_lookup_insert_ne.
Qed.

Lemma firstAt_insert (getId : A -> jsstring) (l : list A) i x y :
  firstAt getId l i x -> getId y = getId x ->
  firstAt getId (<[i := y]> l) i y.
Proof.
  intros [Hl Hfirst] Hid. split.
  - apply list_lookup_insert_eq. by eapply lookup_lt_Some.
  - intros j z Hlt Hj. rewrite list_lookup_insert_ne in Hj by lia.
    rewrite Hid. by eapply Hfirst.
Qed.

(** In a list without two entries of the same identifier, every entry is
    the first one of its identifier. *)
Lemma NoDup_firstAt (getId : A -> jsstring) (l : list A) i x :
  NoDup (getId <$> l) -> l !! i = Some x -> firstAt getId l i x.
Proof.
  intros Hnd Hl. split; [done|]. intros j y Hlt Hj Heq.
  assert (j = i); [|lia].
  eapply (NoDup_lookup _ _ _ _ Hnd); rewrite list_lookup_fmap.
  - by rewrite Hj.
  - by rewrite Hl, Heq.
Qed.

End Lists.

Section Crud.

Import Storage StorageOps MoreSpec.

Variable generateId : jsstring.
Variable now : jsstring.
Variable defaultColor : jsstring.

Local Abbreviation getAppData := (getAppData generateId now defaultColor).

Lemma getAppData_stored db data :
  window db = true -> appData db = Some data -> getAppData db = (data, db).
Proof. intros Hw Hd. by rewrite getAppData_run, Hw, Hd. Qed.

Lemma saveAppData_run db data :
  window db = true ->
  saveAppData data db =
    ((), {| window := true; appData := Some data;
            quickLinks := quickLinks db; notes := notes db |}).
Proof. intros Hw. unfold saveAppData. by rewrite Hw. Qed.

(** After [getAppData] a browser's store holds the data read. *)
Lemma getAppData_after db :
  window db = true ->
  window (snd (getAppData db)) = true /\
  appData (snd (getAppData db)) = Some (fst (getAppData db)) /\
  quickLinks (snd (getAppData db)) = quickLinks db /\
  notes (snd (getAppData db)) = notes db.
Proof.
  intros Hw. rewrite getAppData_run, Hw.
  destruct (appData db) eqn:E; cbn; by rewrite ?Hw, ?E.
Qed.

Lemma compareNotes_le a b :
  (compareNotes a b <= 0)%Z <->
  (Note.isPinned b = true -> Note.isPinned a = true) /\
  (Note.isPinned a = Note.isPinned b -> (Note.order a <= Note.order b)%Z).
Proof.
  unfold compareNotes.
  destruct (Note.isPinned a), (Note.isPinned b); case_bool_decide; try done;
    split; try lia; try (intros [? ?]; auto; try lia).
  all: try (by intros _; split; [auto|intros; lia]).
  all: try (intros [H ?]; by specialize (H eq_refl)).
  all: intros ?; split; [done|]; intros; lia.
Qed.

End Crud.

(** X19. The tasks of a category.  [getTasks] returns the stored tasks of
    the category asked for, each as often as it is stored, in ascending
    [order]; without a category, and also with the empty string as the
    category, it returns all stored tasks. *)
Theorem getTasks_by_category
    (generateId now defaultColor : jsstring)
    (categoryId : option jsstring) (db : Storage.Db) :
  let stored :=
    Storage.tasks (fst (Storage.getAppData generateId now defaultColor db)) in
  let ts :=
    fst (StorageOps.getTasks generateId now defaultColor categoryId db) in
  (categoryId = None \/ categoryId = Some [] -> ts ≡ₚ stored) /\
  (forall c, categoryId = Some c -> c <> [] ->
     ts ≡ₚ filter (fun t => Task.categoryId t = c) stored) /\
  MoreSpec.sortedBy (fun a b => Task.order a <= Task.order b)%Z ts.
Proof.
  cbn zeta. unfold StorageOps.getTasks, mbind, Storage.io_bind.
  destruct (Storage.getAppData generateId now defaultColor db) as [data db'].
  cbn. split; [|split].
  - intros [-> | ->]; apply sortBy_Permutation.
  - intros c -> Hc. destruct c as [|x c]; [done|]. apply sortBy_Permutation.
  - apply sortBy_order_sorted.
Qed.

Section NotesFacts.

Import Storage MoreSpec.

Lemma compareNotes_trans x y z :
  (compareNotes x y <= 0)%Z -> (compareNotes y z <= 0)%Z ->
  (compareNotes x z <= 0)%Z.
Proof.
  rewrite !compareNotes_le.
  intros [H1 H2] [H3 H4]. split; [auto|]. intros Hxz.
  destruct (Note.isPinned x), (Note.isPinned y), (Note.isPinned z);
    try done; try (by specialize (H1 eq_refl)); try (by specialize (H3 eq_refl));
    specialize (H2 eq_refl); specialize (H4 eq_refl); lia.
Qed.

Lemma compareNotes_total x y :
  (compareNotes x y <= 0)%Z \/ (compareNotes y x <= 0)%Z.
Proof.
  rewrite !compareNotes_le.
  destruct (Note.isPinned x), (Note.isPinned y).
  - destruct (Z.le_ge_cases (Note.order x) (Note.order y)); [left|right]; by split.
  - left. by split.
  - right. by split.
  - destruct (Z.le_ge_cases (Note.order x) (Note.order y)); [left|right]; by split.
Qed.

Lemma getNotes_facts db :
  fst (getNotes db) ≡ₚ (if window db then default [] (notes db) else []) /\
  sortedBy (fun a b => (compareNotes a b <= 0)%Z) (fst (getNotes db)) /\
  snd (getNotes db) = db.
Proof.
  unfold getNotes.
  destruct (window db); [|by split; [|split; [apply sortedBy_nil|]]].
  destruct (notes db) as [ns|]; cbn;
    [|by split; [|split; [apply sortedBy_nil|]]].
  split; [apply sortBy_Permutation|]. split; [|done].
  apply sortBy_sorted; [apply compareNotes_trans|apply compareNotes_total].
Qed.

End NotesFacts.

(** X20. Pinned notes come first.  [getNotes] returns the stored notes,
    each as often as it is stored; no note that is not pinned comes before
    a pinned one, and among the pinned ones and among the others the notes
    are in ascending [order].  The store is left alone. *)
Theorem getNotes_pinned_first (db : Storage.Db) :
  let ns := fst (Storage.getNotes db) in
  ns ≡ₚ (if Storage.window db then default [] (Storage.notes db) else []) /\
  MoreSpec.sortedBy
    (fun a b =>
       (Note.isPinned b = true -> Note.isPinned a = true) /\
       (Note.isPinned a = Note.isPinned b -> (Note.order a <= Note.order b)%Z))
    ns /\
  snd (Storage.getNotes db) = db.
Proof.
  cbn zeta. destruct (getNotes_facts db) as (Hperm & Hsorted & Hsnd).
  split; [done|]. split; [|done].
  intros i j a b Hij Ha Hb. apply compareNotes_le. by eapply Hsorted.
Qed.

Section PlusOne.

Import StorageOps.

(** The rounded sum never falls below its argument, and is the exact sum
    below [2^53]. *)
Lemma plusOne_ge x : (x <= plusOne x)%Z.
Proof.
  unfold plusOne.
  destruct (x <? 2 ^ 53)%Z; [lia|].
  destruct (x <? 2 ^ 54)%Z; [|lia].
  destruct (Z.even (x / 2)); lia.
Qed.

Lemma plusOne_nonneg x : (-1 <= x)%Z -> (0 <= plusOne x)%Z.
Proof.
  intros Hx. unfold plusOne.
  destruct (Z.ltb_spec x (2 ^ 53)); [lia|].
  destruct (x <? 2 ^ 54)%Z; [|lia].
  destruct (Z.even (x / 2)); lia.
Qed.

Lemma plusOne_exact x : (x < 2 ^ 53)%Z -> plusOne x = (x + 1)%Z.
Proof.
  intros Hx. unfold plusOne.
  destruct (Z.ltb_spec x (2 ^ 53)); [done|lia].
Qed.

(** A bound above [-1] on every order bounds the greatest of them. *)
Lemma maxOrder_lt {A} (order : A -> Z) (l : list A) (b : Z) :
  (-1 < b)%Z -> (forall x, x ∈ l -> (order x < b)%Z) ->
  (maxOrder (order <$> l) < b)%Z.
Proof.
  intros Hb. unfold maxOrder. induction l as [|y l IH]; intros Hl; cbn; [lia|].
  assert (order y < b)%Z by apply Hl, list_elem_of_here.
  assert (foldr Z.max (-1) (order <$> l) < b)%Z
    by (apply IH; intros x Hx; by apply Hl, list_elem_of_further).
  lia.
Qed.

(** At [2^53] the sum is rounded back to its argument. *)
Lemma plusOne_rounds : plusOne (2 ^ 53) = (2 ^ 53)%Z.
Proof. reflexivity. Qed.

(** The greatest order does not depend on the order of the list. *)
Lemma maxOrder_Permutation (l k : list Z) :
  l ≡ₚ k -> maxOrder l = maxOrder k.
Proof.
  unfold maxOrder. induction 1 as [|x l k _ IH|x y l|l k m _ IH1 _ IH2]; cbn.
  - done.
  - by rewrite IH.
  - lia.
  - by rewrite IH1.
Qed.

End PlusOne.

(** X21. A new category comes last.  In a browser [addCategory] stores the
    new category behind the stored ones, with the given name, the new
    identifier and an [order] that is at least 0 and not below any stored
    one; it is greater than every stored one when these are below [2^53],
    where adding one is exact.  [getCategories] then returns the former list
    followed by the new category. *)
Theorem addCategory_last
    (generateId now defaultColor newId : jsstring) (colorCount : nat)
    (categoryColor : nat -> jsstring) (name : jsstring) (db : Storage.Db) :
  Storage.window db = true ->
  let read := Storage.getAppData generateId now defaultColor db in
  let added :=
    StorageOps.addCategory generateId now defaultColor newId colorCount
      categoryColor name db in
  let c := fst added in
  Category.id c = newId /\ Category.name c = name /\
  (0 <= Category.order c)%Z /\
  (forall c', c' ∈ Storage.categories (fst read) ->
     (Category.order c' <= Category.order c)%Z) /\
  ((forall c', c' ∈ Storage.categories (fst read) ->
      (Category.order c' < 2 ^ 53)%Z) ->
   Category.order c =
     (StorageOps.maxOrder (Category.order <$> Storage.categories (fst read)) + 1)%Z /\
   forall c', c' ∈ Storage.categories (fst read) ->
     (Category.order c' < Category.order c)%Z) /\
  Storage.appData (snd added) =
    Some {| Storage.categories := Storage.categories (fst read) ++ [c];
            Storage.tasks := Storage.tasks (fst read) |} /\
  fst (StorageOps.getCategories generateId now defaultColor (snd added)) =
    fst (StorageOps.getCategories generateId now defaultColor db) ++ [c].
Proof.
  intros Hw. cbn zeta.
  destruct (getAppData_after generateId now defaultColor db Hw)
    as (Hw' & Hdata & _).
  unfold StorageOps.addCategory, StorageOps.getCategories, mbind, Storage.io_bind.
  destruct (Storage.getAppData generateId now defaultColor db) as [data db'].
  cbn [fst snd] in *.
  rewrite saveAppData_run by done. cbn [mret Storage.io_ret fst snd Storage.appData].
  destruct (maxOrder_bound Category.order (Storage.categories data)) as [Hlow Hmax].
  pose proof (plusOne_ge
    (StorageOps.maxOrder (Category.order <$> Storage.categories data))) as Hge.
  split; [done|]. split; [done|]. split.
  { cbn. by apply plusOne_nonneg. }
  split.
  { intros c' Hc'. specialize (Hmax c' Hc'). cbn. lia. }
  split.
  { intros Hsmall. cbn [Category.order].
    rewrite plusOne_exact by (by apply maxOrder_lt).
    split; [done|]. intros c' Hc'. specialize (Hmax c' Hc'). lia. }
  split; [done|].
  erewrite getAppData_stored; [|reflexivity|reflexivity].
  cbn [fst mret Storage.io_ret Storage.categories].
  apply sortBy_snoc. intros y Hy. specialize (Hmax y Hy). cbn. lia.
Qed.

(** A store with two categories, and one whose greatest order is [2^53]:
    there the new category takes the same order and still comes last. *)
Lemma addCategory_last_witness :
  let work := Category.mk (js "c1") (js "업무") (js "#111111") 0 (js "2026-01-01") in
  let home := Category.mk (js "c2") (js "집") (js "#222222") 3 (js "2026-01-02") in
  let far :=
    Category.mk (js "c4") (js "끝") (js "#444444") (2 ^ 53)%Z (js "2026-01-03") in
  let db cs :=
    {| Storage.window := true;
       Storage.appData :=
         Some {| Storage.categories := cs; Storage.tasks := [] |};
       Storage.quickLinks := None; Storage.notes := None |} in
  let add cs :=
    StorageOps.addCategory (js "g") (js "2026-11-03") (js "#000000") (js "c3") 8
      (fun _ => js "#333333") (js "여행") (db cs) in
  (Category.order (fst (add [home; work])) = 4%Z /\
   fst (StorageOps.getCategories (js "g") (js "2026-11-03") (js "#000000")
          (snd (add [home; work])))
     = [work; home; fst (add [home; work])]) /\
  (Category.order (fst (add [far; work])) = (2 ^ 53)%Z /\
   fst (StorageOps.getCategories (js "g") (js "2026-11-03") (js "#000000")
          (snd (add [far; work])))
     = [work; far; fst (add [far; work])]).
Proof.
  intros work home far db add. split.
  - destruct (addCategory_last (js "g") (js "2026-11-03") (js "#000000") (js "c3") 8
                (fun _ => js "#333333") (js "여행") (db [home; work]) eq_refl)
      as (_ & _ & _ & _ & Hexact & _ & Hlist).
    split; [|exact Hlist].
    apply Hexact. intros c' Hc'. cbn in Hc'.
    apply elem_of_cons in Hc' as [->|Hc']; [done|].
    by apply list_elem_of_singleton in Hc' as ->.
  - destruct (addCategory_last (js "g") (js "2026-11-03") (js "#000000") (js "c3") 8
                (fun _ => js "#333333") (js "여행") (db [far; work]) eq_refl)
      as (_ & _ & _ & _ & _ & _ & Hlist).
    split; [by vm_compute|exact Hlist].
Defined.

(** X22. A new note comes last.  In a browser [addNote] makes a note that
    is neither pinned nor archived, with the new identifier and an [order]
    not below any stored one, greater than every stored one when these are
    below [2^53], where adding one is exact; it stores the sorted notes
    followed by it, and [getNotes] then returns the former list followed by
    the new note, pinned notes included. *)
Theorem addNote_last
    (newId now title content color : jsstring) (db : Storage.Db) :
  Storage.window db = true ->
  let added := StorageOps.addNote now newId title content color db in
  let n := fst added in
  Note.id n = newId /\ Note.title n = title /\
  Note.isPinned n = false /\ Note.isArchived n = false /\
  (0 <= Note.order n)%Z /\
  (forall n', n' ∈ default [] (Storage.notes db) ->
     (Note.order n' <= Note.order n)%Z) /\
  ((forall n', n' ∈ default [] (Storage.notes db) ->
      (Note.order n' < 2 ^ 53)%Z) ->
   Note.order n =
     (StorageOps.maxOrder (Note.order <$> default [] (Storage.notes db)) + 1)%Z /\
   forall n', n' ∈ default [] (Storage.notes db) ->
     (Note.order n' < Note.order n)%Z) /\
  Storage.notes (snd added) = Some (fst (Storage.getNotes db) ++ [n]) /\
  fst (Storage.getNotes (snd added)) = fst (Storage.getNotes db) ++ [n].
Proof.
  intros Hw. cbn zeta.
  unfold StorageOps.addNote, mbind, Storage.io_bind.
  destruct (getNotes_facts db) as (Hperm & Hsorted & Hsnd).
  destruct (Storage.getNotes db) as [ns db'] eqn:Hget. cbn [fst snd] in *. subst db'.
  unfold Storage.saveNotes. rewrite Hw.
  cbn [mret Storage.io_ret fst snd Storage.notes].
  rewrite Hw in Hperm.
  destruct (maxOrder_bound Note.order ns) as [Hlow Hmax].
  pose proof (plusOne_ge (StorageOps.maxOrder (Note.order <$> ns))) as Hge.
  assert (StorageOps.maxOrder (Note.order <$> default [] (Storage.notes db))
          = StorageOps.maxOrder (Note.order <$> ns)) as Hsame.
  { apply maxOrder_Permutation. by rewrite Hperm. }
  do 4 (split; [done|]). split.
  { cbn. by apply plusOne_nonneg. }
  split.
  { intros n' Hn'. rewrite <- Hperm in Hn'.
    specialize (Hmax n' Hn'). cbn. lia. }
  split.
  { intros Hsmall. cbn [Note.order]. rewrite Hsame.
    rewrite plusOne_exact.
    - split; [done|]. intros n' Hn'. rewrite <- Hperm in Hn'.
      specialize (Hmax n' Hn'). lia.
    - apply maxOrder_lt; [done|]. intros x Hx. apply Hsmall. by rewrite <- Hperm. }
  split; [done|].
  unfold Storage.getNotes. cbn [Storage.window Storage.notes fst].
  rewrite sortBy_snoc.
  - f_equal. by apply sortBy_of_sorted.
  - intros y Hy. apply compareNotes_le. cbn. split; [done|].
    intros _. specialize (Hmax y Hy). lia.
Qed.

Section TaskRuns.

Import Storage StorageOps MoreSpec.

Variable generateId : jsstring.
Variable now : jsstring.
Variable defaultColor : jsstring.

Local Abbreviation updateTask := (updateTask generateId now defaultColor).
Local Abbreviation deleteTask := (deleteTask generateId now defaultColor).
Local Abbreviation toggleTaskComplete :=
  (toggleTaskComplete generateId now defaultColor).
Local Abbreviation updateCategory := (updateCategory generateId now defaultColor).
Local Abbreviation restoreTask := (restoreTask generateId now defaultColor).

Lemma updateTask_run db data i t updates :
  window db = true -> appData db = Some data ->
  firstAt Task.id (tasks data) i t ->
  updateTask (Task.id t) updates db =
    (Some (Task.spread t updates),
     {| window := true;
        appData :=
          Some {| categories := categories data;
                  tasks := <[i := Task.spread t updates]> (tasks data) |};
        quickLinks := quickLinks db; notes := notes db |}).
Proof.
  intros Hw Hdata Hfirst. unfold Storage.updateTask, mbind, io_bind.
  rewrite (getAppData_stored _ _ _ db data Hw Hdata).
  rewrite (findIndex_firstAt Task.id (tasks data) i t Hfirst).
  rewrite saveAppData_run by done. cbn [mret io_ret].
  destruct Hfirst as [Hi _].
  rewrite (alter_insert _ _ i t Hi).
  rewrite list_lookup_insert_eq by (by eapply lookup_lt_Some). done.
Qed.

Lemma toggleTaskComplete_run db data i t :
  window db = true -> appData db = Some data ->
  firstAt Task.id (tasks data) i t ->
  toggleTaskComplete (Task.id t) db =
    (Some (toggled now t),
     {| window := true;
        appData :=
          Some {| categories := categories data;
                  tasks := <[i := toggled now t]> (tasks data) |};
        quickLinks := quickLinks db; notes := notes db |}).
Proof.
  intros Hw Hdata Hfirst. unfold Storage.toggleTaskComplete, mbind, io_bind.
  rewrite (getAppData_stored _ _ _ db data Hw Hdata).
  rewrite (findIndex_firstAt Task.id (tasks data) i t Hfirst).
  rewrite saveAppData_run by done. cbn [mret io_ret].
  destruct Hfirst as [Hi _].
  rewrite (alter_insert _ _ i t Hi).
  rewrite list_lookup_insert_eq by (by eapply lookup_lt_Some). done.
Qed.

Lemma deleteTask_run db data i t :
  window db = true -> appData db = Some data ->
  firstAt Task.id (tasks data) i t ->
  deleteTask (Task.id t) db =
    (true,
     {| window := true;
        appData :=
          Some {| categories := categories data;
                  tasks := delete i (tasks data) |};
        quickLinks := quickLinks db; notes := notes db |}).
Proof.
  intros Hw Hdata Hfirst. unfold Storage.deleteTask, mbind, io_bind.
  rewrite (getAppData_stored _ _ _ db data Hw Hdata).
  rewrite (findIndex_firstAt Task.id (tasks data) i t Hfirst).
  by rewrite saveAppData_run by done.
Qed.

Lemma updateCategory_run db data i c updates :
  window db = true -> appData db = Some data ->
  firstAt Category.id (categories data) i c ->
  updateCategory (Category.id c) updates db =
    (Some (Category.spread c updates),
     {| window := true;
        appData :=
          Some {| categories := <[i := Category.spread c updates]> (categories data);
                  tasks := tasks data |};
        quickLinks := quickLinks db; notes := notes db |}).
Proof.
  intros Hw Hdata Hfirst. unfold Storage.updateCategory, mbind, io_bind.
  rewrite (getAppData_stored _ _ _ db data Hw Hdata).
  rewrite (findIndex_firstAt Category.id (categories data) i c Hfirst).
  rewrite saveAppData_run by done. cbn [mret io_ret].
  destruct Hfirst as [Hi _].
  rewrite (alter_insert _ _ i c Hi).
  rewrite list_lookup_insert_eq by (by eapply lookup_lt_Some). done.
Qed.

Lemma restoreTask_run db data t :
  window db = true -> appData db = Some data ->
  restoreTask t db =
    ((),
     {| window := true;
        appData :=
          Some {| categories := categories data; tasks := tasks data ++ [t] |};
        quickLinks := quickLinks db; notes := notes db |}).
Proof.
  intros Hw Hdata. unfold StorageOps.restoreTask, mbind, io_bind.
  rewrite (getAppData_stored _ _ _ db data Hw Hdata).
  by rewrite saveAppData_run by done.
Qed.

End TaskRuns.

(** X23. Updating a task.  When the store holds a task of the identifier,
    [updateTask] returns the first such task with the given fields replaced,
    stores it at the same place, and leaves every other task and every
    category as it was. *)
Theorem updateTask_found
    (generateId now defaultColor : jsstring) (db : Storage.Db)
    (data : Storage.AppData) (i : nat) (t : Task.t) (updates : Task.patch) :
  Storage.window db = true -> Storage.appData db = Some data ->
  MoreSpec.firstAt Task.id (Storage.tasks data) i t ->
  let r := Storage.updateTask generateId now defaultColor (Task.id t) updates db in
  fst r = Some (Task.spread t updates) /\
  exists data',
    Storage.appData (snd r) = Some data' /\
    Storage.categories data' = Storage.categories data /\
    Storage.tasks data' !! i = Some (Task.spread t updates) /\
    length (Storage.tasks data') = length (Storage.tasks data) /\
    (forall j, j <> i -> Storage.tasks data' !! j = Storage.tasks data !! j) /\
    Storage.quickLinks (snd r) = Storage.quickLinks db /\
    Storage.notes (snd r) = Storage.notes db.
Proof.
  intros Hw Hdata Hfirst r. subst r.
  rewrite (updateTask_run generateId now defaultColor db data i t updates Hw Hdata Hfirst).
  split; [done|]. eexists. split; [reflexivity|]. cbn.
  destruct Hfirst as [Hi _]. split; [done|].
  split; [by rewrite list_lookup_insert_eq by (by eapply lookup_lt_Some)|].
  split; [apply length_insert|]. split; [|done].
  intros j Hj. by apply list_lookup_insert_ne.
Qed.

(** Two tasks of the same identifier: only the first one gets the new
    title. *)
Lemma updateTask_found_witness :
  let t1 := Task.mk (js "t1") (js "c1") (js "보고서") [] [] [] None None []
              false None false 0 (js "2026-01-01") in
  let t2 := Task.mk (js "t1") (js "c1") (js "회의") [] [] [] None None []
              false None false 1 (js "2026-01-02") in
  let db :=
    {| Storage.window := true;
       Storage.appData :=
         Some {| Storage.categories := []; Storage.tasks := [t1; t2] |};
       Storage.quickLinks := None; Storage.notes := None |} in
  let updates :=
    Task.mkPatch None None (Some (js "보고서 v2")) None None None None None None
      None None None None None in
  let r := Storage.updateTask (js "g") (js "2026-11-03") (js "#000000") (js "t1")
             updates db in
  (Task.title <$> fst r) = Some (js "보고서 v2") /\
  exists data', Storage.appData (snd r) = Some data' /\
    Storage.tasks data' !! 1%nat = Some t2.
Proof.
  intros t1 t2 db updates r.
  destruct (updateTask_found (js "g") (js "2026-11-03") (js "#000000") db
              {| Storage.categories := []; Storage.tasks := [t1; t2] |} 0 t1 updates
              eq_refl eq_refl)
    as (Hr & data' & Hd & _ & _ & _ & Hother & _).
  { split; [done|]. intros j y Hj. lia. }
  split.
  - change (Task.title <$> fst r = Some (js "보고서 v2")).
    change (fst r = Some (Task.spread t1 updates)) in Hr. by rewrite Hr.
  - exists data'. split; [exact Hd|]. by rewrite (Hother 1%nat) by lia.
Defined.

(** X24. Toggling twice.  When the store holds a task of the identifier,
    [toggleTaskComplete] flips [completed] of the first such task and sets
    [completedAt] to the time of the call, or to [null] when the task is no
    longer completed.  A second call brings [completed] back, but not
    [completedAt]: a task that was completed is then stamped with the time
    of the second call. *)
Theorem toggleTaskComplete_twice
    (generateId now1 now2 defaultColor : jsstring) (db : Storage.Db)
    (data : Storage.AppData) (i : nat) (t : Task.t) :
  Storage.window db = true -> Storage.appData db = Some data ->
  MoreSpec.firstAt Task.id (Storage.tasks data) i t ->
  let r1 := Storage.toggleTaskComplete generateId now1 defaultColor (Task.id t) db in
  let r2 :=
    Storage.toggleTaskComplete generateId now2 defaultColor (Task.id t) (snd r1) in
  let back :=
    Task.setCompleted t (Task.completed t)
      (if Task.completed t then Some now2 else None) in
  fst r1 = Some (MoreSpec.toggled now1 t) /\
  fst r2 = Some back /\
  Storage.appData (snd r2) =
    Some {| Storage.categories := Storage.categories data;
            Storage.tasks := <[i := back]> (Storage.tasks data) |}.
Proof.
  intros Hw Hdata Hfirst r1 r2 back. subst r1 r2 back.
  rewrite (toggleTaskComplete_run generateId now1 defaultColor db data i t
             Hw Hdata Hfirst).
  cbn [fst snd]. split; [done|].
  erewrite (toggleTaskComplete_run generateId now2 defaultColor _ _ i
              (MoreSpec.toggled now1 t)); [|reflexivity|reflexivity|].
  2:{ cbn [Storage.tasks]. by apply (firstAt_insert Task.id _ i t). }
  cbn [fst snd Storage.appData Storage.tasks Storage.categories].
  rewrite list_insert_insert_eq.
  assert (MoreSpec.toggled now2 (MoreSpec.toggled now1 t)
          = Task.setCompleted t (Task.completed t)
              (if Task.completed t then Some now2 else None)) as ->; [|done].
  unfold MoreSpec.toggled, Task.setCompleted. cbn.
  by rewrite negb_involutive.
Qed.

(** A task completed in March, toggled twice in November. *)
Lemma toggleTaskComplete_twice_witness :
  let t := Task.mk (js "t1") (js "c1") (js "보고서") [] [] [] None None []
             true (Some (js "2026-03-01")) false 0 (js "2026-01-01") in
  let db :=
    {| Storage.window := true;
       Storage.appData :=
         Some {| Storage.categories := []; Storage.tasks := [t] |};
       Storage.quickLinks := None; Storage.notes := None |} in
  let r1 := Storage.toggleTaskComplete (js "g") (js "2026-11-03") (js "#000000")
              (js "t1") db in
  let r2 := Storage.toggleTaskComplete (js "g") (js "2026-11-04") (js "#000000")
              (js "t1") (snd r1) in
  (Task.completedAt <$> fst r1) = Some None /\
  (Task.completed <$> fst r2) = Some true /\
  (Task.completedAt <$> fst r2) = Some (Some (js "2026-11-04")).
Proof.
  intros t db r1 r2.
  destruct (toggleTaskComplete_twice (js "g") (js "2026-11-03") (js "2026-11-04")
              (js "#000000") db
              {| Storage.categories := []; Storage.tasks := [t] |} 0 t
              eq_refl eq_refl)
    as (H1 & H2 & _).
  { split; [done|]. intros j y Hj. lia. }
  change (fst r1 = Some (MoreSpec.toggled (js "2026-11-03") t)) in H1.
  change (fst r2 = Some (Task.setCompleted t (Task.completed t)
                           (if Task.completed t then Some (js "2026-11-04")
                            else None))) in H2.
  rewrite H1, H2. done.
Defined.

(** X25. Deleting and restoring a task.  When the store holds a task of the
    identifier, [deleteTask] answers [true] and removes the first such task
    and nothing else; when identifiers are unique no task of that identifier
    is left.  [restoreTask] puts a task at the end, so after both the store
    holds the same tasks as before, the restored one last. *)
Theorem deleteTask_restoreTask
    (generateId now defaultColor : jsstring) (db : Storage.Db)
    (data : Storage.AppData) (i : nat) (t : Task.t) :
  Storage.window db = true -> Storage.appData db = Some data ->
  MoreSpec.firstAt Task.id (Storage.tasks data) i t ->
  let r1 := Storage.deleteTask generateId now defaultColor (Task.id t) db in
  let r2 := StorageOps.restoreTask generateId now defaultColor t (snd r1) in
  fst r1 = true /\
  Storage.appData (snd r1) =
    Some {| Storage.categories := Storage.categories data;
            Storage.tasks := delete i (Storage.tasks data) |} /\
  (NoDup (Task.id <$> Storage.tasks data) ->
   forall t', t' ∈ delete i (Storage.tasks data) -> Task.id t' <> Task.id t) /\
  Storage.appData (snd r2) =
    Some {| Storage.categories := Storage.categories data;
            Storage.tasks := delete i (Storage.tasks data) ++ [t] |} /\
  delete i (Storage.tasks data) ++ [t] ≡ₚ Storage.tasks data.
Proof.
  intros Hw Hdata Hfirst r1 r2. subst r1 r2.
  rewrite (deleteTask_run generateId now defaultColor db data i t Hw Hdata Hfirst).
  cbn [fst snd Storage.appData]. split; [done|]. split; [done|].
  destruct Hfirst as [Hi _]. split; [|split].
  - intros Hnd t' Ht' Heq.
    pose proof (delete_Permutation _ _ _ Hi) as Hp.
    assert (NoDup (Task.id <$> t :: delete i (Storage.tasks data))) as Hnd'
      by (by rewrite <- Hp).
    cbn in Hnd'. apply NoDup_cons in Hnd' as [Hnot _]. apply Hnot.
    rewrite <- Heq. apply list_elem_of_fmap. by exists t'.
  - by erewrite restoreTask_run; [|reflexivity|reflexivity].
  - rewrite (delete_Permutation _ _ _ Hi) at 2.
    by rewrite Permutation_app_comm.
Qed.

(** Three tasks; the second one is deleted and restored. *)
Lemma deleteTask_restoreTask_witness :
  let mk id title order :=
    Task.mk id (js "c1") title [] [] [] None None [] false None false order
      (js "2026-01-01") in
  let a := mk (js "t1") (js "보고서") 0%Z in
  let b := mk (js "t2") (js "회의") 1%Z in
  let c := mk (js "t3") (js "출장") 2%Z in
  let db :=
    {| Storage.window := true;
       Storage.appData :=
         Some {| Storage.categories := []; Storage.tasks := [a; b; c] |};
       Storage.quickLinks := None; Storage.notes := None |} in
  let r1 := Storage.deleteTask (js "g") (js "2026-11-03") (js "#000000") (js "t2") db in
  let r2 := StorageOps.restoreTask (js "g") (js "2026-11-03") (js "#000000") b (snd r1) in
  fst r1 = true /\
  Storage.appData (snd r2) =
    Some {| Storage.categories := []; Storage.tasks := [a; c; b] |}.
Proof.
  intros mk a b c db r1 r2.
  destruct (deleteTask_restoreTask (js "g") (js "2026-11-03") (js "#000000") db
              {| Storage.categories := []; Storage.tasks := [a; b; c] |} 1 b
              eq_refl eq_refl)
    as (H1 & _ & _ & H2 & _).
  { split; [done|]. intros [|j] y Hj Hy; [|lia]. injection Hy as <-. by vm_compute. }
  split; [exact H1|exact H2].
Defined.

(** A store with a pinned note of high order and two other notes. *)
Lemma addNote_last_witness :
  let mk id pinned order :=
    Note.mk id (js "메모") [] (js "#ffffff") pinned false order (js "2026-01-01") in
  let db :=
    {| Storage.window := true; Storage.appData := None;
       Storage.quickLinks := None;
       Storage.notes := Some [mk (js "n1") false 2%Z; mk (js "n2") true 7%Z;
                              mk (js "n3") false 1%Z] |} in
  let added :=
    StorageOps.addNote (js "2026-11-03") (js "n4") (js "새 메모") [] (js "#ffffff") db in
  Note.order (fst added) = 8%Z /\
  Note.id <$> fst (Storage.getNotes (snd added))
    = [js "n2"; js "n3"; js "n1"; js "n4"].
Proof.
  intros mk db added.
  destruct (addNote_last (js "n4") (js "2026-11-03") (js "새 메모") [] (js "#ffffff")
              db eq_refl) as (_ & _ & _ & _ & _ & _ & _ & _ & Hlist).
  split; [by vm_compute|].
  change (fst (Storage.getNotes (snd added)) =
          fst (Storage.getNotes db) ++ [fst added]) in Hlist.
  rewrite Hlist. by vm_compute.
Defined.

(** * Reordering *)

Section Reorder.

Import Storage StorageOps MoreSpec.

Context {A : Type} (getId : A -> jsstring) (setOrder : A -> Z -> A).

Hypothesis getId_setOrder : forall x o, getId (setOrder x o) = getId x.
Hypothesis setOrder_setOrder :
  forall x a b, setOrder (setOrder x a) b = setOrder x b.

Lemma reorderStep_fmap arr index id :
  NoDup (getId <$> arr) ->
  reorderStep getId setOrder arr index id =
    (fun x => if eqb_id (getId x) id then setOrder x (Z.of_nat index) else x)
      <$> arr.
Proof.
  intros Hnd. unfold reorderStep.
  destruct (findIndex (fun x => eqb_id (getId x) id) arr) as [i|] eqn:Hf.
  - apply findIndex_Some in Hf as (x & Hi & Hx & _). apply eqb_id_true in Hx.
    apply list_eq. intros j. rewrite list_lookup_fmap.
    destruct (decide (i = j)) as [<-|Hne].
    + rewrite list_lookup_alter_eq, Hi. cbn.
      by rewrite (proj2 (eqb_id_true _ _) Hx).
    + rewrite list_lookup_alter_ne by done.
      destruct (arr !! j) as [y|] eqn:Hj; [|done]. cbn.
      destruct (eqb_id (getId y) id) eqn:Hy; [|done].
      apply eqb_id_true in Hy. exfalso. apply Hne.
      eapply (NoDup_lookup _ _ _ _ Hnd); rewrite list_lookup_fmap.
      * by rewrite Hi.
      * rewrite Hj. cbn. congruence.
  - rewrite findIndex_None in Hf. rewrite <- (list_fmap_id arr) at 1.
    apply list_fmap_ext. intros j x Hj.
    by rewrite (Hf x (list_elem_of_lookup_2 _ _ _ Hj)).
Qed.

Lemma reorderFrom_fmap ids : forall index arr,
  NoDup (getId <$> arr) ->
  reorderFrom getId setOrder index ids arr =
    reordered getId setOrder index ids <$> arr.
Proof.
  induction ids as [|id ids IH]; intros index arr Hnd; cbn [reorderFrom].
  - rewrite <- (list_fmap_id arr) at 1. by apply list_fmap_ext.
  - rewrite reorderStep_fmap by done. rewrite IH.
    2:{ rewrite <- list_fmap_compose.
        erewrite list_fmap_ext; [exact Hnd|].
        intros j x _. cbn. by destruct (eqb_id (getId x) id). }
    rewrite <- list_fmap_compose. apply list_fmap_ext. intros j x _. cbn.
    unfold reordered. cbn [lastIndex].
    assert (getId (if eqb_id (getId x) id then setOrder x (Z.of_nat index) else x)
            = getId x) as -> by (by destruct (eqb_id (getId x) id)).
    destruct (lastIndex (getId x) ids) as [k|].
    + replace (Z.of_nat (index + S k)) with (Z.of_nat (S index + k)) by lia.
      by destruct (eqb_id (getId x) id).
    + unfold eqb_id. repeat case_bool_decide; try congruence.
      by rewrite Nat.add_0_r.
Qed.

Lemma reordered_id index ids x :
  getId (reordered getId setOrder index ids x) = getId x.
Proof. unfold reordered. by destruct (lastIndex (getId x) ids). Qed.

End Reorder.

Section LastIndex.

Import StorageOps.

Lemma lastIndex_None x ids : x ∉ ids -> lastIndex x ids = None.
Proof.
  induction ids as [|y ids IH]; [done|]. intros Hx. cbn.
  rewrite IH by (intros ?; apply Hx; by apply list_elem_of_further).
  rewrite (proj2 (eqb_id_false y x)); [done|].
  intros ->. apply Hx, list_elem_of_here.
Qed.

Lemma lastIndex_NoDup ids : forall k x,
  NoDup ids -> ids !! k = Some x -> lastIndex x ids = Some k.
Proof.
  induction ids as [|y ids IH]; intros k x Hnd Hk; [done|].
  apply NoDup_cons in Hnd as [Hy Hnd]. destruct k as [|k]; cbn in *.
  - injection Hk as ->. rewrite lastIndex_None by done.
    by rewrite (proj2 (eqb_id_true x x)).
  - by rewrite (IH k x).
Qed.

End LastIndex.

Section ReorderLinks.

Import Storage StorageOps MoreSpec.

Lemma reorderQuickLinks_run db stored linkIds :
  window db = true -> quickLinks db = Some stored ->
  NoDup (QuickLink.id <$> stored) ->
  reorderQuickLinks linkIds db =
    ((), {| window := true; appData := appData db;
            quickLinks :=
              Some (reordered QuickLink.id setLinkOrder 0 linkIds
                      <$> sortBy (fun a b => QuickLink.order a - QuickLink.order b)%Z
                            stored);
            notes := notes db |}).
Proof.
  intros Hw Hq Hnd. unfold reorderQuickLinks, mbind, io_bind, getQuickLinks.
  rewrite Hw, Hq. unfold saveQuickLinks. rewrite Hw.
  rewrite reorderFrom_fmap; [done|done|done|].
  by rewrite sortBy_Permutation.
Qed.

(** The links in the order of [linkIds], numbered from 0. *)
Lemma reordered_in_order (links : list QuickLink.t) :
  NoDup (QuickLink.id <$> links) ->
  forall k l,
    (reordered QuickLink.id setLinkOrder 0 (QuickLink.id <$> links) <$> links)
      !! k = Some l ->
    QuickLink.order l = Z.of_nat k /\
    exists l0, links !! k = Some l0 /\ l = setLinkOrder l0 (Z.of_nat k).
Proof.
  intros Hnd k l. rewrite list_lookup_fmap.
  destruct (links !! k) as [l0|] eqn:Hk; [|done]. cbn. intros [= <-].
  unfold reordered.
  rewrite (lastIndex_NoDup (QuickLink.id <$> links) k (QuickLink.id l0) Hnd)
    by (by rewrite list_lookup_fmap, Hk).
  split; [done|]. by exists l0.
Qed.

End ReorderLinks.

(** X26. Reordering the quick links.  When the stored links have distinct
    identifiers and [linkIds] lists these identifiers in some order,
    [getQuickLinks] returns, after [reorderQuickLinks], the links in the
    order of [linkIds]: their [order] fields are 0, 1, 2, ... and every link
    is a stored one whose other fields are as they were. *)
Theorem reorderQuickLinks_order
    (db : Storage.Db) (stored : list QuickLink.t) (linkIds : list jsstring) :
  Storage.window db = true -> Storage.quickLinks db = Some stored ->
  NoDup (QuickLink.id <$> stored) ->
  linkIds ≡ₚ QuickLink.id <$> stored ->
  let links :=
    fst (Storage.getQuickLinks (snd (StorageOps.reorderQuickLinks linkIds db))) in
  QuickLink.id <$> links = linkIds /\
  QuickLink.order <$> links = Z.of_nat <$> seq 0 (length linkIds) /\
  forall k l, links !! k = Some l ->
    exists l0, l0 ∈ stored /\ l = StorageOps.setLinkOrder l0 (Z.of_nat k).
Proof.
  intros Hw Hq Hnd Hperm links. subst links.
  rewrite (reorderQuickLinks_run db stored linkIds Hw Hq Hnd).
  unfold Storage.getQuickLinks. cbn [snd fst Storage.window Storage.quickLinks].
  set (cmp := (fun a b => QuickLink.order a - QuickLink.order b)%Z).
  destruct (Permutation_map_inv _ _ Hperm)
    as (inOrder & -> & Hstored).
  assert (NoDup (QuickLink.id <$> inOrder)) as Hnd2 by (by rewrite <- Hstored).
  set (target := StorageOps.reordered QuickLink.id StorageOps.setLinkOrder 0
                   (map QuickLink.id inOrder) <$> inOrder).
  assert (forall k l, target !! k = Some l ->
            QuickLink.order l = Z.of_nat k /\
            exists l0, inOrder !! k = Some l0 /\
              l = StorageOps.setLinkOrder l0 (Z.of_nat k)) as Htarget.
  { intros k l. apply (reordered_in_order inOrder Hnd2). }
  assert (target =
          Storage.sortBy cmp
            (StorageOps.reordered QuickLink.id StorageOps.setLinkOrder 0
               (map QuickLink.id inOrder) <$> Storage.sortBy cmp stored)) as <-.
  { apply (sortedBy_unique
             (fun a b => (QuickLink.order a <= QuickLink.order b)%Z)).
    - intros i j a b Hij [Ha _]%Htarget [Hb _]%Htarget. lia.
    - apply sortBy_order_sorted.
    - rewrite sortBy_Permutation. unfold target.
      apply fmap_Permutation. by rewrite sortBy_Permutation, Hstored.
    - intros x y [i Hi]%list_elem_of_lookup [j Hj]%list_elem_of_lookup Hxy Hyx.
      destruct (Htarget _ _ Hi) as [Hx _]. destruct (Htarget _ _ Hj) as [Hy _].
      assert (i = j) as -> by lia. congruence. }
  split; [|split].
  - unfold target. rewrite <- list_fmap_compose.
    apply list_fmap_ext. intros k l _. cbn.
    unfold StorageOps.reordered.
    by destruct (StorageOps.lastIndex (QuickLink.id l) (map QuickLink.id inOrder)).
  - apply list_eq. intros k. rewrite !list_lookup_fmap.
    rewrite length_map. destruct (target !! k) as [l|] eqn:Hk.
    + destruct (Htarget k l Hk) as [Ho (l0 & Hl0 & _)]. cbn. rewrite Ho.
      rewrite lookup_seq_lt by (by eapply lookup_lt_Some). done.
    + cbn. rewrite lookup_seq_ge; [done|].
      apply lookup_ge_None in Hk. unfold target in Hk.
      by rewrite length_fmap in Hk.
  - intros k l Hk. destruct (Htarget k l Hk) as [_ (l0 & Hl0 & ->)].
    exists l0. split; [|done]. rewrite Hstored. by eapply list_elem_of_lookup_2.
Qed.

(** Three links, asked for in the order c, a, b. *)
Lemma reorderQuickLinks_order_witness :
  let a := QuickLink.mk (js "a") (js "메일") (js "https://mail.example") 0 in
  let b := QuickLink.mk (js "b") (js "위키") (js "https://wiki.example") 1 in
  let c := QuickLink.mk (js "c") (js "빌드") (js "https://ci.example") 2 in
  let db :=
    {| Storage.window := true; Storage.appData := None;
       Storage.quickLinks := Some [b; a; c]; Storage.notes := None |} in
  let links :=
    fst (Storage.getQuickLinks
           (snd (StorageOps.reorderQuickLinks [js "c"; js "a"; js "b"] db))) in
  QuickLink.id <$> links = [js "c"; js "a"; js "b"] /\
  QuickLink.order <$> links = [0; 1; 2]%Z.
Proof.
  intros a b c db links.
  destruct (reorderQuickLinks_order db [b; a; c] [js "c"; js "a"; js "b"]
              eq_refl eq_refl) as (Hids & Horders & _).
  - apply (bool_decide_unpack (NoDup (QuickLink.id <$> [b; a; c]))).
    vm_compute. exact I.
  - exact (Permutation_rev [js "c"; js "a"; js "b"]).
  - split; [exact Hids|exact Horders].
Defined.

(** * The data provider *)

Section Mirror.

Import Storage MoreSpec.

Context {A : Type} (getId : A -> jsstring).

(** Replacing by identifier in the state is replacing at the index in the
    store. *)
Lemma replace_coherent (l m : list A) i x u :
  NoDup (getId <$> l) -> m ≡ₚ l -> l !! i = Some x -> getId u = getId x ->
  (fun y => if eqb_id (getId y) (getId x) then u else y) <$> m ≡ₚ <[i := u]> l /\
  NoDup (getId <$> <[i := u]> l).
Proof.
  intros Hnd Hm Hi Hu. split.
  - rewrite Hm.
    assert ((fun y => if eqb_id (getId y) (getId x) then u else y) <$> l
            = <[i := u]> l) as ->; [|done].
    apply list_eq. intros j. rewrite list_lookup_fmap.
    destruct (decide (i = j)) as [<-|Hne].
    + rewrite Hi, list_lookup_insert_eq by (by eapply lookup_lt_Some). cbn.
      by rewrite (proj2 (eqb_id_true _ _) eq_refl).
    + rewrite list_lookup_insert_ne by done.
      destruct (l !! j) as [y|] eqn:Hj; [|done]. cbn.
      destruct (eqb_id (getId y) (getId x)) eqn:Hy; [|done].
      apply eqb_id_true in Hy. exfalso. apply Hne.
      eapply (NoDup_lookup _ _ _ _ Hnd); rewrite list_lookup_fmap.
      * by rewrite Hi.
      * rewrite Hj. cbn. congruence.
  - rewrite list_fmap_insert, Hu. rewrite list_insert_id; [done|].
    by rewrite list_lookup_fmap, Hi.
Qed.

(** Filtering by identifier in the state is deleting at the index in the
    store. *)
Lemma filter_coherent (l m : list A) i x :
  NoDup (getId <$> l) -> m ≡ₚ l -> l !! i = Some x ->
  filter (fun y => getId y <> getId x) m ≡ₚ delete i l /\
  NoDup (getId <$> delete i l).
Proof.
  intros Hnd Hm Hi. split.
  - rewrite Hm. rewrite (delete_Permutation l i x Hi) at 1.
    rewrite filter_cons_False by (by intros H; apply H).
    assert (Forall (fun y => getId y <> getId x) (delete i l)) as Hall.
    { apply Forall_forall. intros y Hy Heq.
      rewrite (delete_Permutation l i x Hi) in Hnd. cbn in Hnd.
      apply NoDup_cons in Hnd as [Hnot _]. apply Hnot.
      rewrite <- Heq. apply list_elem_of_fmap. by exists y. }
    induction Hall as [|y k Hy _ IH]; [done|].
    by rewrite filter_cons_True, IH.
  - eapply sublist_NoDup; [exact Hnd|]. apply fmap_sublist, sublist_delete.
Qed.

End Mirror.

Section ProviderSteps.

Import Storage StorageOps MoreSpec.

Variable generateId : jsstring.
Variable now : jsstring.
Variable defaultColor : jsstring.
Variable newId : jsstring.
Variable colorCount : nat.
Variable categoryColor : nat -> jsstring.

Local Abbreviation step :=
  (Provider.step generateId now defaultColor newId colorCount categoryColor).

Lemma findIndex_firstAt_Some {A} (getId : A -> jsstring) (l : list A) id i :
  findIndex (fun y => eqb_id (getId y) id) l = Some i ->
  exists x, firstAt getId l i x /\ getId x = id.
Proof.
  intros (x & Hi & Hx & Hfirst)%findIndex_Some. apply eqb_id_true in Hx.
  exists x. split; [|done]. split; [done|]. intros j y Hlt Hj. rewrite Hx.
  apply eqb_id_false. by eapply Hfirst.
Qed.

Lemma coherent_updateTask s id updates :
  Provider.coherent s -> Task.id' updates = None ->
  Provider.coherent (step (Provider.UpdateTask id updates) s).
Proof.
  intros (data & Hw & Hdata & Hc & Ht & Hndc & Hndt) Hid.
  destruct s as [m db]. cbn [fst snd] in *.
  cbn [Provider.step]. unfold Provider.updateTask. cbn [fst snd].
  destruct (findIndex (fun t => eqb_id (Task.id t) id) (tasks data)) as [i|] eqn:Hf.
  - apply findIndex_firstAt_Some in Hf as (t & Hfirst & <-).
    rewrite (updateTask_run generateId now defaultColor db data i t updates
               Hw Hdata Hfirst).
    destruct Hfirst as [Hi _].
    assert (Task.id (Task.spread t updates) = Task.id t) as Hu
      by (cbn; by rewrite Hid).
    destruct (replace_coherent Task.id (tasks data) (Provider.tasks m) i t
                (Task.spread t updates) Hndt Ht Hi Hu) as [Hp Hnd].
    eexists. cbn. by repeat (split; [done|]).
  - rewrite findIndex_None in Hf.
    rewrite updateTask_missing.
    2:{ rewrite (getAppData_stored _ _ _ db data Hw Hdata). cbn. intros t Hin.
        apply eqb_id_false. auto. }
    rewrite (getAppData_stored _ _ _ db data Hw Hdata). cbn.
    exists data. by repeat (split; [done|]).
Qed.

Lemma coherent_toggleTaskComplete s id :
  Provider.coherent s ->
  Provider.coherent (step (Provider.ToggleTaskComplete id) s).
Proof.
  intros (data & Hw & Hdata & Hc & Ht & Hndc & Hndt).
  destruct s as [m db]. cbn [fst snd] in *.
  cbn [Provider.step]. unfold Provider.toggleTaskComplete. cbn [fst snd].
  destruct (findIndex (fun t => eqb_id (Task.id t) id) (tasks data)) as [i|] eqn:Hf.
  - apply findIndex_firstAt_Some in Hf as (t & Hfirst & <-).
    rewrite (toggleTaskComplete_run generateId now defaultColor db data i t
               Hw Hdata Hfirst).
    destruct Hfirst as [Hi _].
    destruct (replace_coherent Task.id (tasks data) (Provider.tasks m) i t
                (toggled now t) Hndt Ht Hi eq_refl) as [Hp Hnd].
    eexists. cbn. by repeat (split; [done|]).
  - rewrite findIndex_None in Hf.
    rewrite toggleTaskComplete_missing.
    2:{ rewrite (getAppData_stored _ _ _ db data Hw Hdata). cbn. intros t Hin.
        apply eqb_id_false. auto. }
    rewrite (getAppData_stored _ _ _ db data Hw Hdata). cbn.
    exists data. by repeat (split; [done|]).
Qed.

Lemma coherent_deleteTask s id :
  Provider.coherent s ->
  Provider.coherent (step (Provider.DeleteTask id) s).
Proof.
  intros (data & Hw & Hdata & Hc & Ht & Hndc & Hndt).
  destruct s as [m db]. cbn [fst snd] in *.
  cbn [Provider.step]. unfold Provider.deleteTask. cbn [fst snd].
  destruct (findIndex (fun t => eqb_id (Task.id t) id) (tasks data)) as [i|] eqn:Hf.
  - apply findIndex_firstAt_Some in Hf as (t & Hfirst & <-).
    rewrite (deleteTask_run generateId now defaultColor db data i t
               Hw Hdata Hfirst).
    destruct Hfirst as [Hi _].
    destruct (filter_coherent Task.id (tasks data) (Provider.tasks m) i t
                Hndt Ht Hi) as [Hp Hnd].
    eexists. cbn. by repeat (split; [done|]).
  - rewrite findIndex_None in Hf.
    rewrite deleteTask_missing.
    2:{ rewrite (getAppData_stored _ _ _ db data Hw Hdata). cbn. intros t Hin.
        apply eqb_id_false. auto. }
    rewrite (getAppData_stored _ _ _ db data Hw Hdata). cbn.
    exists data. by repeat (split; [done|]).
Qed.

Lemma coherent_updateCategory s id updates :
  Provider.coherent s -> Category.id' updates = None ->
  Provider.coherent (step (Provider.UpdateCategory id updates) s).
Proof.
  intros (data & Hw & Hdata & Hc & Ht & Hndc & Hndt) Hid.
  destruct s as [m db]. cbn [fst snd] in *.
  cbn [Provider.step]. unfold Provider.updateCategory. cbn [fst snd].
  destruct (findIndex (fun c => eqb_id (Category.id c) id) (categories data))
    as [i|] eqn:Hf.
  - apply findIndex_firstAt_Some in Hf as (c & Hfirst & <-).
    rewrite (updateCategory_run generateId now defaultColor db data i c updates
               Hw Hdata Hfirst).
    destruct Hfirst as [Hi _].
    assert (Category.id (Category.spread c updates) = Category.id c) as Hu
      by (cbn; by rewrite Hid).
    destruct (replace_coherent Category.id (categories data)
                (Provider.categories m) i c
                (Category.spread c updates) Hndc Hc Hi Hu) as [Hp Hnd].
    eexists. cbn. by repeat (split; [done|]).
  - rewrite findIndex_None in Hf.
    rewrite updateCategory_missing.
    2:{ rewrite (getAppData_stored _ _ _ db data Hw Hdata). cbn. intros c Hin.
        apply eqb_id_false. auto. }
    rewrite (getAppData_stored _ _ _ db data Hw Hdata). cbn.
    exists data. by repeat (split; [done|]).
Qed.

Lemma coherent_deleteCategory s id :
  Provider.coherent s ->
  Provider.coherent (step (Provider.DeleteCategory id) s).
Proof.
  intros (data & Hw & Hdata & Hc & Ht & Hndc & Hndt).
  destruct s as [m db]. cbn [fst snd] in *.
  cbn [Provider.step]. unfold Provider.deleteCategory. cbn [fst snd].
  destruct (findIndex (fun c => eqb_id (Category.id c) id) (categories data))
    as [i|] eqn:Hf.
  - rewrite (deleteCategory_found generateId now defaultColor db data id i
               Hw Hdata Hf).
    apply findIndex_firstAt_Some in Hf as (c & [Hi _] & <-).
    destruct (filter_coherent Category.id (categories data)
                (Provider.categories m) i c Hndc Hc Hi) as [Hp Hnd].
    eexists. cbn. split; [done|]. split; [done|]. split; [done|].
    split; [by rewrite Ht|]. split; [done|].
    eapply sublist_NoDup; [exact Hndt|]. apply fmap_sublist, sublist_filter.
  - rewrite findIndex_None in Hf.
    rewrite deleteCategory_missing.
    2:{ rewrite (getAppData_stored _ _ _ db data Hw Hdata). cbn. intros c Hin.
        apply eqb_id_false. auto. }
    rewrite (getAppData_stored _ _ _ db data Hw Hdata). cbn.
    exists data. by repeat (split; [done|]).
Qed.

Lemma coherent_addCategory s name :
  Provider.coherent s ->
  (forall data, appData (snd s) = Some data ->
     newId ∉ Category.id <$> categories data) ->
  Provider.coherent (step (Provider.AddCategory name) s).
Proof.
  intros (data & Hw & Hdata & Hc & Ht & Hndc & Hndt) Hfresh.
  specialize (Hfresh data Hdata).
  destruct s as [m db]. cbn [fst snd] in *.
  cbn [Provider.step]. unfold Provider.addCategory, StorageOps.addCategory,
    mbind, io_bind. cbn [fst snd].
  rewrite (getAppData_stored _ _ _ db data Hw Hdata).
  rewrite saveAppData_run by done. cbn.
  eexists. split; [done|]. split; [reflexivity|]. cbn.
  split; [by rewrite Hc|]. split; [done|]. split; [|done].
  rewrite fmap_app. apply NoDup_app. split; [done|]. split; [|apply NoDup_singleton].
  intros x Hx ->%list_elem_of_singleton. done.
Qed.

Lemma coherent_reorderTasks s categoryId taskIds :
  Provider.coherent s ->
  Provider.coherent (step (Provider.ReorderTasks categoryId taskIds) s).
Proof.
  intros (data & Hw & Hdata & Hc & Ht & Hndc & Hndt).
  destruct s as [m db]. cbn [fst snd] in *.
  cbn [Provider.step]. unfold Provider.reorderTasks, StorageOps.reorderTasks,
    mbind, io_bind. cbn [fst snd].
  rewrite (getAppData_stored _ _ _ db data Hw Hdata).
  rewrite saveAppData_run by done.
  assert (NoDup (Task.id <$> Provider.tasks m)) as Hndm by (by rewrite Ht).
  rewrite !(reorderFrom_fmap Task.id setTaskOrder) by done.
  eexists. split; [done|]. split; [reflexivity|]. cbn.
  split; [done|]. split; [by apply fmap_Permutation|]. split; [done|].
  rewrite <- list_fmap_compose.
  erewrite list_fmap_ext; [exact Hndt|].
  intros j x _. cbn. by apply (reordered_id Task.id setTaskOrder).
Qed.

End ProviderSteps.

(** X27. The provider's state follows the store.  When the lists of the
    React state hold the stored categories and tasks, each identifier once,
    they still do after every call that the provider forwards to the
    store: adding a category under a new identifier, updating a category or
    a task without changing its identifier, deleting a category with its
    tasks, deleting or toggling a task, and reordering the tasks. *)
Theorem provider_coherent
    (generateId now defaultColor newId : jsstring) (colorCount : nat)
    (categoryColor : nat -> jsstring) (a : Provider.Action) (s : Provider.State) :
  Provider.coherent s ->
  Provider.keepsIds newId a s ->
  Provider.coherent
    (Provider.step generateId now defaultColor newId colorCount categoryColor a s).
Proof.
  intros Hs Ha. destruct a; cbn in Ha.
  - by apply coherent_addCategory.
  - by apply coherent_updateCategory.
  - by apply coherent_deleteCategory.
  - by apply coherent_updateTask.
  - by apply coherent_deleteTask.
  - by apply coherent_toggleTaskComplete.
  - by apply coherent_reorderTasks.
Qed.

(** Two categories and two tasks; the category of the first task is
    deleted. *)
Lemma provider_coherent_witness :
  let c1 := Category.mk (js "c1") (js "업무") (js "#111111") 0 (js "2026-01-01") in
  let c2 := Category.mk (js "c2") (js "집") (js "#222222") 1 (js "2026-01-02") in
  let mk id cat :=
    Task.mk id cat (js "할 일") [] [] [] None None [] false None false 0
      (js "2026-01-01") in
  let data :=
    {| Storage.categories := [c1; c2];
       Storage.tasks := [mk (js "t1") (js "c1"); mk (js "t2") (js "c2")] |} in
  let s : Provider.State :=
    ({| Provider.categories := [c1; c2];
        Provider.tasks := [mk (js "t1") (js "c1"); mk (js "t2") (js "c2")] |},
     {| Storage.window := true; Storage.appData := Some data;
        Storage.quickLinks := None; Storage.notes := None |}) in
  Provider.coherent
    (Provider.step (js "g") (js "2026-11-03") (js "#000000") (js "c3") 8
       (fun _ => js "#333333") (Provider.DeleteCategory (js "c1")) s).
Proof.
  intros c1 c2 mk data s. apply provider_coherent; [|exact I].
  exists data. split; [done|]. split; [done|]. split; [done|]. split; [done|].
  split.
  - apply (bool_decide_unpack (NoDup (Category.id <$> Storage.categories data))).
    vm_compute. exact I.
  - apply (bool_decide_unpack (NoDup (Task.id <$> Storage.tasks data))).
    vm_compute. exact I.
Defined.

(** * The store of business trips *)

(** X28. Adding and deleting business trips.  In a browser
    [addBusinessTrip] stores the trip behind the stored ones, under the new
    identifier and with both time stamps set to the time of the call.
    [deleteBusinessTrip] removes every trip of the identifier, keeps the
    others in their order and writes the list even when no trip matched; a
    second call changes nothing.  Deleting a trip just added, whose
    identifier no stored trip has, gives back the stored list. *)
Theorem businessTrips_add_delete
    (generateId now id : jsstring) (trip : BusinessTrip.t) (db : TripStorage.Db) :
  TripStorage.window db = true ->
  let stored := default [] (TripStorage.businessTrips db) in
  let added := TripStorage.addBusinessTrip generateId now trip db in
  let deleted := snd (TripStorage.deleteBusinessTrip id db) in
  fst added = TripStorage.stamp trip generateId now /\
  fst (TripStorage.getBusinessTrips (snd added)) = stored ++ [fst added] /\
  TripStorage.businessTrips deleted =
    Some (filter (fun t => BusinessTrip.id t <> id) stored) /\
  snd (TripStorage.deleteBusinessTrip id deleted) = deleted /\
  ((forall t, t ∈ stored -> BusinessTrip.id t <> generateId) ->
   fst (TripStorage.getBusinessTrips
          (snd (TripStorage.deleteBusinessTrip generateId (snd added)))) = stored).
Proof.
  intros Hw. cbn zeta. destruct db as [w trips]. cbn in Hw. subst w.
  unfold TripStorage.addBusinessTrip, TripStorage.deleteBusinessTrip,
    TripStorage.getBusinessTrips, TripStorage.saveBusinessTrips.
  cbn [fst snd TripStorage.window TripStorage.businessTrips].
  generalize (default [] trips). intros stored.
  split; [done|]. split; [done|]. split; [done|]. split.
  - f_equal. f_equal. apply list_filter_filter_l. done.
  - intros Hfresh. cbn [from_option Datatypes.id]. rewrite filter_app.
    rewrite filter_cons_False by (by intros H; apply H).
    rewrite filter_nil, app_nil_r.
    assert (Forall (fun t => BusinessTrip.id t <> generateId) stored) as Hall
      by (by apply Forall_forall).
    clear Hfresh. induction Hall as [|y k Hy _ IH]; [done|].
    by rewrite filter_cons_True, IH.
Qed.

(** A store with one trip. *)
Lemma businessTrips_add_delete_witness :
  let t := BusinessTrip.mk (js "trip-1") None (js "Kim") (js "2026-02-03")
             (js "2026-02-05") (js "해외") (js "출장") TripCategory.trip
             (js "planned") (js "2026-01-01") (js "2026-01-01") in
  let db :=
    {| TripStorage.window := true; TripStorage.businessTrips := Some [t] |} in
  let added :=
    TripStorage.addBusinessTrip (js "trip-2") (js "2026-11-03") t db in
  BusinessTrip.id (fst added) = js "trip-2" /\
  fst (TripStorage.getBusinessTrips
         (snd (TripStorage.deleteBusinessTrip (js "trip-2") (snd added)))) = [t].
Proof.
  intros t db added.
  destruct (businessTrips_add_delete (js "trip-2") (js "2026-11-03") (js "trip-2")
              t db eq_refl) as (Hadd & _ & _ & _ & Hback).
  split.
  - change (fst added = TripStorage.stamp t (js "trip-2") (js "2026-11-03")) in Hadd.
    by rewrite Hadd.
  - apply Hback. intros t' ->%list_elem_of_singleton. by vm_compute.
Defined.

(** * The view of favourites *)

(** X29. The favourite tasks shown.  The view splits the favourite tasks
    whose due date lies in the range of dates into the tasks of the category
    '팀 일정' and the others: every such task is shown in exactly one of the
    two lists, as often as it is among the favourites, and a task without a
    due date or with a due date outside the range is shown in neither.
    Without a category of that name the first list is empty. *)
Theorem favorites_partition
    (categories : list Category.t) (startDate endDate : jsstring)
    (favoriteTasks : list Task.t) :
  let schedule :=
    FavoritesView.scheduleTasks categories startDate endDate favoriteTasks in
  let regular :=
    FavoritesView.regularTasks categories startDate endDate favoriteTasks in
  schedule ++ regular ≡ₚ
    filter (fun t => FavoritesView.filterByDate startDate endDate t = true)
      favoriteTasks /\
  (forall t, t ∈ schedule -> t ∉ regular) /\
  (forall t, t ∈ schedule ++ regular ->
     exists d, Task.dueDate t = Some d /\ d <> [] /\
       FavoritesView.geString d startDate = true /\
       FavoritesView.leString d endDate = true) /\
  (FavoritesView.scheduleCategory categories = None -> schedule = []).
Proof.
  cbn zeta. unfold FavoritesView.scheduleTasks, FavoritesView.regularTasks.
  split; [|split; [|split]].
  - rewrite <- filter_app. by rewrite filter_app_complement.
  - intros t [_ [Hs _]%list_elem_of_filter]%list_elem_of_filter
             [_ [Hn _]%list_elem_of_filter]%list_elem_of_filter.
    done.
  - intros t Ht.
    assert (FavoritesView.filterByDate startDate endDate t = true) as Hd.
    { by apply elem_of_app in Ht as [[? _]%list_elem_of_filter
                                    |[? _]%list_elem_of_filter]. }
    unfold FavoritesView.filterByDate in Hd.
    destruct (Task.dueDate t) as [[|c d]|]; try done.
    apply andb_prop in Hd as [? ?]. by exists (c :: d).
  - intros Hnone. unfold FavoritesView.inSchedule. rewrite Hnone.
    assert (filter (fun _ : Task.t => false = true) favoriteTasks = []) as ->; [|done].
    induction favoriteTasks as [|t ts IH]; [done|].
    by rewrite filter_cons_False.
Qed.

Section LastOccurrence.

Import StorageOps.

Lemma lastIndex_last ids : forall k x,
  ids !! k = Some x ->
  (forall k', (k < k')%nat -> ids !! k' <> Some x) ->
  lastIndex x ids = Some k.
Proof.
  induction ids as [|y ids IH]; intros k x Hk Hlast; [done|].
  destruct k as [|k]; cbn in *.
  - injection Hk as ->. rewrite lastIndex_None.
    + by rewrite (proj2 (eqb_id_true x x)).
    + intros [j Hj]%list_elem_of_lookup. by apply (Hlast (S j)); [lia|].
  - rewrite (IH k x); [done|done|].
    intros k' Hlt. apply (Hlast (S k')). lia.
Qed.

End LastOccurrence.

(** X30. Reordering the tasks changes nothing but [order].  When the stored
    tasks have distinct identifiers, [reorderTasks] leaves the categories
    and the number and places of the stored tasks as they are; a task whose
    identifier is not listed is untouched, and a listed task gets the
    position of its identifier in the list (the last one, if it is listed
    twice) as its [order] and keeps its other fields.  The category passed
    to the function plays no part. *)
Theorem reorderTasks_only_order
    (generateId now defaultColor categoryId : jsstring)
    (taskIds : list jsstring) (db : Storage.Db) (data : Storage.AppData) :
  Storage.window db = true -> Storage.appData db = Some data ->
  NoDup (Task.id <$> Storage.tasks data) ->
  exists data',
    Storage.appData
      (snd (StorageOps.reorderTasks generateId now defaultColor categoryId
              taskIds db)) = Some data' /\
    Storage.categories data' = Storage.categories data /\
    length (Storage.tasks data') = length (Storage.tasks data) /\
    forall j t, Storage.tasks data !! j = Some t ->
      (Task.id t ∉ taskIds -> Storage.tasks data' !! j = Some t) /\
      (forall k, taskIds !! k = Some (Task.id t) ->
         (forall k', (k < k')%nat -> taskIds !! k' <> Some (Task.id t)) ->
         Storage.tasks data' !! j
           = Some (StorageOps.setTaskOrder t (Z.of_nat k))).
Proof.
  intros Hw Hdata Hnd.
  unfold StorageOps.reorderTasks, mbind, Storage.io_bind.
  rewrite (getAppData_stored _ _ _ db data Hw Hdata).
  rewrite saveAppData_run by done.
  rewrite (reorderFrom_fmap Task.id StorageOps.setTaskOrder) by done.
  eexists. split; [reflexivity|]. cbn [Storage.categories Storage.tasks].
  split; [done|]. split; [apply length_fmap|].
  intros j t Hj. rewrite list_lookup_fmap, Hj. cbn.
  unfold StorageOps.reordered. split.
  - intros Hnot. by rewrite lastIndex_None.
  - intros k Hk Hlast. by rewrite (lastIndex_last taskIds k (Task.id t)).
Qed.

(** Three tasks; the last two are listed in the opposite order. *)
Lemma reorderTasks_only_order_witness :
  let mk id order :=
    Task.mk id (js "c1") (js "할 일") [] [] [] None None [] false None false order
      (js "2026-01-01") in
  let data :=
    {| Storage.categories := [];
       Storage.tasks := [mk (js "t1") 5%Z; mk (js "t2") 6%Z; mk (js "t3") 7%Z] |} in
  let db :=
    {| Storage.window := true; Storage.appData := Some data;
       Storage.quickLinks := None; Storage.notes := None |} in
  exists data',
    Storage.appData
      (snd (StorageOps.reorderTasks (js "g") (js "2026-11-03") (js "#000000")
              (js "c1") [js "t3"; js "t2"] db)) = Some data' /\
    Task.order <$> Storage.tasks data' = [5; 1; 0]%Z.
Proof.
  intros mk data db.
  destruct (reorderTasks_only_order (js "g") (js "2026-11-03") (js "#000000")
              (js "c1") [js "t3"; js "t2"] db data eq_refl eq_refl)
    as (data' & Hd & _ & _ & _).
  - apply (bool_decide_unpack (NoDup (Task.id <$> Storage.tasks data))).
    vm_compute. exact I.
  - exists data'. split; [exact Hd|].
    vm_compute in Hd. injection Hd as <-. by vm_compute.
Defined.
